(** * Email relay: lead extraction, assignment, run lock and message processor

    A shallow embedding of the TypeScript sources of the relay
    (validators, recognizer chain, base64url helpers, round-robin
    assignment, run lock, poller, message processor and the scheduled
    run) together with the properties of the specification that were
    checked against them and further properties of the code.

    Conventions of the embedding.
    - A JavaScript string is a [string]; its characters are the code
      units U+0000..U+00FF.  Case mapping follows JavaScript on that
      range, except for the three lower-case letters whose capital lies
      outside of it (U+00B5, U+00DF, U+00FF), which [toUpperCase] leaves
      unchanged here.
    - A [Date] is the integer number of milliseconds since the epoch.
    - [undefined] and [null] are [None].
    - Regular expressions are interpreted by a backtracking matcher with
      the priorities of the ECMAScript algorithm (leftmost start,
      alternatives left to right, greedy or lazy iteration).
    - The tables of the database are finite maps keyed by their unique
      column, except the agent table, which is read in order and is a
      list of rows.  The store itself does not fail.
    - The calls to the mailbox, the outbound transport and the alert
      hook, the clock and the ids of new rows are answered by an
      explicit environment; an event is recorded for each call when it
      is made, whether or not it then fails. *)

From Stdlib Require Import ZArith NArith Ascii String List Bool Lia Permutation Sorted.
From Stdlib Require Import Strings.Byte.
From stdpp Require Import gmap strings list fin_maps.
Import ListNotations.

Local Open Scope string_scope.
Local Open Scope list_scope.

(** ** Characters *)

Module Char.

Definition code (c : ascii) : N := N_of_ascii c.

Definition inRange (lo hi : N) (c : ascii) : bool :=
  (N.leb lo (code c) && N.leb (code c) hi)%bool.

Definition isChar (x : ascii) (c : ascii) : bool := Ascii.eqb x c.

(** [\s]: the white space and line terminator code units below U+0100. *)
Definition isSpace (c : ascii) : bool :=
  (inRange 9 13 c || N.eqb (code c) 32 || N.eqb (code c) 160)%bool.

(** [\d] and [\D]. *)
Definition isDigit (c : ascii) : bool := inRange 48 57 c.
Definition notDigit (c : ascii) : bool := negb (isDigit c).

Definition isUpperAZ (c : ascii) : bool := inRange 65 90 c.
Definition isLowerAZ (c : ascii) : bool := inRange 97 122 c.

(** [[A-Za-z]]; also what [[A-Z]] and [[a-z]] denote under the [i] flag. *)
Definition isAlpha (c : ascii) : bool := (isUpperAZ c || isLowerAZ c)%bool.

(** [\w]. *)
Definition isWord (c : ascii) : bool :=
  (isAlpha c || isDigit c || isChar "_" c)%bool.

(** Line terminators below U+0100. *)
Definition isLineTerminator (c : ascii) : bool :=
  (N.eqb (code c) 10 || N.eqb (code c) 13)%bool.

Definition toLower (c : ascii) : ascii :=
  let n := code c in
  if (inRange 65 90 c || (inRange 192 222 c && negb (N.eqb n 215)))%bool
  then ascii_of_N (n + 32) else c.

Definition toUpper (c : ascii) : ascii :=
  let n := code c in
  if (inRange 97 122 c || (inRange 224 254 c && negb (N.eqb n 247)))%bool
  then ascii_of_N (n - 32) else c.

(** Comparison of a character with a pattern character under the [i]
    flag: both are canonicalised with [toUpper]. *)
Definition eqCI (x : ascii) (c : ascii) : bool :=
  Ascii.eqb (toUpper x) (toUpper c).

End Char.

(** ** Regular expressions *)

Module Regex.

Inductive regex : Type :=
| Eps : regex
| Cls : (ascii -> bool) -> regex
| Seq : regex -> regex -> regex
| Alt : regex -> regex -> regex
| Star : bool -> regex -> regex      (* [true]: greedy, [false]: lazy *)
| Grp : nat -> regex -> regex        (* capturing group *)
| Bol : bool -> regex                (* [^]; the flag is the [m] flag *)
| Eol : bool -> regex                (* [$]; the flag is the [m] flag *)
| WordB : regex.                     (* [\b] *)

(** A position in the subject: the characters already passed, nearest
    first, and the characters still ahead. *)
Record pos : Type := mkPos { before : list ascii; after : list ascii }.

(** The matcher state: a position and the captures made so far. *)
Record mstate : Type := mkSt { at_ : pos; caps : list (nat * list ascii) }.

Definition remaining (s : mstate) : nat := List.length (after (at_ s)).

Definition atBol (m : bool) (p : pos) : bool :=
  match before p with
  | [] => true
  | c :: _ => (m && Char.isLineTerminator c)%bool
  end.

Definition atEol (m : bool) (p : pos) : bool :=
  match after p with
  | [] => true
  | c :: _ => (m && Char.isLineTerminator c)%bool
  end.

Definition atWordB (p : pos) : bool :=
  let a := match before p with [] => false | c :: _ => Char.isWord c end in
  let b := match after p with [] => false | c :: _ => Char.isWord c end in
  xorb a b.

(** The characters between two positions of the same subject. *)
Definition consumed (p p' : pos) : list ascii :=
  firstn (List.length (after p) - List.length (after p')) (after p).

Definition setCap (i : nat) (w : list ascii) (s : mstate) : mstate :=
  mkSt (at_ s) ((i, w) :: caps s).

Fixpoint getCap (i : nat) (cs : list (nat * list ascii)) : option (list ascii) :=
  match cs with
  | [] => None
  | (j, w) :: cs' => if Nat.eqb i j then Some w else getCap i cs'
  end.

Definition orElse {R : Type} (a b : option R) : option R :=
  match a with Some x => Some x | None => b end.

Section Matcher.
Context {R : Type}.

(** Iteration of [body]: an iteration that consumes nothing is
    rejected, so [fuel], the number of characters ahead, bounds the
    number of iterations. *)
Fixpoint starLoop (body : mstate -> (mstate -> option R) -> option R)
    (greedy : bool) (fuel : nat) (s : mstate) (k : mstate -> option R)
    : option R :=
  match fuel with
  | O => k s
  | S fuel' =>
      let again :=
        body s (fun s1 =>
          if Nat.ltb (remaining s1) (remaining s)
          then starLoop body greedy fuel' s1 k else None) in
      if greedy then orElse again (k s) else orElse (k s) again
  end.

Fixpoint rmatch (r : regex) (s : mstate) (k : mstate -> option R)
    : option R :=
  match r with
  | Eps => k s
  | Cls p =>
      match after (at_ s) with
      | c :: rest =>
          if p c then k (mkSt (mkPos (c :: before (at_ s)) rest) (caps s))
          else None
      | [] => None
      end
  | Seq r1 r2 => rmatch r1 s (fun s1 => rmatch r2 s1 k)
  | Alt r1 r2 => orElse (rmatch r1 s k) (rmatch r2 s k)
  | Star g r1 => starLoop (rmatch r1) g (remaining s) s k
  | Grp i r1 =>
      rmatch r1 s (fun s1 => k (setCap i (consumed (at_ s) (at_ s1)) s1))
  | Bol m => if atBol m (at_ s) then k s else None
  | Eol m => if atEol m (at_ s) then k s else None
  | WordB => if atWordB (at_ s) then k s else None
  end.
End Matcher.

(** A successful match: where it starts, where it ends, its captures. *)
Record found : Type :=
  mkFound { mStart : pos; mEnd : pos; mCaps : list (nat * list ascii) }.

Definition matchAt (r : regex) (p : pos) : option found :=
  rmatch r (mkSt p []) (fun s => Some (mkFound p (at_ s) (caps s))).

(** Leftmost match at or after position [p]: the start positions are
    tried in text order, the end of the subject included. *)
Fixpoint searchFrom (r : regex) (bef aft : list ascii) : option found :=
  match matchAt r (mkPos bef aft) with
  | Some f => Some f
  | None =>
      match aft with
      | [] => None
      | c :: aft' => searchFrom r (c :: bef) aft'
      end
  end.

Definition matched (f : found) : list ascii := consumed (mStart f) (mEnd f).

(** All matches of a [g]-flagged pattern, left to right, without
    overlap; after an empty match the scan moves on by one character. *)
Fixpoint scanAll (r : regex) (fuel : nat) (bef aft : list ascii)
    : list (list ascii) :=
  match fuel with
  | O => []
  | S fuel' =>
      match searchFrom r bef aft with
      | None => []
      | Some f =>
          let w := matched f in
          let e := mEnd f in
          match w, after e with
          | [], [] => [w]
          | [], c :: aft' => w :: scanAll r fuel' (c :: before e) aft'
          | _ :: _, _ => w :: scanAll r fuel' (before e) (after e)
          end
      end
  end.

(** [text.replace(/r/g, by)] for a replacement without [$] patterns. *)
Fixpoint replaceAllFrom (r : regex) (by_ : list ascii) (fuel : nat)
    (bef aft : list ascii) : list ascii :=
  match fuel with
  | O => aft
  | S fuel' =>
      match searchFrom r bef aft with
      | None => aft
      | Some f =>
          let skipped := consumed (mkPos bef aft) (mStart f) in
          let e := mEnd f in
          match matched f, after e with
          | [], [] => skipped ++ by_
          | [], c :: aft' =>
              skipped ++ by_ ++ c :: replaceAllFrom r by_ fuel' (c :: before e) aft'
          | _ :: _, _ =>
              skipped ++ by_ ++ replaceAllFrom r by_ fuel' (before e) (after e)
          end
      end
  end.

(** *** Pattern constructors *)

Definition plus (r : regex) : regex := Seq r (Star true r).
Definition opt (r : regex) : regex := Alt r Eps.
Definition chr (c : ascii) : regex := Cls (Char.isChar c).
Definition chrI (c : ascii) : regex := Cls (Char.eqCI c).

Fixpoint seqs (rs : list regex) : regex :=
  match rs with
  | [] => Eps
  | [r] => r
  | r :: rs' => Seq r (seqs rs')
  end.

Fixpoint alts (rs : list regex) : regex :=
  match rs with
  | [] => Eps
  | [r] => r
  | r :: rs' => Alt r (alts rs')
  end.

Fixpoint times (n : nat) (r : regex) : regex :=
  match n with
  | O => Eps
  | 1 => r
  | S n' => Seq r (times n' r)
  end.

(** A literal word, case-sensitive or under the [i] flag. *)
Fixpoint lit (w : string) : regex :=
  match w with
  | EmptyString => Eps
  | String c EmptyString => chr c
  | String c w' => Seq (chr c) (lit w')
  end.

Fixpoint litI (w : string) : regex :=
  match w with
  | EmptyString => Eps
  | String c EmptyString => chrI c
  | String c w' => Seq (chrI c) (litI w')
  end.

End Regex.

(** ** JavaScript string primitives *)

Module JS.

Import Regex.

Definition chars (s : string) : list ascii := list_ascii_of_string s.
Definition str (l : list ascii) : string := string_of_list_ascii l.

Definition toLowerCase (s : string) : string := str (map Char.toLower (chars s)).
Definition toUpperCase (s : string) : string := str (map Char.toUpper (chars s)).

Fixpoint dropSpaces (l : list ascii) : list ascii :=
  match l with
  | c :: l' => if Char.isSpace c then dropSpaces l' else l
  | [] => []
  end.

Definition trim (s : string) : string :=
  str (rev (dropSpaces (rev (dropSpaces (chars s))))).

Fixpoint isPrefix (p l : list ascii) : bool :=
  match p, l with
  | [], _ => true
  | a :: p', b :: l' => (Ascii.eqb a b && isPrefix p' l')%bool
  | _ :: _, [] => false
  end.

Fixpoint isInfix (p l : list ascii) : bool :=
  (isPrefix p l || match l with [] => false | _ :: l' => isInfix p l' end)%bool.

Definition startsWith (s p : string) : bool := isPrefix (chars p) (chars s).
Definition includes (s p : string) : bool := isInfix (chars p) (chars s).

(** [s.slice(i)] and [s.slice(i, j)] for indices within the string. *)
Definition sliceFrom (i : nat) (s : string) : string := str (skipn i (chars s)).
Definition slice (i j : nat) (s : string) : string :=
  str (firstn (j - i) (skipn i (chars s))).

Fixpoint join (sep : string) (ws : list string) : string :=
  match ws with
  | [] => EmptyString
  | [w] => w
  | w :: ws' => w ++ sep ++ join sep ws'
  end.

(** [s.split(sep)] where every separator is a maximal run of
    characters satisfying [isSep] (as for [/\s+/]), or a single such
    character (as for [/[._-]/] and ["@"]). *)
Fixpoint splitRuns (isSep : ascii -> bool) (l cur : list ascii) (inRun : bool)
    : list string :=
  match l with
  | [] => [str (rev cur)]
  | c :: l' =>
      if isSep c then
        if inRun then splitRuns isSep l' cur true
        else str (rev cur) :: splitRuns isSep l' [] true
      else splitRuns isSep l' (c :: cur) false
  end.

Fixpoint splitEach (isSep : ascii -> bool) (l cur : list ascii) : list string :=
  match l with
  | [] => [str (rev cur)]
  | c :: l' =>
      if isSep c then str (rev cur) :: splitEach isSep l' []
      else splitEach isSep l' (c :: cur)
  end.

Definition splitWhitespace (s : string) : list string :=
  splitRuns Char.isSpace (chars s) [] false.

Definition splitOn (isSep : ascii -> bool) (s : string) : list string :=
  splitEach isSep (chars s) [].

(** [[...new Set(l)]]: first occurrences, in order. *)
Fixpoint uniq (l : list string) : list string :=
  match l with
  | [] => []
  | x :: l' => x :: List.filter (fun y => negb (String.eqb x y)) (uniq l')
  end.

(** A string is falsy when it is absent or empty. *)
Definition falsy (o : option string) : bool :=
  match o with
  | None => true
  | Some s => String.eqb s EmptyString
  end.

(** [s || undefined]. *)
Definition orUndefined (s : string) : option string :=
  if String.eqb s EmptyString then None else Some s.

(** [text.match(re)] without the [g] flag: the captures of the leftmost
    match; [re.test(text)]; [text.match(re)] with the [g] flag;
    [text.replace(re, by)] with the [g] flag. *)
Definition exec (r : regex) (text : string) : option found :=
  searchFrom r [] (chars text).

Definition group (i : nat) (f : found) : option string :=
  option_map str (getCap i (mCaps f)).

Definition test (r : regex) (text : string) : bool :=
  match exec r text with Some _ => true | None => false end.

Definition matchAll (r : regex) (text : string) : list string :=
  map str (scanAll r (S (String.length text)) [] (chars text)).

Definition replaceAll (r : regex) (by_ : string) (text : string) : string :=
  str (replaceAllFrom r (chars by_) (S (String.length text)) [] (chars text)).

End JS.

(** ** Results of code that may throw *)

Inductive result (A : Type) : Type :=
| Ok : A -> result A
| Throw : string -> result A.
Arguments Ok {A} _.
Arguments Throw {A} _.

(** ** validators.ts *)

Module Validators.

Import Regex JS.

(** [[^\s@]] *)
Definition notSpaceAt (c : ascii) : bool :=
  negb (Char.isSpace c || Char.isChar "@" c).

(** [[^\s@]+@[^\s@]+\.[^\s@]+], the shape every email pattern of the
    parsers is built on. *)
Definition emailShape : regex :=
  seqs [plus (Cls notSpaceAt); chr "@"; plus (Cls notSpaceAt); chr ".";
        plus (Cls notSpaceAt)].

(** [/^[^\s@]+@[^\s@]+\.[^\s@]+$/] *)
Definition emailRegex : regex := seqs [Bol false; emailShape; Eol false].

Definition isValidEmail (email : string) : bool :=
  test emailRegex (toLowerCase (trim email)).

(** [phone.replace(/\D/g, '')] *)
Definition stripNonDigits (phone : string) : string :=
  replaceAll (Cls Char.notDigit) EmptyString phone.

Definition normalizePhone (phone : string) : string :=
  let hasPlus := startsWith (trim phone) "+" in
  let digits := stripNonDigits phone in
  if hasPlus then "+" ++ digits else digits.

(** [normalized.replace(/^\+/, '')] *)
Definition dropLeadingPlus (s : string) : string :=
  match exec (Seq (Bol false) (chr "+")) s with
  | Some f => str (after (mEnd f))
  | None => s
  end.

Definition isValidPhone (phone : string) : bool :=
  let normalized := normalizePhone phone in
  let digitsOnly := dropLeadingPlus normalized in
  (Nat.leb 7 (String.length digitsOnly) && Nat.leb (String.length digitsOnly) 15)%bool.

Definition formatPhone (phone : string) : string :=
  let normalized := normalizePhone phone in
  let digitsOnly := dropLeadingPlus normalized in
  if Nat.eqb (String.length digitsOnly) 10 then
    "(" ++ slice 0 3 digitsOnly ++ ") " ++ slice 3 6 digitsOnly ++ "-"
        ++ sliceFrom 6 digitsOnly
  else if (Nat.eqb (String.length digitsOnly) 11 && startsWith digitsOnly "1")%bool then
    "+1 (" ++ slice 1 4 digitsOnly ++ ") " ++ slice 4 7 digitsOnly ++ "-"
        ++ sliceFrom 7 digitsOnly
  else normalized.

(** [word.charAt(0).toUpperCase() + word.slice(1)], for a word that does
    not begin with U+00B5, U+00DF or U+00FF: the capitals of these three
    letters are not single code units below U+0100. *)
Definition capitalize (word : string) : string :=
  match word with
  | EmptyString => EmptyString
  | String c rest => String (Char.toUpper c) rest
  end.

Definition normalizeName (name : string) : string :=
  join " " (map capitalize (splitWhitespace (toLowerCase (trim name)))).

(** [[a-zA-Z0-9._%+-]], [[a-zA-Z0-9.-]] *)
Definition localChar (c : ascii) : bool :=
  (Char.isAlpha c || Char.isDigit c || Char.isChar "." c || Char.isChar "_" c
   || Char.isChar "%" c || Char.isChar "+" c || Char.isChar "-" c)%bool.
Definition domainChar (c : ascii) : bool :=
  (Char.isAlpha c || Char.isDigit c || Char.isChar "." c || Char.isChar "-" c)%bool.

(** [/[a-zA-Z0-9._%+-]+@[a-zA-Z0-9.-]+\.[a-zA-Z]{2,}/g] *)
Definition extractRegex : regex :=
  seqs [plus (Cls localChar); chr "@"; plus (Cls domainChar); chr ".";
        Cls Char.isAlpha; Cls Char.isAlpha; Star true (Cls Char.isAlpha)].

Definition extractEmails (text : string) : list string :=
  uniq (map toLowerCase (matchAll extractRegex text)).

(** [[-.\s]] *)
Definition phoneSep (c : ascii) : bool :=
  (Char.isChar "-" c || Char.isChar "." c || Char.isSpace c)%bool.

(** [/\+?1?[-.\s]?\(?[0-9]{3}\)?[-.\s]?[0-9]{3}[-.\s]?[0-9]{4}/g] and
    [/\b[0-9]{10,11}\b/g] *)
Definition phonePatterns : list regex :=
  [ seqs [opt (chr "+"); opt (chr "1"); opt (Cls phoneSep); opt (chr "(");
          times 3 (Cls Char.isDigit); opt (chr ")"); opt (Cls phoneSep);
          times 3 (Cls Char.isDigit); opt (Cls phoneSep);
          times 4 (Cls Char.isDigit)];
    seqs [WordB; times 10 (Cls Char.isDigit); opt (Cls Char.isDigit); WordB] ].

Definition extractPhones (text : string) : list string :=
  let phones := flat_map (fun pattern => matchAll pattern text) phonePatterns in
  let normalized := List.filter isValidPhone (map normalizePhone phones) in
  uniq normalized.

End Validators.

(** ** parser/types.ts *)

Inductive LeadSource : Type := zillow | realtor | facebook | generic | unknown.

(** [rawData], the free-form extra fields, is written by the parsers and
    read by nothing downstream; it is left out of the record. *)
Record LeadData : Type := mkLeadData {
  email : string;
  firstName : option string;
  lastName : option string;
  phone : option string;
  source : LeadSource
}.

Definition LeadParser : Type := string -> string -> option LeadData.

(** ** parser/parsers/*.ts and parser/index.ts *)

Module Parser.

Import Regex JS Validators.

Definition newline : ascii := "010"%char.

Definition spaces : regex := Star true (Cls Char.isSpace).      (* [\s*] *)
Definition spaces1 : regex := plus (Cls Char.isSpace).         (* [\s+] *)
Definition letters1 : regex := plus (Cls Char.isAlpha).        (* [[A-Za-z]+] *)

(** [[A-Za-z]+(?:\s+[A-Za-z]+)?]; under the [i] flag this is also
    [[A-Z][a-z]+(?:\s+[A-Z][a-z]+)?] with one more letter in each word. *)
Definition oneOrTwoWords : regex := Seq letters1 (opt (Seq spaces1 letters1)).

(** [[A-Z][a-z]+] under the [i] flag. *)
Definition capWord : regex := Seq (Cls Char.isAlpha) letters1.

(** [[A-Z][a-z]+\s+[A-Z][a-z]+] under the [i] flag. *)
Definition twoCapWords : regex := seqs [capWord; spaces1; capWord].

(** [[A-Z][a-z]+(?:\s+[A-Z][a-z]+)?] under the [i] flag. *)
Definition oneOrTwoCapWords : regex := Seq capWord (opt (Seq spaces1 capWord)).

(** [(?:l1|l2|...):\s*(body)] under the [i] flag. *)
Definition labeled (labels : list regex) (body : regex) : regex :=
  seqs [alts labels; chr ":"; spaces; Grp 1 body].

(** [[\d\s\-().+]] *)
Definition phoneChar (c : ascii) : bool :=
  (Char.isDigit c || Char.isSpace c || Char.isChar "-" c || Char.isChar "(" c
   || Char.isChar ")" c || Char.isChar "." c || Char.isChar "+" c)%bool.

(** The first capture of a match; every pattern below has its group 1 on
    every path. *)
Definition group1 (f : found) : string :=
  match group 1 f with Some g => g | None => EmptyString end.

(** [for (const pattern of patterns) { const match = text.match(pattern);
    if (match) { ...; break; } }] *)
Fixpoint firstMatch (patterns : list regex) (text : string) : option found :=
  match patterns with
  | [] => None
  | pattern :: rest =>
      match exec pattern text with
      | Some f => Some f
      | None => firstMatch rest text
      end
  end.

(** The email loop: the first pattern that matches with a valid capture. *)
Fixpoint labeledEmail (patterns : list regex) (text : string) : option string :=
  match patterns with
  | [] => None
  | pattern :: rest =>
      match exec pattern text with
      | Some f =>
          if isValidEmail (group1 f) then Some (toLowerCase (group1 f))
          else labeledEmail rest text
      | None => labeledEmail rest text
      end
  end.

(** [fullName = normalizeName(match[1]); nameParts = fullName.split(/\s+/);
    firstName = nameParts[0]; lastName = nameParts.slice(1).join(" ") || undefined] *)
Definition nameOfMatch (f : found) : option string * option string :=
  let fullName := normalizeName (group1 f) in
  let nameParts := splitWhitespace fullName in
  (List.hd_error nameParts, orUndefined (join " " (List.tl nameParts))).

Definition labeledName (patterns : list regex) (text : string)
    : option string * option string :=
  match firstMatch patterns text with
  | Some f => nameOfMatch f
  | None => (None, None)
  end.

(** The phone loop and its fallback:
    [phone = match[1].trim()], then [if (!phone) phone = extractPhones(text)[0]]. *)
Definition phoneOf (patterns : list regex) (text : string) : option string :=
  let phone := option_map (fun f => trim (group1 f)) (firstMatch patterns text) in
  if falsy phone then List.hd_error (extractPhones text) else phone.

(** The email fallback: [if (!email) email = emails.filter(keep)[0]]. *)
Definition emailOf (patterns : list regex) (keep : string -> bool) (text : string)
    : option string :=
  let email := labeledEmail patterns text in
  if falsy email then List.hd_error (List.filter keep (extractEmails text))
  else email.

(** *** zillow.ts *)

Definition zillowSignature (text subject : string) : bool :=
  (includes (toLowerCase subject) "zillow"
   || includes (toLowerCase text) "zillow.com"
   || includes (toLowerCase text) "from zillow")%bool.

Definition zillowNamePatterns : list regex :=
  [ labeled [litI "Name"; litI "Contact"; litI "Buyer"; litI "Seller"] oneOrTwoWords;
    seqs [Alt (Bol false) (chr newline); Grp 1 twoCapWords;
          Alt (Seq spaces1 (litI "is interested"))
              (Seq spaces1 (litI "has requested"))] ].

Definition zillowEmailPatterns : list regex :=
  [ labeled [litI "Email"; litI "E-mail"; litI "Contact Email"] emailShape ].

Definition zillowKeep (e : string) : bool :=
  (negb (includes e "zillow") && negb (includes e "zillowgroup"))%bool.

Definition zillowPhonePatterns : list regex :=
  [ labeled [litI "Phone"; litI "Mobile"; litI "Cell"; litI "Tel"]
            (plus (Cls phoneChar)) ].

Definition parseZillowLead : LeadParser := fun text subject =>
  if negb (zillowSignature text subject) then None else
  let '(firstName, lastName) := labeledName zillowNamePatterns text in
  match emailOf zillowEmailPatterns zillowKeep text with
  | None => None
  | Some email =>
      if String.eqb email EmptyString then None else
      let phone := phoneOf zillowPhonePatterns text in
      Some (mkLeadData email firstName lastName phone zillow)
  end.

(** *** realtor.ts *)

Definition realtorSignature (text subject : string) : bool :=
  (includes (toLowerCase subject) "realtor.com"
   || includes (toLowerCase subject) "realtor lead"
   || includes (toLowerCase text) "realtor.com"
   || includes (toLowerCase text) "move.com")%bool.

Definition realtorNamePatterns : list regex :=
  [ labeled [litI "Lead Name"; litI "Name"; litI "Contact"] oneOrTwoWords;
    seqs [Grp 1 twoCapWords; spaces1;
          Alt (litI "is interested in") (litI "wants more info")];
    seqs [litI "from"; spaces1; Grp 1 twoCapWords] ].

Definition realtorEmailPatterns : list regex :=
  [ labeled [litI "Email"; litI "E-mail"] emailShape;
    labeled [litI "Contact"; litI "Reply to"] emailShape ].

Definition realtorKeep (e : string) : bool :=
  (negb (includes e "realtor.com") && negb (includes e "move.com")
   && negb (includes e "noreply"))%bool.

Definition realtorPhonePatterns : list regex :=
  [ labeled [litI "Phone"; litI "Mobile"; litI "Cell";
             Seq (litI "Tel") (opt (litI "ephone"))]
            (plus (Cls phoneChar)) ].

Definition parseRealtorLead : LeadParser := fun text subject =>
  if negb (realtorSignature text subject) then None else
  let '(firstName, lastName) := labeledName realtorNamePatterns text in
  match emailOf realtorEmailPatterns realtorKeep text with
  | None => None
  | Some email =>
      if String.eqb email EmptyString then None else
      let phone := phoneOf realtorPhonePatterns text in
      Some (mkLeadData email firstName lastName phone realtor)
  end.

(** *** facebook.ts *)

Definition facebookSignature (text subject : string) : bool :=
  (includes (toLowerCase subject) "facebook"
   || includes (toLowerCase subject) "new lead from"
   || includes (toLowerCase text) "facebook.com"
   || includes (toLowerCase text) "fb.com"
   || includes (toLowerCase text) "lead ad")%bool.

Definition facebookNamePatterns : list regex :=
  [ labeled [litI "full_name"; litI "name";
             seqs [litI "first_name"; spaces; opt (Alt (chr "&") (litI "and"));
                   spaces; litI "last_name"]]
            oneOrTwoWords;
    labeled [litI "first_name"] letters1 ].

Definition facebookLastNamePattern : regex := labeled [litI "last_name"] letters1.

Definition facebookEmailPatterns : list regex :=
  [ labeled [litI "email"; litI "e-mail"; litI "email_address"] emailShape ].

Definition facebookKeep (e : string) : bool :=
  (negb (includes e "facebook") && negb (includes e "fb.com")
   && negb (includes e "facebookmail"))%bool.

Definition facebookPhonePatterns : list regex :=
  [ labeled [litI "phone"; litI "phone_number"; litI "mobile"; litI "cell"]
            (plus (Cls phoneChar)) ].

Definition parseFacebookLead : LeadParser := fun text subject =>
  if negb (facebookSignature text subject) then None else
  let '(firstName, lastName0) := labeledName facebookNamePatterns text in
  let lastName :=
    if falsy lastName0 then
      match exec facebookLastNamePattern text with
      | Some f => Some (normalizeName (group1 f))
      | None => lastName0
      end
    else lastName0 in
  match emailOf facebookEmailPatterns facebookKeep text with
  | None => None
  | Some email =>
      if String.eqb email EmptyString then None else
      let phone := phoneOf facebookPhonePatterns text in
      Some (mkLeadData email firstName lastName phone facebook)
  end.

(** *** generic.ts *)

Definition genericKeep (e : string) : bool :=
  (negb (includes e "noreply") && negb (includes e "no-reply")
   && negb (includes e "donotreply") && negb (includes e "mailer-daemon")
   && negb (includes e "postmaster"))%bool.

Definition labeledNamePatterns : list regex :=
  [ labeled [litI "Name"; litI "Full Name"; litI "Contact"; litI "From";
             litI "Sender"] oneOrTwoWords;
    labeled [litI "First Name"; litI "FirstName"] letters1 ].

(** [[._-]] *)
Definition namePartSep (c : ascii) : bool :=
  (Char.isChar "." c || Char.isChar "_" c || Char.isChar "-" c)%bool.

(** [p.length > 1 && /^[a-zA-Z]+$/.test(p)] *)
Definition isNamePart (p : string) : bool :=
  (Nat.ltb 1 (String.length p)
   && test (seqs [Bol false; letters1; Eol false]) p)%bool.

Definition apostrophe : ascii := "039"%char.

Definition greetingPatterns : list regex :=
  [ seqs [alts [litI "Hi"; litI "Hello"; litI "Hey"]; opt (chr ","); spaces1;
          alts [seqs [chrI "I"; chr apostrophe; chrI "m"]; litI "I am";
                litI "this is"];
          spaces1; Grp 1 oneOrTwoCapWords];
    seqs [alts [litI "My name is"; seqs [chrI "I"; chr apostrophe; chrI "m"];
                litI "I am"];
          spaces1; Grp 1 oneOrTwoCapWords] ].

Definition parseGenericLead : LeadParser := fun text subject =>
  let emails := extractEmails text in
  let leadEmails := List.filter genericKeep emails in
  match leadEmails with
  | [] => None
  | email :: _ =>
      (* Pattern 1: labeled fields *)
      let '(firstName1, lastName1) := labeledName labeledNamePatterns text in
      (* Pattern 2: the part of the email before the at sign *)
      let '(firstName2, lastName2) :=
        if falsy firstName1 then
          let emailName :=
            match splitOn (Char.isChar "@") email with
            | n :: _ => n
            | [] => EmptyString
            end in
          let nameParts := List.filter isNamePart (splitOn namePartSep emailName) in
          match nameParts with
          | [] => (firstName1, lastName1)
          | [p0] => (Some (normalizeName p0), lastName1)
          | p0 :: p1 :: _ => (Some (normalizeName p0), Some (normalizeName p1))
          end
        else (firstName1, lastName1) in
      (* Pattern 3: greetings *)
      let '(firstName3, lastName3) :=
        if falsy firstName2 then
          match firstMatch greetingPatterns text with
          | Some f => nameOfMatch f
          | None => (firstName2, lastName2)
          end
        else (firstName2, lastName2) in
      let phone := List.hd_error (extractPhones text) in
      Some (mkLeadData email firstName3 lastName3 phone generic)
  end.

(** *** index.ts *)

Definition parsers : list LeadParser :=
  [ parseZillowLead; parseRealtorLead; parseFacebookLead; parseGenericLead ].

Definition noLeadError : string :=
  "Could not parse lead data from email. No valid email address found.".

Fixpoint tryParsers (ps : list LeadParser) (text subject : string)
    : result LeadData :=
  match ps with
  | [] => Throw noLeadError
  | parser :: rest =>
      match parser text subject with
      | Some lead =>
          if isValidEmail (email lead) then Ok lead
          else tryParsers rest text subject
      | None => tryParsers rest text subject
      end
  end.

Definition parseLeadFromText (text subject : string) : result LeadData :=
  tryParsers parsers text subject.

Definition tryParseLeadFromText (text subject : string) : option LeadData :=
  match parseLeadFromText text subject with
  | Ok lead => Some lead
  | Throw _ => None
  end.

End Parser.

(** ** gmail/base64url.ts *)

Module Base64.

Import Regex JS.

(** A [Buffer] is its list of bytes. *)
Definition Buffer : Type := list byte.

Definition alphabet : list ascii :=
  chars "ABCDEFGHIJKLMNOPQRSTUVWXYZabcdefghijklmnopqrstuvwxyz0123456789+/".

Definition padding : ascii := "="%char.

Definition sextetChar (n : N) : ascii := nth (N.to_nat n) alphabet padding.

Fixpoint indexOf (c : ascii) (l : list ascii) (i : N) : option N :=
  match l with
  | [] => None
  | x :: l' => if Ascii.eqb x c then Some i else indexOf c l' (N.succ i)
  end.

(** The decoder of the platform reads both the standard and the URL-safe
    alphabet. *)
Definition charSextet (c : ascii) : option N :=
  if Ascii.eqb c "-" then Some 62%N
  else if Ascii.eqb c "_" then Some 63%N
  else indexOf c alphabet 0%N.

Definition byteOfN (n : N) : byte :=
  match Byte.of_N n with Some b => b | None => Byte.x00 end.

(** [buf.toString("base64")]: RFC 4648 with padding. *)
Fixpoint toStringBase64 (buf : Buffer) : list ascii :=
  match buf with
  | [] => []
  | [b0] =>
      let n := Byte.to_N b0 in
      [sextetChar (n / 4); sextetChar ((n mod 4) * 16); padding; padding]
  | [b0; b1] =>
      let n := (Byte.to_N b0 * 256 + Byte.to_N b1)%N in
      [sextetChar (n / 1024); sextetChar ((n / 16) mod 64);
       sextetChar ((n mod 16) * 4); padding]
  | b0 :: b1 :: b2 :: rest =>
      let n := ((Byte.to_N b0 * 256 + Byte.to_N b1) * 256 + Byte.to_N b2)%N in
      sextetChar (n / 262144) :: sextetChar ((n / 4096) mod 64)
        :: sextetChar ((n / 64) mod 64) :: sextetChar (n mod 64)
        :: toStringBase64 rest
  end.

(** [Buffer.from(s, "base64")]: the characters before the first padding
    character are read, those outside the alphabet are skipped, and the
    bits that do not fill a byte are dropped. *)
Fixpoint sextetsOf (l : list ascii) : list N :=
  match l with
  | [] => []
  | c :: l' =>
      if Ascii.eqb c padding then []
      else match charSextet c with
           | Some n => n :: sextetsOf l'
           | None => sextetsOf l'
           end
  end.

Fixpoint bytesOfSextets (s : list N) : Buffer :=
  match s with
  | s0 :: s1 :: s2 :: s3 :: rest =>
      let n := (((s0 * 64 + s1) * 64 + s2) * 64 + s3)%N in
      byteOfN (n / 65536) :: byteOfN ((n / 256) mod 256) :: byteOfN (n mod 256)
        :: bytesOfSextets rest
  | [s0; s1; s2] =>
      let n := ((s0 * 64 + s1) * 64 + s2)%N in
      [byteOfN (n / 1024); byteOfN ((n / 4) mod 256)]
  | [s0; s1] => [byteOfN ((s0 * 64 + s1) / 16)]
  | _ => []
  end.

Definition fromBase64 (s : string) : Buffer := bytesOfSextets (sextetsOf (chars s)).

(** ["=".repeat(n)] *)
Definition repeatPadding (n : nat) : string := str (repeat padding n).

Definition base64UrlToBuffer (b64url : string) : Buffer :=
  let b64 := replaceAll (chr "_") "/" (replaceAll (chr "-") "+" b64url) in
  let padded := b64 +:+ repeatPadding ((4 - (String.length b64 mod 4)) mod 4) in
  fromBase64 padded.

(** [/=+$/g] *)
Definition trailingPadding : regex := Seq (plus (chr "=")) (Eol false).

Definition bufferToBase64Url (buf : Buffer) : string :=
  replaceAll trailingPadding EmptyString
    (replaceAll (chr "/") "_"
       (replaceAll (chr "+") "-" (str (toStringBase64 buf)))).

(** The bytes of a code unit below U+0100 in UTF-8: one byte below
    U+0080, two bytes from there on. *)
Definition utf8Char (c : ascii) : Buffer :=
  let n := Char.code c in
  if N.ltb n 128 then [byteOfN n]
  else [byteOfN (192 + n / 64); byteOfN (128 + n mod 64)].

(** [Buffer.from(s, "utf-8")] *)
Definition utf8Encode (s : string) : Buffer := flat_map utf8Char (chars s).

(** [buf.toString("utf-8")], as far as the result is a string of code
    units below U+0100; [None] stands for every other result (a
    character from U+0100 on, or the replacement character of an
    ill-formed sequence). *)
Fixpoint utf8Decode (buf : Buffer) : option (list ascii) :=
  match buf with
  | [] => Some []
  | b :: rest =>
      let n := Byte.to_N b in
      if N.ltb n 128 then option_map (cons (ascii_of_N n)) (utf8Decode rest)
      else
        match rest with
        | b2 :: rest' =>
            let m := Byte.to_N b2 in
            if (N.leb 194 n && N.leb n 195 && N.leb 128 m && N.ltb m 192)%bool
            then option_map (cons (ascii_of_N ((n - 192) * 64 + (m - 128))))
                            (utf8Decode rest')
            else None
        | [] => None
        end
  end.

Definition base64UrlToString (b64url : string) : option string :=
  option_map str (utf8Decode (base64UrlToBuffer b64url)).

Definition stringToBase64Url (s : string) : string :=
  bufferToBase64Url (utf8Encode s).

End Base64.

(** ** The tables of the database *)

Inductive Status : Type := PROCESSING | SUCCESS | FAILED.

(** [ProcessedMessage], keyed by [messageId]. *)
Record ProcessedMessage : Type := mkProcessed {
  attempts : Z;
  lastAttemptAt : Z;
  status : Status;
  errorLog : option string
}.

(** [Lead], keyed by [email]. *)
Record Lead : Type := mkLead {
  leadId : string;
  leadEmail : string;
  leadFirstName : option string;
  leadLastName : option string;
  leadPhone : option string;
  leadSource : LeadSource;
  sourceMessage : string;
  assignedAgentId : string;
  assignedAt : Z;
  replySentAt : option Z
}.

(** [Agent], a table whose rows have distinct [agentId]s. *)
Record Agent : Type := mkAgent {
  agentId : string;
  agentName : string;
  agentEmail : string;
  isActive : bool;
  bookingUrl : option string;
  assignedCount : Z;
  lastAssignedAt : option Z
}.

(** [SystemLock], keyed by [name]. *)
Record SystemLock : Type := mkLock {
  lockedBy : option string;
  expiresAt : Z
}.

(** ** worker/assign.ts *)

Module Assign.

(** The order of [orderBy: { lastAssignedAt: "asc" }]: a row that was
    never assigned comes before every assigned one. *)
Definition assignedBefore (a b : Agent) : bool :=
  match lastAssignedAt a, lastAssignedAt b with
  | None, Some _ => true
  | Some x, Some y => Z.ltb x y
  | _, None => false
  end.

(** The head of the ordered rows; among equal keys the earliest row of
    the table. *)
Fixpoint oldest (rows : list Agent) : option Agent :=
  match rows with
  | [] => None
  | a :: rest =>
      match oldest rest with
      | Some b => if assignedBefore b a then Some b else Some a
      | None => Some a
      end
  end.

(** [findFirst({ where: { isActive: true }, orderBy: { lastAssignedAt: "asc" } })] *)
Definition findFirstActive (agents : list Agent) : option Agent :=
  oldest (List.filter isActive agents).

(** [update({ where: { id }, data: { lastAssignedAt: now, assignedCount: { increment: 1 } } })] *)
Definition touch (now : Z) (a : Agent) : Agent :=
  mkAgent (agentId a) (agentName a) (agentEmail a) (isActive a) (bookingUrl a)
          (assignedCount a + 1) (Some now).

Definition updateAssigned (id : string) (now : Z) (agents : list Agent)
    : list Agent :=
  map (fun a => if String.eqb (agentId a) id then touch now a else a) agents.

Definition noAgentsError : string :=
  "No active agents available for assignment. Please add agents to the database.".

(** [now] is the value of [new Date()] in the update. *)
Definition pickAgentRoundRobin (now : Z) (agents : list Agent)
    : result Agent * list Agent :=
  match findFirstActive agents with
  | None => (Throw noAgentsError, agents)
  | Some agent => (Ok agent, updateAssigned (agentId agent) now agents)
  end.

(** Consecutive calls, one per clock reading, each on the table left by
    the call before. *)
Fixpoint pickMany (nows : list Z) (agents : list Agent)
    : list (result Agent) * list Agent :=
  match nows with
  | [] => ([], agents)
  | now :: rest =>
      let '(r, agents1) := pickAgentRoundRobin now agents in
      let '(rs, agents2) := pickMany rest agents1 in
      (r :: rs, agents2)
  end.

(** [findUnique({ where: { id } })] *)
Definition getAgentById (id : string) (agents : list Agent) : option Agent :=
  List.find (fun a => String.eqb (agentId a) id) agents.

End Assign.

(** ** worker/lock.ts *)

Module Lock.

Definition LOCK_TTL_MS : Z := 5 * 60 * 1000.

(** The store raises no error in this model, so the [catch] branch of
    the source, which answers [false], is never taken. *)
Definition acquireLock (now : Z) (lockName workerId : string)
    (locks : gmap string SystemLock) : bool * gmap string SystemLock :=
  let expiresAt' := (now + LOCK_TTL_MS)%Z in
  let existingLock := locks !! lockName in
  match existingLock with
  | Some l =>
      if Z.ltb now (expiresAt l) then (false, locks)
      else (true, <[lockName := mkLock (Some workerId) expiresAt']> locks)
  | None => (true, <[lockName := mkLock (Some workerId) expiresAt']> locks)
  end.

Definition releaseLock (lockName : string) (locks : gmap string SystemLock)
    : gmap string SystemLock :=
  match locks !! lockName with
  | Some _ => <[lockName := mkLock None 0]> locks
  | None => locks
  end.

Definition isLocked (now : Z) (lockName : string)
    (locks : gmap string SystemLock) : bool :=
  match locks !! lockName with
  | Some l => Z.ltb now (expiresAt l)
  | None => false
  end.

Definition extendLock (now : Z) (lockName workerId : string)
    (locks : gmap string SystemLock) : bool * gmap string SystemLock :=
  match locks !! lockName with
  | Some l =>
      match lockedBy l with
      | Some h =>
          if String.eqb h workerId
          then (true, <[lockName := mkLock (lockedBy l) (now + LOCK_TTL_MS)]> locks)
          else (false, locks)
      | None => (false, locks)
      end
  | None => (false, locks)
  end.

(** *** The calls of [acquireLock] as separate steps

    [acquireLock] awaits the store twice: once to read the lock row and
    once to write it.  Another caller may run between the two. *)
Inductive Caller : Type :=
| Started (now : Z) (lockName workerId : string)
| HasRead (now : Z) (lockName workerId : string) (existingLock : option SystemLock)
| Returned (acquired : bool).

Definition step (c : Caller) (locks : gmap string SystemLock)
    : Caller * gmap string SystemLock :=
  match c with
  | Started now lockName workerId =>
      (HasRead now lockName workerId (locks !! lockName), locks)
  | HasRead now lockName workerId existingLock =>
      let held :=
        match existingLock with
        | Some l => Z.ltb now (expiresAt l)
        | None => false
        end in
      if held then (Returned false, locks)
      else (Returned true,
            <[lockName := mkLock (Some workerId) (now + LOCK_TTL_MS)]> locks)
  | Returned r => (Returned r, locks)
  end.

(** A schedule names, step by step, which of two callers runs. *)
Fixpoint interleave (schedule : list bool) (a b : Caller)
    (locks : gmap string SystemLock) : Caller * Caller * gmap string SystemLock :=
  match schedule with
  | [] => (a, b, locks)
  | true :: rest => let '(a', locks') := step a locks in interleave rest a' b locks'
  | false :: rest => let '(b', locks') := step b locks in interleave rest a b' locks'
  end.

End Lock.

(** ** worker/poller.ts *)

Module Poller.

Record UnreadMessage : Type := mkUnread { unreadId : string; threadId : string }.

(** [status: "SUCCESS"] *)
Definition isSuccess (p : ProcessedMessage) : bool :=
  match status p with SUCCESS => true | _ => false end.

(** [messages] is the answer of [gmail.users.messages.list], in its
    order; [table] is the [ProcessedMessage] table. *)
Definition pollUnreadMessages (messages : list UnreadMessage)
    (table : gmap string ProcessedMessage) : list UnreadMessage :=
  match messages with
  | [] => []
  | _ :: _ =>
      let messageIds := map unreadId messages in
      let processed :=
        List.filter (fun row => existsb (String.eqb (fst row)) messageIds
                                && isSuccess (snd row))%bool
                    (map_to_list table) in
      let processedIds : gset string := list_to_set (map fst processed) in
      List.filter (fun m => negb (bool_decide (unreadId m ∈ processedIds))) messages
  end.

End Poller.

(** ** gmail/extract.ts and worker/processor.ts *)

Module Processor.

Import Regex JS Validators Parser Base64 Assign.

(** What [mailparser] makes of a raw message. *)
Record ParsedMail : Type := mkParsed {
  mailText : option string;
  mailHtml : option string;
  mailSubject : option string
}.

(** The world outside of the program.  Every reading of the clock and
    every call that leaves the process takes the next number; the
    environment answers by number.  The raw content of a message is the
    same whenever it is fetched.  An error is thrown with its message;
    the stack trace the runtime has attached to it, and what [String]
    makes of it, are given by the environment for the number at which
    the error is caught. *)
Record Env : Type := mkEnv {
  clock : nat -> Z;                   (* the value of [new Date()] *)
  failure : nat -> option string;     (* the error an outside call throws *)
  gmailRaw : string -> option string; (* [res.data.raw] of a message *)
  simpleParser : Buffer -> ParsedMail;
  cuid : nat -> string;               (* the id given to a new row *)
  stack : nat -> string -> option string; (* [error.stack] of a caught error *)
  errorString : nat -> string -> string   (* [String(error)] of a caught error *)
}.

(** The effects of the processor, in the order in which they happen. *)
Inductive Event : Type :=
| EvProcessing (messageId : string) (row : ProcessedMessage)
| EvFetch (messageId : string)
| EvAssign (agentId : string)
| EvUpsertLead (email : string)
| EvSend (to agentName bookingUrl : string)
| EvReplyMarked (leadId : string)
| EvSuccess (messageId : string)
| EvMarkRead (messageId : string)
| EvFailed (messageId : string) (error : string)
| EvAlert (messageId : string) (error : string) (attempts : Z).

Record World : Type := mkWorld {
  tick : nat;
  processedMessage : gmap string ProcessedMessage;
  lead : gmap string Lead;
  agent : list Agent;
  trace : list Event
}.

Record ProcessResult : Type := mkResult {
  resMessageId : string;
  success : bool;
  resLeadId : option string;
  resAgentName : option string;
  error : option string
}.

(** Computations that read and write the world and may throw. *)
Definition M (A : Type) : Type := World -> result A * World.

Definition ret {A} (a : A) : M A := fun w => (Ok a, w).
Definition throw {A} (e : string) : M A := fun w => (Throw e, w).
Definition bind {A B} (m : M A) (k : A -> M B) : M B :=
  fun w => match m w with
           | (Ok a, w') => k a w'
           | (Throw e, w') => (Throw e, w')
           end.

Notation "x <- m ;; k" := (bind m (fun x => k))
  (at level 100, m at next level, right associativity).
Notation "m ;;; k" := (bind m (fun _ => k))
  (at level 100, right associativity).

(** [m.catch(...)] with a handler that only logs. *)
Definition swallow {A} (m : M A) : M unit :=
  fun w => match m w with (_, w') => (Ok tt, w') end.

Definition getWorld : M World := fun w => (Ok w, w).
Definition logEvent (e : Event) : M unit :=
  fun w => (Ok tt, mkWorld (tick w) (processedMessage w) (lead w) (agent w)
                           (trace w ++ [e])).
Definition setProcessed (f : gmap string ProcessedMessage -> gmap string ProcessedMessage)
    : M unit :=
  fun w => (Ok tt, mkWorld (tick w) (f (processedMessage w)) (lead w) (agent w)
                           (trace w)).
Definition setLead (f : gmap string Lead -> gmap string Lead) : M unit :=
  fun w => (Ok tt, mkWorld (tick w) (processedMessage w) (f (lead w)) (agent w)
                           (trace w)).
Definition setAgent (agents : list Agent) : M unit :=
  fun w => (Ok tt, mkWorld (tick w) (processedMessage w) (lead w) agents (trace w)).
Definition nextTick : M nat :=
  fun w => (Ok (tick w), mkWorld (S (tick w)) (processedMessage w) (lead w)
                                 (agent w) (trace w)).

(** [status: "FAILED"] *)
Definition isFailed (p : ProcessedMessage) : bool :=
  match status p with FAILED => true | _ => false end.

(** [orderBy: { lastAttemptAt: "asc" }]; rows with the same time keep
    the order in which the table lists them. *)
Fixpoint insertByAttempt (x : string * ProcessedMessage)
    (l : list (string * ProcessedMessage)) : list (string * ProcessedMessage) :=
  match l with
  | [] => [x]
  | y :: l' =>
      if Z.leb (lastAttemptAt (snd x)) (lastAttemptAt (snd y)) then x :: l
      else y :: insertByAttempt x l'
  end.

Definition sortByAttempt (l : list (string * ProcessedMessage))
    : list (string * ProcessedMessage) :=
  fold_right insertByAttempt [] l.

(** [findMany({ where: { status: "FAILED", attempts: { lt: maxAttempts } },
    orderBy: { lastAttemptAt: "asc" }, take: 10 })] *)
Definition failedMessages (maxAttempts : Z) (table : gmap string ProcessedMessage)
    : list (string * ProcessedMessage) :=
  firstn 10
    (sortByAttempt
       (List.filter (fun row => isFailed (snd row)
                                && Z.ltb (attempts (snd row)) maxAttempts)%bool
                    (map_to_list table))).

Section WithEnv.
Variable env : Env.

(** [new Date()] *)
Definition newDate : M Z := t <- nextTick ;; ret (clock env t).

(** A call that leaves the process: it happens, and it may throw. *)
Definition outside (e : Event) : M unit :=
  logEvent e ;;;
  t <- nextTick ;;
  match failure env t with
  | Some err => throw err
  | None => ret tt
  end.

Definition newId : M string := t <- nextTick ;; ret (cuid env t).

Definition doubleQuote : string := String "034"%char EmptyString.

(** [[^>]] and [[\s\S]] *)
Definition notGt (c : ascii) : bool := negb (Char.isChar ">" c).
Definition anyChar (c : ascii) : bool := true.

Definition stripHtmlTags (html : string) : string :=
  let block (tag : string) :=
    seqs [litI ("<" +:+ tag); Star true (Cls notGt); chr ">";
          Star false (Cls anyChar); litI ("</" +:+ tag +:+ ">")] in
  let s1 := replaceAll (block "style") EmptyString html in
  let s2 := replaceAll (block "script") EmptyString s1 in
  let s3 := replaceAll (seqs [chr "<"; plus (Cls notGt); chr ">"]) " " s2 in
  let s4 := replaceAll (lit "&nbsp;") " " s3 in
  let s5 := replaceAll (lit "&amp;") "&" s4 in
  let s6 := replaceAll (lit "&lt;") "<" s5 in
  let s7 := replaceAll (lit "&gt;") ">" s6 in
  let s8 := replaceAll (lit "&quot;") doubleQuote s7 in
  let s9 := replaceAll (plus (Cls Char.isSpace)) " " s8 in
  trim s9.

Definition orEmpty (o : option string) : string :=
  match o with Some s => s | None => EmptyString end.

(** Only the [lead] of the extracted email is used by the processor. *)
Definition extractLeadData (messageId : string) : M LeadData :=
  outside (EvFetch messageId) ;;;
  if falsy (gmailRaw env messageId)
  then throw ("No raw payload returned by Gmail for message " +:+ messageId)
  else
    let rawBuf := base64UrlToBuffer (orEmpty (gmailRaw env messageId)) in
    let parsed := simpleParser env rawBuf in
    let textBody := orEmpty (mailText parsed) in
    let htmlBody := orEmpty (mailHtml parsed) in
    if (String.eqb textBody EmptyString && String.eqb htmlBody EmptyString)%bool
    then throw ("Email " +:+ messageId +:+ " parsed but has no body text or HTML")
    else
      let contentToParse :=
        if String.eqb textBody EmptyString then stripHtmlTags htmlBody
        else textBody in
      match parseLeadFromText contentToParse (orEmpty (mailSubject parsed)) with
      | Ok l => ret l
      | Throw e => throw e
      end.

(** [pickAgentRoundRobin()] on the agent table of the world. *)
Definition pickAgent : M Agent :=
  w <- getWorld ;;
  match findFirstActive (agent w) with
  | None => throw noAgentsError
  | Some a =>
      now <- newDate ;;
      setAgent (updateAssigned (agentId a) now (agent w)) ;;;
      logEvent (EvAssign (agentId a)) ;;;
      ret a
  end.

(** [lead.x ?? existingLead?.x] *)
Definition coalesce (incoming existing : option string) : option string :=
  match incoming with
  | Some v => Some v
  | None => existing
  end.

(** Step 4: [findUnique] followed by [upsert], keyed by the email. *)
Definition upsertLead (l : LeadData) (messageId : string) (a : Agent) : M Lead :=
  w <- getWorld ;;
  let existingLead := lead w !! email l in
  nowUpdate <- newDate ;;
  nowCreate <- newDate ;;
  match existingLead with
  | Some old =>
      let row :=
        mkLead (leadId old) (leadEmail old)
               (coalesce (firstName l) (leadFirstName old))
               (coalesce (lastName l) (leadLastName old))
               (coalesce (phone l) (leadPhone old))
               (source l) messageId (agentId a) nowUpdate (replySentAt old) in
      setLead (fun t => <[email l := row]> t) ;;;
      logEvent (EvUpsertLead (email l)) ;;;
      ret row
  | None =>
      id <- newId ;;
      let row :=
        mkLead id (email l) (firstName l) (lastName l) (phone l)
               (source l) messageId (agentId a) nowCreate None in
      setLead (fun t => <[email l := row]> t) ;;;
      logEvent (EvUpsertLead (email l)) ;;;
      ret row
  end.

(** [prisma.lead.update({ where: { id }, data: { replySentAt: now } })] *)
Definition markReplySent (id : string) (now : Z) (t : gmap string Lead)
    : gmap string Lead :=
  (fun r => if String.eqb (leadId r) id
            then mkLead (leadId r) (leadEmail r) (leadFirstName r)
                        (leadLastName r) (leadPhone r) (leadSource r)
                        (sourceMessage r) (assignedAgentId r) (assignedAt r)
                        (Some now)
            else r) <$> t.

Definition defaultBookingUrl : string := "https://calendly.com/your-company".

(** [agent.bookingUrl || "https://calendly.com/your-company"] *)
Definition bookingUrlOf (a : Agent) : string :=
  match bookingUrl a with
  | Some u => if String.eqb u EmptyString then defaultBookingUrl else u
  | None => defaultBookingUrl
  end.

(** Step 5: the reply, sent only when [replySentAt] is not set. *)
Definition replyOnce (upsertedLead : Lead) (a : Agent) : M unit :=
  match replySentAt upsertedLead with
  | None =>
      outside (EvSend (leadEmail upsertedLead) (agentName a) (bookingUrlOf a)) ;;;
      now <- newDate ;;
      setLead (markReplySent (leadId upsertedLead) now) ;;;
      logEvent (EvReplyMarked (leadId upsertedLead))
  | Some _ => ret tt
  end.

Definition setStatus (messageId : string) (s : Status) (e : option string)
    : M unit :=
  setProcessed (fun t =>
    match t !! messageId with
    | Some p => <[messageId := mkProcessed (attempts p) (lastAttemptAt p) s e]> t
    | None => t
    end).

(** Step 1, before the [try]: [findUnique], then [upsert] with its two
    [new Date()]. *)
Definition markProcessing (messageId : string) (w : World) : Z * World :=
  let existingEntry := processedMessage w !! messageId in
  let attempts' :=
    (match existingEntry with Some p => attempts p | None => 0 end + 1)%Z in
  let nowUpdate := clock env (tick w) in
  let nowCreate := clock env (S (tick w)) in
  let row :=
    match existingEntry with
    | Some _ => mkProcessed attempts' nowUpdate PROCESSING None
    | None => mkProcessed 1 nowCreate PROCESSING None
    end in
  (attempts',
   mkWorld (S (S (tick w))) (<[messageId := row]> (processedMessage w))
           (lead w) (agent w)
           (trace w ++ [EvProcessing messageId row])).

(** Steps 2 to 7, the body of the [try]. *)
Definition tryBody (messageId : string) : M (Lead * Agent) :=
  l <- extractLeadData messageId ;;
  a <- pickAgent ;;
  upsertedLead <- upsertLead l messageId a ;;
  replyOnce upsertedLead a ;;;
  setStatus messageId SUCCESS None ;;;
  logEvent (EvSuccess messageId) ;;;
  outside (EvMarkRead messageId) ;;;
  ret (upsertedLead, a).

(** The [catch]: the failure is recorded, the alert is attempted (its
    webhooks count as one outside call) and its own failure is
    swallowed. *)
Definition onFailure (messageId : string) (errorMessage : string)
    (attempts' : Z) : M unit :=
  setStatus messageId FAILED (Some errorMessage) ;;;
  logEvent (EvFailed messageId errorMessage) ;;;
  swallow (outside (EvAlert messageId errorMessage attempts')).

(** [error?.stack || error?.message || String(error)], for the error
    thrown with the message [error] and caught at number [t]. *)
Definition errorMessageOf (t : nat) (error : string) : string :=
  if falsy (stack env t error) then
    if String.eqb error EmptyString then errorString env t error else error
  else orEmpty (stack env t error).

Definition processMessage (messageId : string) (w : World)
    : ProcessResult * World :=
  match markProcessing messageId w with
  | (attempts', w1) =>
      match tryBody messageId w1 with
      | (Ok (upsertedLead, a), w2) =>
          (mkResult messageId true (Some (leadId upsertedLead))
                    (Some (agentName a)) None, w2)
      | (Throw error, w2) =>
          let errorMessage := errorMessageOf (tick w2) error in
          match onFailure messageId errorMessage attempts' w2 with
          | (_, w3) =>
              (mkResult messageId false None None (Some errorMessage), w3)
          end
      end
  end.

(** Runs of the processor, one after the other. *)
Fixpoint processAll (ids : list string) (w : World)
    : list ProcessResult * World :=
  match ids with
  | [] => ([], w)
  | id :: rest =>
      let '(r, w1) := processMessage id w in
      let '(rs, w2) := processAll rest w1 in
      (r :: rs, w2)
  end.

(** The failed messages are run again, oldest attempt first. *)
Definition retryFailedMessages (maxAttempts : Z) (w : World)
    : list ProcessResult * World :=
  processAll (map fst (failedMessages maxAttempts (processedMessage w))) w.

End WithEnv.

(** The replies sent during a stretch of the trace. *)
Definition isSend (e : Event) : bool :=
  match e with EvSend _ _ _ => true | _ => false end.

Definition sends (t : list Event) : nat := List.length (List.filter isSend t).

(** The events a run adds to the trace. *)
Definition added (w w' : World) : list Event :=
  skipn (List.length (trace w)) (trace w').

End Processor.

(** ** cli/run-cron.ts *)

Module Cron.

Import Lock Poller Processor.

Definition LOCK_NAME : string := "email_processor".

(** How [main] ends: [process.exit(0)] without the lock, the end of the
    [try] with the results, or the error that left the [try]. *)
Inductive Outcome : Type :=
| Exited
| Completed (results : list ProcessResult)
| Fatal (error : string).

(** [now] is the [new Date()] of [acquireLock] and [workerId] the id it
    makes up; [listed] is what [getGmailClient] and
    [gmail.users.messages.list] give: the unread messages, or the error
    one of them throws.  The timing of the run, its console output and
    the summary notification, which swallows its own errors, are left
    out. *)
Definition main (env : Env) (now : Z) (workerId : string)
    (listed : result (list UnreadMessage))
    (locks : gmap string SystemLock) (w : World)
    : Outcome * gmap string SystemLock * World :=
  match acquireLock now LOCK_NAME workerId locks with
  | (false, locks1) => (Exited, locks1, w)
  | (true, locks1) =>
      match listed with
      | Throw e => (Fatal e, releaseLock LOCK_NAME locks1, w)
      | Ok answer =>
          let messages := pollUnreadMessages answer (processedMessage w) in
          let '(results, w1) := processAll env (map unreadId messages) w in
          let '(retryResults, w2) := retryFailedMessages env 3 w1 in
          (Completed (results ++ retryResults), releaseLock LOCK_NAME locks1, w2)
      end
  end.

End Cron.
(** ** Auxiliary definitions used in the statements *)

Import Regex JS Validators Parser Base64 Assign Lock Poller Processor Cron.

(** *** The meaning of a pattern

    [Matches r p p']: read from position [p], the pattern [r] can end at
    position [p'].  An iteration of a starred pattern always moves
    forward. *)
Inductive Matches : regex -> pos -> pos -> Prop :=
| M_eps p : Matches Eps p p
| M_cls (q : ascii -> bool) c bef aft :
    q c = true -> Matches (Cls q) (mkPos bef (c :: aft)) (mkPos (c :: bef) aft)
| M_seq r1 r2 p1 p2 p3 :
    Matches r1 p1 p2 -> Matches r2 p2 p3 -> Matches (Seq r1 r2) p1 p3
| M_alt_l r1 r2 p p' : Matches r1 p p' -> Matches (Alt r1 r2) p p'
| M_alt_r r1 r2 p p' : Matches r2 p p' -> Matches (Alt r1 r2) p p'
| M_star_nil g r p : Matches (Star g r) p p
| M_star_cons g r p1 p2 p3 :
    Matches r p1 p2 -> List.length (after p2) < List.length (after p1) ->
    Matches (Star g r) p2 p3 -> Matches (Star g r) p1 p3
| M_grp i r p p' : Matches r p p' -> Matches (Grp i r) p p'
| M_bol m p : atBol m p = true -> Matches (Bol m) p p
| M_eol m p : atEol m p = true -> Matches (Eol m) p p
| M_wordb p : atWordB p = true -> Matches WordB p p.

(** The text a position belongs to. *)
Definition textOf (p : pos) : list ascii := rev (before p) ++ after p.

(** [/[^\s@]+@[^\s@]+\.[^\s@]+/.test(text)]: the text has a part of
    the shape that [isValidEmail] accepts. *)
Definition hasEmailShape (text : string) : bool := test emailShape text.

(** A pattern every match of which ends with a part of the email shape. *)
Definition endsInEmailShape (r : regex) : Prop :=
  forall p p', Matches r p p' ->
    exists p3, Matches emailShape p3 p' /\ textOf p3 = textOf p.

(** A recognizer that yields no candidate with a valid email. *)
Definition rejected (text subject : string) (p : LeadParser) : Prop :=
  forall l, p text subject = Some l -> isValidEmail (email l) = false.

(** Sample texts: a Zillow and a Realtor notification that name the
    sender of the notification before the lead, and a Zillow
    notification whose only address is a mailer address. *)
Definition zillowSample : string :=
  "New lead from Zillow (alerts@zillow.com): reach bob.stone@example.com".

Definition realtorSample : string :=
  "Sent by noreply@realtor.com for move.com: reach Bob.Stone@example.com".

Definition mailerSample : string :=
  "New lead from Zillow: reach the buyer at noreply@example.com".

(** *** Emails, phone numbers and candidates *)

(** The characters of a string of the shape [local@domain.tld]: three
    non-empty parts without white space or [@], with an [@] after the
    first and a dot after the second. *)
Definition emailParts (l : list ascii) : Prop :=
  exists L D T,
    l = L ++ "@"%char :: D ++ "."%char :: T
    /\ L <> [] /\ D <> [] /\ T <> []
    /\ forallb notSpaceAt L = true /\ forallb notSpaceAt D = true
    /\ forallb notSpaceAt T = true.

(** The digits of a string, in order. *)
Definition digitsOf (phone : string) : list ascii :=
  List.filter Char.isDigit (chars phone).





(** The first character, if there is one, does not satisfy [q]. *)
Definition noRunAhead (q : ascii -> bool) (rest : list ascii) : Prop :=
  match rest with [] => True | c :: _ => q c = false end.

(** Every maximal run of characters satisfying [q] replaced by [by_];
    [inRun] tells that the run has begun. *)
Fixpoint collapseRuns (q : ascii -> bool) (by_ : list ascii) (inRun : bool)
    (l : list ascii) : list ascii :=
  match l with
  | [] => []
  | c :: l' =>
      if q c then
        if inRun then collapseRuns q by_ true l'
        else by_ ++ collapseRuns q by_ true l'
      else c :: collapseRuns q by_ false l'
  end.

(** Every white space character is a space, and the character after
    it, if there is one, is no white space. *)
Fixpoint singleSpaced (l : list ascii) : bool :=
  match l with
  | [] => true
  | c :: l' =>
      (if Char.isSpace c
       then Ascii.eqb c " "
            && match l' with d :: _ => negb (Char.isSpace d) | [] => true end
       else true)
      && singleSpaced l'
  end.

(** A pattern every match of which begins with a character of [q]. *)
Definition firstIs (q : ascii -> bool) (r : regex) : Prop :=
  forall p p', Matches r p p' -> exists c rest, after p = c :: rest /\ q c = true.

(** The candidate of the first recognizer that yields one. *)
Fixpoint firstCandidate (ps : list LeadParser) (text subject : string)
    : option LeadData :=
  match ps with
  | [] => None
  | p :: rest =>
      match p text subject with
      | Some l => Some l
      | None => firstCandidate rest text subject
      end
  end.

(** *** Base64 *)

Definition isBase64Char (c : ascii) : bool :=
  existsb (Ascii.eqb c) alphabet.

Definition swap (a b c : ascii) : ascii := if Ascii.eqb a c then b else c.

Definition toUrl (c : ascii) : ascii := swap "/" "_" (swap "+" "-" c).
Definition fromUrl (c : ascii) : ascii := swap "_" "/" (swap "-" "+" c).

Definition urlSafe (c : ascii) : bool :=
  negb (Char.isChar "+" c || Char.isChar "/" c || Char.isChar "=" c).

(** *** Run lock *)

(** A lock row for [lockName] exists and expires strictly after [now]. *)
Definition heldAt (now : Z) (lockName : string)
    (locks : gmap string SystemLock) : Prop :=
  exists l, locks !! lockName = Some l /\ (now < expiresAt l)%Z.

(** *** Round-robin assignment *)

(** The last-assigned timestamp of an agent that has one. *)
Definition stamp (a : Agent) : Z :=
  match lastAssignedAt a with Some t => t | None => 0%Z end.

Definition wasAssigned (a : Agent) : bool :=
  match lastAssignedAt a with Some _ => true | None => false end.

(** The active agents whose timestamp lies before [bound]. *)
Definition pendingOf (bound : Z) (agents : list Agent) : list Agent :=
  List.filter (fun a => isActive a && Z.ltb (stamp a) bound)%bool agents.

(** [a] was last assigned before [b]. *)
Definition comesBefore (a b : Agent) : Prop := (stamp a < stamp b)%Z.

(** The invariant of a round: distinct ids, every active agent assigned
    before, distinct timestamps among the pending ones. *)
Definition roundInv (bound : Z) (agents : list Agent) : Prop :=
  List.NoDup (map agentId agents)
  /\ Forall (fun a => wasAssigned a = true) (List.filter isActive agents)
  /\ List.NoDup (map stamp (pendingOf bound agents)).

(** The assignment counter of an agent, [0] when there is no such
    agent. *)
Definition countOf (id : string) (agents : list Agent) : Z :=
  match getAgentById id agents with
  | Some a => assignedCount a
  | None => 0%Z
  end.

(** How many of the calls returned the agent [id]. *)
Fixpoint timesPicked (id : string) (rs : list (result Agent)) : Z :=
  match rs with
  | [] => 0%Z
  | Ok a :: rest =>
      ((if String.eqb (agentId a) id then 1 else 0) + timesPicked id rest)%Z
  | Throw _ :: rest => timesPicked id rest
  end.

(** The first [n] elements of the endless repetition of [l]. *)
Fixpoint cycle {A} (n : nat) (l : list A) : list A :=
  match n, l with
  | S n', x :: l' => x :: cycle n' (l' ++ [x])
  | _, _ => []
  end.

(** [q] lists the active agents of a table, the least recently assigned
    first. *)
Definition queueInv (agents q : list Agent) : Prop :=
  List.NoDup (map agentId agents)
  /\ Forall (fun a => wasAssigned a = true) (List.filter isActive agents)
  /\ Permutation q (List.filter isActive agents)
  /\ StronglySorted comesBefore q.

(** A roster of three agents, the last one inactive. *)
Definition sampleRoster : list Agent :=
  [ mkAgent "a1" "Sarah Johnson" "sarah@example.com" true None 4 (Some 50%Z);
    mkAgent "a2" "Mike Chen" "mike@example.com" true None 4 (Some 20%Z);
    mkAgent "a3" "Emily Davis" "emily@example.com" false None 9 (Some 10%Z) ].

(** Two active agents, the second with a timestamp that lies ahead of
    the clock readings 150 and 160. *)
Definition aheadRoster : list Agent :=
  [ mkAgent "a1" "Sarah Johnson" "sarah@example.com" true None 0 (Some 100%Z);
    mkAgent "a2" "Mike Chen" "mike@example.com" true None 0 (Some 200%Z) ].

(** *** Message processor *)

(** The attempt counter of a message, [0] while it has no record. *)
Definition attemptsOf (messageId : string) (w : World) : Z :=
  match processedMessage w !! messageId with
  | Some p => attempts p
  | None => 0%Z
  end.

(** [w'] has the trace of [w] and possibly more. *)
Definition extends (w w' : World) : Prop :=
  exists evs, trace w' = trace w ++ evs.

(** No attempt counter is lower in [w'] than in [w]. *)
Definition countsUp (w w' : World) : Prop :=
  forall id, (attemptsOf id w <= attemptsOf id w')%Z.

(** Every run of a computation relates the world before to the world
    after. *)
Definition stable {A} (R : World -> World -> Prop) (m : M A) : Prop :=
  forall w, R w (snd (m w)).

(** The world after [n] more numbered steps and the events [evs]. *)
Definition advance (n : nat) (evs : list Event) (w : World) : World :=
  mkWorld (n + tick w) (processedMessage w) (lead w) (agent w) (trace w ++ evs).

Definition withLead (t : gmap string Lead) (w : World) : World :=
  mkWorld (tick w) (processedMessage w) t (agent w) (trace w).

Definition withAgent (ags : list Agent) (w : World) : World :=
  mkWorld (tick w) (processedMessage w) (lead w) ags (trace w).

(** What the parser makes of the content of a message; the mailbox
    gives the same content whenever it is asked. *)
Definition parseOf (env : Env) (messageId : string) : result LeadData :=
  if falsy (gmailRaw env messageId)
  then Throw ("No raw payload returned by Gmail for message " +:+ messageId)
  else
    let parsed :=
      simpleParser env (base64UrlToBuffer (orEmpty (gmailRaw env messageId))) in
    let textBody := orEmpty (mailText parsed) in
    let htmlBody := orEmpty (mailHtml parsed) in
    if (String.eqb textBody EmptyString && String.eqb htmlBody EmptyString)%bool
    then Throw ("Email " +:+ messageId +:+ " parsed but has no body text or HTML")
    else parseLeadFromText
           (if String.eqb textBody EmptyString then stripHtmlTags htmlBody
            else textBody)
           (orEmpty (mailSubject parsed)).

(** The lead row written by step 4 on the table [leads], when the
    step begins at number [t]. *)
Definition upsertedRow (env : Env) (l : LeadData) (messageId : string)
    (a : Agent) (leads : gmap string Lead) (t : nat) : Lead :=
  match leads !! email l with
  | Some old =>
      mkLead (leadId old) (leadEmail old)
             (match firstName l with Some v => Some v | None => leadFirstName old end)
             (match lastName l with Some v => Some v | None => leadLastName old end)
             (match phone l with Some v => Some v | None => leadPhone old end)
             (source l) messageId (agentId a) (clock env t) (replySentAt old)
  | None =>
      mkLead (cuid env (2 + t)) (email l) (firstName l) (lastName l) (phone l)
             (source l) messageId (agentId a) (clock env (1 + t)) None
  end.

(** Steps 5 to 7 of the [try], for the upserted row and the agent. *)
Definition finish (env : Env) (messageId : string) (row : Lead) (a : Agent)
    : M (Lead * Agent) :=
  bind (replyOnce env row a) (fun _ =>
  bind (setStatus messageId SUCCESS None) (fun _ =>
  bind (logEvent (EvSuccess messageId)) (fun _ =>
  bind (outside env (EvMarkRead messageId)) (fun _ => ret (row, a))))).

(** The number of the step at which the reply is sent, for a [try] that
    begins in [w1]. *)
Definition sendTick (l : LeadData) (w1 : World) : nat :=
  match lead w1 !! email l with
  | Some _ => 4 + tick w1
  | None => 5 + tick w1
  end.

(** Steps 2 to 4 of the [try]: extraction, assignment, upsert. *)
Definition untilUpsert (env : Env) (messageId : string)
    : M (LeadData * Agent * Lead) :=
  bind (extractLeadData env messageId) (fun l =>
  bind (pickAgent env) (fun a =>
  bind (upsertLead env l messageId a) (fun row => ret (l, a, row)))).

(** The candidate, the agent and the upserted lead row with which the
    [try] that begins in [w1] reaches step 5, if it does (see
    [stepFiveAt_steps]). *)
Definition stepFiveAt (env : Env) (messageId : string) (w1 : World)
    : option (LeadData * Agent * Lead) :=
  match failure env (tick w1) with
  | Some _ => None
  | None =>
      match parseOf env messageId with
      | Throw _ => None
      | Ok l =>
          match findFirstActive (agent w1) with
          | None => None
          | Some a =>
              Some (l, a, upsertedRow env l messageId a (lead w1) (2 + tick w1))
          end
      end
  end.

Definition stepFive (env : Env) (messageId : string) (w : World)
    : option (LeadData * Agent * Lead) :=
  stepFiveAt env messageId (snd (markProcessing env messageId w)).

(** A reply was already sent to the lead with this email. *)
Definition replied (w : World) (e : string) : bool :=
  match lead w !! e with
  | Some r => match replySentAt r with Some _ => true | None => false end
  | None => false
  end.

(** Two rows with the same merged fields, whatever their reply
    timestamps. *)
Definition sameLead (r r' : Lead) : Prop :=
  leadId r' = leadId r /\ leadEmail r' = leadEmail r
  /\ leadFirstName r' = leadFirstName r /\ leadLastName r' = leadLastName r
  /\ leadPhone r' = leadPhone r /\ leadSource r' = leadSource r
  /\ sourceMessage r' = sourceMessage r
  /\ assignedAgentId r' = assignedAgentId r /\ assignedAt r' = assignedAt r.

(** A mailbox with one message, from a sender who names herself. *)
Definition sampleEnv : Env :=
  mkEnv (fun n => 1000 + Z.of_nat n)%Z
        (fun _ => None)
        (fun id => if String.eqb id "m1" then Some "aGk" else None)
        (fun _ => mkParsed (Some "Please write to Ann.Lee@example.org") None
                           (Some "Question"))
        (fun n => "lead-1")
        (fun _ e => Some ("Error: " +:+ e))
        (fun _ e => "Error: " +:+ e).

Definition sampleWorld : World := mkWorld 0 ∅ ∅ sampleRoster [].

(** The same, after an earlier message of that sender was answered. *)
Definition answeredWorld : World :=
  mkWorld 0 ∅
    {[ "ann.lee@example.org" :=
         mkLead "lead-0" "ann.lee@example.org" (Some "Ann") None (Some "5551234567")
                generic "m0" "a1" 40 (Some 41%Z) ]}
    sampleRoster [].

(** *** Outcome of a run, polling and retries *)

(** The table after [update({ where: { messageId }, data: { status,
    errorLog } })]. *)
Definition withStatus (id : string) (s : Status) (e : option string)
    (t : gmap string ProcessedMessage) : gmap string ProcessedMessage :=
  match t !! id with
  | Some p => <[id := mkProcessed (attempts p) (lastAttemptAt p) s e]> t
  | None => t
  end.

(** The events of the [catch]. *)
Definition isReport (e : Event) : bool :=
  match e with
  | EvFailed _ _ | EvAlert _ _ _ => true
  | _ => false
  end.

(** The time written into the processing record by step 1: the first
    reading of the clock for a record that exists, the second for a new
    one. *)
Definition markedAt (env : Env) (messageId : string) (w : World) : Z :=
  match processedMessage w !! messageId with
  | Some _ => clock env (tick w)
  | None => clock env (S (tick w))
  end.


(** The message has a processing record with status [SUCCESS]. *)
Definition hasSucceeded (table : gmap string ProcessedMessage) (id : string) : bool :=
  match table !! id with
  | Some p => isSuccess p
  | None => false
  end.

Definition attemptedBefore (x y : string * ProcessedMessage) : Prop :=
  (lastAttemptAt (snd x) <= lastAttemptAt (snd y))%Z.

(** Steps 3 to 5 of [main], from the answer of the mailbox on. *)
Definition afterPoll (env : Env) (answer : list UnreadMessage) (w : World)
    : list ProcessResult * World :=
  let messages := pollUnreadMessages answer (processedMessage w) in
  let '(results, w1) := processAll env (map unreadId messages) w in
  let '(retryResults, w2) := retryFailedMessages env 3 w1 in
  (results ++ retryResults, w2).

(** Every row of the lead table is stored under its own email, which
    is valid and in lower case. *)
Definition keyedByEmail (t : gmap string Lead) : Prop :=
  forall k r, t !! k = Some r ->
    leadEmail r = k /\ isValidEmail k = true /\ toLowerCase k = k.

(** * Properties *)



(** ** Strings and positions *)

Lemma str_chars s : str (chars s) = s.
Proof. apply string_of_list_ascii_of_string. Qed.
Lemma chars_str l : chars (str l) = l.
Proof. apply list_ascii_of_string_of_list_ascii. Qed.
Lemma chars_length s : List.length (chars s) = String.length s.
Proof. induction s; simpl; congruence. Qed.

Lemma consumed_app b b' (w a : list ascii) :
  consumed (mkPos b (w ++ a)) (mkPos b' a) = w.
Proof.
  unfold consumed; cbn [after]. rewrite length_app.
  replace (List.length w + List.length a - List.length a) with (List.length w + 0) by lia.
  rewrite firstn_app_2. cbn [firstn]. apply app_nil_r.
Qed.

Lemma consumed_one b b' c (a : list ascii) :
  consumed (mkPos b (c :: a)) (mkPos b' a) = [c].
Proof. apply (consumed_app b b' [c] a). Qed.

Lemma consumed_nil b b' (a : list ascii) :
  consumed (mkPos b a) (mkPos b' a) = [].
Proof. apply (consumed_app b b' [] a). Qed.

(** *** Single-character patterns *)
Section ClsPattern.
Variable p : ascii -> bool.

Lemma matchAt_cls bef aft :
  matchAt (Cls p) (mkPos bef aft) =
  match aft with
  | c :: rest =>
      if p c then Some (mkFound (mkPos bef aft) (mkPos (c :: bef) rest) [])
      else None
  | [] => None
  end.
Proof. destruct aft; reflexivity. Qed.

Lemma searchFrom_cls_skip pre : forall bef aft,
  forallb (fun c => negb (p c)) pre = true ->
  searchFrom (Cls p) bef (pre ++ aft) = searchFrom (Cls p) (rev pre ++ bef) aft.
Proof.
  induction pre as [|c pre IH]; intros bef aft H; [reflexivity|].
  simpl in H. apply andb_prop in H as [Hc Hpre].
  cbn [app searchFrom]. rewrite matchAt_cls.
  destruct (p c); [discriminate|].
  rewrite IH by assumption. cbn [rev]. now rewrite <- app_assoc.
Qed.

Lemma span_cls (l : list ascii) :
  exists pre rest, l = pre ++ rest /\ forallb (fun c => negb (p c)) pre = true /\
    match rest with [] => True | c :: _ => p c = true end.
Proof.
  induction l as [|c l (pre & rest & -> & Hpre & Hrest)].
  - exists [], []. auto.
  - destruct (p c) eqn:Hc.
    + exists [], (c :: pre ++ rest). auto.
    + exists (c :: pre), rest. cbn. rewrite Hc, Hpre. auto.
Qed.

Lemma flat_map_skip by_ pre :
  forallb (fun c => negb (p c)) pre = true ->
  flat_map (fun c => if p c then by_ else [c]) pre = pre.
Proof.
  induction pre as [|c pre IH]; cbn; [reflexivity|].
  intros H. apply andb_prop in H as [Hc Hpre].
  destruct (p c); [discriminate|]. cbn. now rewrite IH.
Qed.

Lemma replaceAllFrom_cls by_ : forall fuel bef aft,
  List.length aft < fuel ->
  replaceAllFrom (Cls p) by_ fuel bef aft =
  flat_map (fun c => if p c then by_ else [c]) aft.
Proof.
  induction fuel as [|fuel IH]; intros bef aft Hlen; [lia|].
  destruct (span_cls aft) as (pre & rest & -> & Hpre & Hrest).
  cbn [replaceAllFrom]. rewrite searchFrom_cls_skip by assumption.
  rewrite flat_map_app, flat_map_skip by assumption.
  destruct rest as [|c rest].
  - reflexivity.
  - cbn [searchFrom]. rewrite matchAt_cls, Hrest.
    unfold matched. cbn [mStart mEnd]. rewrite consumed_one, (consumed_app bef _ pre).
    cbn [after before flat_map]. rewrite Hrest.
    rewrite IH; [reflexivity|].
    rewrite length_app in Hlen. simpl in Hlen. lia.
Qed.
End ClsPattern.

Lemma replaceAll_cls p by_ text :
  replaceAll (Cls p) by_ text =
  str (flat_map (fun c => if p c then chars by_ else [c]) (chars text)).
Proof.
  unfold replaceAll. rewrite replaceAllFrom_cls; [reflexivity|].
  rewrite chars_length. lia.
Qed.

Lemma stripNonDigits_filter phone :
  stripNonDigits phone = str (List.filter Char.isDigit (chars phone)).
Proof.
  unfold stripNonDigits. rewrite replaceAll_cls. f_equal.
  induction (chars phone) as [|c l IH]; [reflexivity|].
  cbn [flat_map List.filter]. rewrite IH. unfold Char.notDigit.
  destruct (Char.isDigit c); reflexivity.
Qed.

(** C9. [normalizePhone] returns the digits of its input in their order,
    behind one ["+"] exactly when the trimmed input begins with ["+"];
    ["(555) 123-4567"] becomes ["5551234567"], which [isValidPhone]
    accepts and [formatPhone] renders as ["(555) 123-4567"]. *)
Theorem normalizePhone_digits (phone : string) :
  let digits := str (List.filter Char.isDigit (chars phone)) in
  normalizePhone phone =
    (if startsWith (trim phone) "+" then String "+" digits else digits)
  /\ normalizePhone "(555) 123-4567" = "5551234567"
  /\ isValidPhone "5551234567" = true
  /\ formatPhone "5551234567" = "(555) 123-4567".
Proof.
  split; [|repeat split; vm_compute; reflexivity].
  unfold normalizePhone. rewrite stripNonDigits_filter.
  destruct (startsWith (trim phone) "+"); reflexivity.
Qed.

(** ** The matcher and the meaning of patterns *)

Lemma orElse_Some {R} (a b : option R) x :
  orElse a b = Some x -> a = Some x \/ b = Some x.
Proof. destruct a; cbn; auto. Qed.

Lemma orElse_not_None {R} (a b : option R) :
  a <> None \/ b <> None -> orElse a b <> None.
Proof. destruct a; cbn; [discriminate|]. intros [H|H]; congruence. Qed.

Section MatcherTheory.
Context {R : Type}.

(** Whatever the matcher finds, the pattern means. *)
Lemma rmatch_sound (r : regex) : forall (s : mstate) (k : mstate -> option R) x,
  rmatch r s k = Some x ->
  exists s', Matches r (at_ s) (at_ s') /\ k s' = Some x.
Proof.
  induction r as [|q|r1 IH1 r2 IH2|r1 IH1 r2 IH2|g r1 IH1|i r1 IH1|m|m|];
    intros s k x H; cbn [rmatch] in H.
  - exists s. split; [constructor|assumption].
  - destruct s as [[bef aft] cs]. cbn [at_ after before caps] in *.
    destruct aft as [|c aft]; [discriminate|].
    destruct (q c) eqn:Hq; [|discriminate].
    eexists. split; [|exact H]. now constructor.
  - apply IH1 in H as (s1 & M1 & H). apply IH2 in H as (s2 & M2 & H).
    exists s2. split; [econstructor; eassumption|assumption].
  - apply orElse_Some in H as [H|H].
    + apply IH1 in H as (s1 & M1 & H). exists s1. split; [now apply M_alt_l|assumption].
    + apply IH2 in H as (s1 & M1 & H). exists s1. split; [now apply M_alt_r|assumption].
  - remember (remaining s) as fuel eqn:Ef. clear Ef. revert s H.
    induction fuel as [|fuel IHf]; intros s H; cbn [starLoop] in H.
    + exists s. split; [constructor|assumption].
    + assert (Hcase :
        rmatch r1 s (fun s1 => if Nat.ltb (remaining s1) (remaining s)
                               then starLoop (rmatch r1) g fuel s1 k else None) = Some x
        \/ k s = Some x).
      { destruct g; apply orElse_Some in H; tauto. }
      destruct Hcase as [H1|H1].
      * apply IH1 in H1 as (s1 & M1 & H1).
        destruct (Nat.ltb (remaining s1) (remaining s)) eqn:Hlt; [|discriminate].
        apply Nat.ltb_lt in Hlt. apply IHf in H1 as (s2 & M2 & H2).
        exists s2. split; [|assumption]. eapply M_star_cons; eassumption.
      * exists s. split; [constructor|assumption].
  - apply IH1 in H as (s1 & M1 & H). eexists. split; [|exact H].
    cbn [setCap at_]. now constructor.
  - destruct (atBol m (at_ s)) eqn:E; [|discriminate].
    exists s. split; [now constructor|assumption].
  - destruct (atEol m (at_ s)) eqn:E; [|discriminate].
    exists s. split; [now constructor|assumption].
  - destruct (atWordB (at_ s)) eqn:E; [|discriminate].
    exists s. split; [now constructor|assumption].
Qed.

(** Whatever the pattern means, the matcher does not miss, as long as
    the continuation accepts the end of the match. *)
Lemma rmatch_complete (r : regex) : forall p p' cs (k : mstate -> option R),
  Matches r p p' ->
  (forall cs', k (mkSt p' cs') <> None) ->
  rmatch r (mkSt p cs) k <> None.
Proof.
  induction r as [|q|r1 IH1 r2 IH2|r1 IH1 r2 IH2|g r1 IH1|i r1 IH1|m|m|];
    intros p p' cs k M Hk; cbn [rmatch].
  - inversion M; subst. apply Hk.
  - inversion M; subst. cbn [at_ after before caps].
    match goal with H : q _ = true |- _ => rewrite H end. apply Hk.
  - inversion M; subst. eapply IH1; [eassumption|].
    intros cs'. eapply IH2; eassumption.
  - apply orElse_not_None. inversion M; subst.
    + left. eapply IH1; eassumption.
    + right. eapply IH2; eassumption.
  - unfold remaining. cbn [at_].
    assert (G : forall fuel p cs, List.length (after p) <= fuel ->
                Matches (Star g r1) p p' ->
                starLoop (rmatch r1) g fuel (mkSt p cs) k <> None).
    { clear p cs M. induction fuel as [|fuel IHf]; intros p cs Hf M.
      - inversion M; subst; [apply Hk|]. lia.
      - cbn [starLoop]. inversion M; subst.
        + destruct g; apply orElse_not_None; [right|left]; apply Hk.
        + assert (rmatch r1 (mkSt p cs)
                    (fun s1 => if Nat.ltb (remaining s1) (remaining (mkSt p cs))
                               then starLoop (rmatch r1) g fuel s1 k else None)
                  <> None).
          { eapply IH1; [eassumption|]. intros cs'.
            unfold remaining. cbn [at_].
            replace (Nat.ltb (List.length (after p2)) (List.length (after p)))
              with true by (symmetry; now apply Nat.ltb_lt).
            apply IHf; [lia|assumption]. }
          destruct g; apply orElse_not_None; [left|right]; assumption. }
    apply G; [lia|assumption].
  - inversion M; subst. eapply IH1; [eassumption|].
    intros cs'. apply Hk.
  - inversion M; subst. cbn [at_].
    match goal with H : atBol _ _ = true |- _ => rewrite H end. apply Hk.
  - inversion M; subst. cbn [at_].
    match goal with H : atEol _ _ = true |- _ => rewrite H end. apply Hk.
  - inversion M; subst. cbn [at_].
    match goal with H : atWordB _ = true |- _ => rewrite H end. apply Hk.
Qed.
End MatcherTheory.

(** A match stays in its text and never moves back. *)
Lemma Matches_text r p p' :
  Matches r p p' ->
  textOf p' = textOf p /\ List.length (after p') <= List.length (after p).
Proof.
  unfold textOf. induction 1; cbn [before after rev List.length] in *;
    try (split; [reflexivity|lia]).
  - rewrite <- app_assoc. split; [reflexivity|lia].
  - destruct IHMatches1, IHMatches2. split; [congruence|lia].
  - assumption.
  - assumption.
  - destruct IHMatches1, IHMatches2. split; [congruence|lia].
  - assumption.
Qed.

Lemma matchAt_sound r p f :
  matchAt r p = Some f -> mStart f = p /\ Matches r p (mEnd f).
Proof.
  unfold matchAt. intros H. apply rmatch_sound in H as (s' & M & E).
  injection E as <-. split; [reflexivity|exact M].
Qed.

Lemma matchAt_complete r p p' : Matches r p p' -> matchAt r p <> None.
Proof.
  intros M. unfold matchAt. eapply rmatch_complete; [exact M|]. discriminate.
Qed.

(** The search tries the positions of the text from left to right. *)
Lemma searchFrom_sound r : forall aft bef f,
  searchFrom r bef aft = Some f ->
  textOf (mStart f) = rev bef ++ aft /\ Matches r (mStart f) (mEnd f).
Proof.
  induction aft as [|c aft IH]; intros bef f H; cbn [searchFrom] in H.
  - destruct (matchAt r (mkPos bef [])) as [f'|] eqn:E; [|discriminate].
    injection H as <-. apply matchAt_sound in E as [-> M]. now split.
  - destruct (matchAt r (mkPos bef (c :: aft))) as [f'|] eqn:E.
    + injection H as <-. apply matchAt_sound in E as [-> M]. now split.
    + apply IH in H as [HT M]. split; [|exact M].
      rewrite HT. cbn [rev]. now rewrite <- app_assoc.
Qed.

Lemma searchFrom_complete r : forall pre bef aft p',
  Matches r (mkPos (rev pre ++ bef) aft) p' ->
  searchFrom r bef (pre ++ aft) <> None.
Proof.
  induction pre as [|c pre IH]; intros bef aft p' M.
  - cbn [rev app] in *. apply matchAt_complete in M.
    destruct aft; cbn [searchFrom]; destruct (matchAt r _); congruence.
  - cbn [app searchFrom]. destruct (matchAt r _); [discriminate|].
    apply (IH (c :: bef) aft p'). cbn [rev] in M. now rewrite <- app_assoc in M.
Qed.

Lemma search_complete r p p' :
  Matches r p p' -> searchFrom r [] (textOf p) <> None.
Proof.
  intros M. unfold textOf. destruct p as [bef aft]. cbn [before after] in *.
  apply (searchFrom_complete r (rev bef) [] aft p').
  now rewrite rev_involutive, app_nil_r.
Qed.

Lemma scanAll_nil r fuel bef aft :
  searchFrom r bef aft = None -> scanAll r fuel bef aft = [].
Proof. intros H. destruct fuel; cbn [scanAll]; [reflexivity|]. now rewrite H. Qed.

(** *** Runs of a character class, and the email shape spelled out *)

Lemma Matches_star_cls g (q : ascii -> bool) p p' :
  Matches (Star g (Cls q)) p p' ->
  exists w, forallb q w = true /\ after p = w ++ after p'
            /\ before p' = rev w ++ before p.
Proof.
  intros M. remember (Star g (Cls q)) as r eqn:Er.
  induction M; try discriminate.
  - exists []. auto.
  - injection Er as -> ->. destruct (IHM2 eq_refl) as (w & Hw & Ha & Hb).
    inversion M1; subst. cbn [after before] in *.
    exists (c :: w). cbn [forallb rev app]. rewrite Hw, Ha, Hb, <- app_assoc.
    split; [|auto]. match goal with H : q c = true |- _ => now rewrite H end.
Qed.

Lemma Matches_plus_cls (q : ascii -> bool) p p' :
  Matches (plus (Cls q)) p p' ->
  exists w, w <> [] /\ forallb q w = true /\ after p = w ++ after p'
            /\ before p' = rev w ++ before p.
Proof.
  unfold plus. intros M. inversion M as [| |? ? ? p1 ? MC MS| | | | | | | |]; subst.
  apply Matches_star_cls in MS as (w & Hw & Ha & Hb).
  inversion MC; subst. cbn [after before] in *.
  exists (c :: w). cbn [forallb rev app]. rewrite Hw, Ha, Hb, <- app_assoc.
  split; [discriminate|]. split; [|auto].
  match goal with H : q c = true |- _ => now rewrite H end.
Qed.

Lemma Matches_chr c p p' :
  Matches (chr c) p p' -> after p = c :: after p' /\ before p' = c :: before p.
Proof.
  unfold chr. intros M. inversion M as [|? c' ? ? Hc| | | | | | | | |]; subst.
  cbn [after before]. apply Ascii.eqb_eq in Hc. subst. auto.
Qed.

Lemma star_cls_run g (q : ascii -> bool) (w : list ascii) : forall bef aft,
  forallb q w = true ->
  Matches (Star g (Cls q)) (mkPos bef (w ++ aft)) (mkPos (rev w ++ bef) aft).
Proof.
  induction w as [|c w IH]; intros bef aft H; [constructor|].
  cbn [forallb] in H. apply andb_prop in H as [Hc Hw].
  cbn [app rev]. eapply M_star_cons.
  - now constructor.
  - cbn. lia.
  - rewrite <- app_assoc. apply IH. assumption.
Qed.

Lemma plus_cls_run (q : ascii -> bool) (w : list ascii) bef aft :
  w <> [] -> forallb q w = true ->
  Matches (plus (Cls q)) (mkPos bef (w ++ aft)) (mkPos (rev w ++ bef) aft).
Proof.
  destruct w as [|c w]; [congruence|]. intros _ H.
  cbn [forallb] in H. apply andb_prop in H as [Hc Hw].
  unfold plus. cbn [app rev]. econstructor; [now constructor|].
  rewrite <- app_assoc. now apply star_cls_run.
Qed.

(** [hasEmailShape] holds of the texts in which, somewhere, a run without
    white space and at sign is followed by an at sign, another such run,
    a dot and a third such run. *)
Lemma hasEmailShape_spec (text : string) :
  hasEmailShape text = true <->
  exists a L D T b,
    chars text = a ++ L ++ "@"%char :: D ++ "."%char :: T ++ b
    /\ L <> [] /\ D <> [] /\ T <> []
    /\ forallb notSpaceAt L = true /\ forallb notSpaceAt D = true
    /\ forallb notSpaceAt T = true.
Proof.
  unfold hasEmailShape, test, exec. split.
  - destruct (searchFrom emailShape [] (chars text)) as [f|] eqn:E; [|discriminate].
    intros _. apply searchFrom_sound in E as [HT M].
    unfold emailShape in M. cbn [seqs] in M.
    inversion M as [| |? ? ? p1 ? ML M1| | | | | | | |]; subst. clear M.
    inversion M1 as [| |? ? ? p2 ? MA M2| | | | | | | |]; subst. clear M1.
    inversion M2 as [| |? ? ? p3 ? MD M3| | | | | | | |]; subst. clear M2.
    inversion M3 as [| |? ? ? p4 ? MP M4| | | | | | | |]; subst. clear M3.
    apply Matches_plus_cls in ML as (L & HL & QL & AL & _).
    apply Matches_chr in MA as (AA & _).
    apply Matches_plus_cls in MD as (D & HD & QD & AD & _).
    apply Matches_chr in MP as (AP & _).
    apply Matches_plus_cls in M4 as (T & HT' & QT & AT & _).
    exists (rev (before (mStart f))), L, D, T, (after (mEnd f)).
    split; [|auto 10]. cbn [rev app] in HT. rewrite <- HT. unfold textOf.
    now rewrite AL, AA, AD, AP, AT.
  - intros (a & L & D & T & b & E & HL & HD & HT & QL & QD & QT).
    assert (M : Matches emailShape
                  (mkPos (rev a) (L ++ "@"%char :: D ++ "."%char :: T ++ b))
                  (mkPos (rev T ++ "."%char :: rev D ++ "@"%char :: rev L ++ rev a) b)).
    { unfold emailShape. cbn [seqs].
      econstructor; [now apply plus_cls_run|].
      econstructor; [unfold chr; now constructor|].
      econstructor; [now apply plus_cls_run|].
      econstructor; [unfold chr; now constructor|].
      now apply plus_cls_run. }
    apply search_complete in M. unfold textOf in M. cbn [before after] in M.
    rewrite rev_involutive, <- E in M.
    now destruct (searchFrom emailShape [] (chars text)).
Qed.
(** ** Base64 *)

Lemma byte_to_N_lt (b : byte) : (Byte.to_N b < 256)%N.
Proof. pose proof (Byte.to_N_bounded b). lia. Qed.

Lemma byteOfN_to_N (b : byte) : byteOfN (Byte.to_N b) = b.
Proof. unfold byteOfN. now rewrite Byte.of_to_N. Qed.

Lemma sextetChar_spec (n : N) :
  (n < 64)%N ->
  charSextet (sextetChar n) = Some n
  /\ Ascii.eqb (sextetChar n) padding = false
  /\ isBase64Char (sextetChar n) = true.
Proof.
  intros H.
  assert (Hall : forallb (fun i =>
            let c := sextetChar (N.of_nat i) in
            match charSextet c with Some m => N.eqb m (N.of_nat i) | None => false end
            && negb (Ascii.eqb c padding) && isBase64Char c)%bool (seq 0 64) = true)
    by (vm_compute; reflexivity).
  rewrite forallb_forall in Hall.
  specialize (Hall (N.to_nat n)).
  rewrite N2Nat.id in Hall.
  assert (Hin : In (N.to_nat n) (seq 0 64)) by (apply in_seq; lia).
  apply Hall in Hin. cbn zeta in Hin.
  apply andb_prop in Hin as [Hin H3]. apply andb_prop in Hin as [H1 H2].
  destruct (charSextet (sextetChar n)) as [m|]; [|discriminate].
  apply N.eqb_eq in H1. subst m.
  apply negb_true_iff in H2. auto.
Qed.

Lemma bytes_ind3 (P : list byte -> Prop) :
  P [] -> (forall a, P [a]) -> (forall a b, P [a; b]) ->
  (forall a b c l, P l -> P (a :: b :: c :: l)) ->
  forall l, P l.
Proof.
  intros H0 H1 H2 H3 l.
  assert (H : P l /\ (forall a, P (a :: l)) /\ (forall a b, P (a :: b :: l))).
  { induction l as [|x l (IH0 & IH1 & IH2)]; auto. }
  apply H.
Qed.

Ltac sextet_bounds :=
  repeat match goal with
  | b : byte |- _ =>
      lazymatch goal with
      | _ : (Byte.to_N b < 256)%N |- _ => fail
      | _ => pose proof (byte_to_N_lt b)
      end
  end.

Ltac divmod := zify; Z.to_euclidean_division_equations; lia.

Lemma fromBase64_toString (buf : Buffer) :
  bytesOfSextets (sextetsOf (toStringBase64 buf)) = buf.
Proof.
  induction buf as [|a|a b|a b c l IH] using bytes_ind3.
  - reflexivity.
  - sextet_bounds. cbn [toStringBase64 sextetsOf].
    set (n := Byte.to_N a) in *.
    assert (S0 : (n / 4 < 64)%N) by divmod.
    assert (S1 : (n mod 4 * 16 < 64)%N) by divmod.
    destruct (sextetChar_spec _ S0) as (-> & -> & _).
    destruct (sextetChar_spec _ S1) as (-> & -> & _).
    rewrite Ascii.eqb_refl. cbn [bytesOfSextets].
    replace ((n / 4 * 64 + n mod 4 * 16) / 16)%N with n by divmod.
    subst n. now rewrite byteOfN_to_N.
  - sextet_bounds. cbn [toStringBase64 sextetsOf].
    set (x := Byte.to_N a) in *. set (y := Byte.to_N b) in *.
    set (n := (x * 256 + y)%N).
    assert (S0 : (n / 1024 < 64)%N) by (subst n; divmod).
    assert (S1 : ((n / 16) mod 64 < 64)%N) by divmod.
    assert (S2 : (n mod 16 * 4 < 64)%N) by divmod.
    destruct (sextetChar_spec _ S0) as (-> & -> & _).
    destruct (sextetChar_spec _ S1) as (-> & -> & _).
    destruct (sextetChar_spec _ S2) as (-> & -> & _).
    rewrite Ascii.eqb_refl. cbn [bytesOfSextets].
    set (m := ((n / 1024 * 64 + (n / 16) mod 64) * 64 + n mod 16 * 4)%N).
    replace (m / 1024)%N with x by (subst m n; divmod).
    replace ((m / 4) mod 256)%N with y by (subst m n; divmod).
    subst x y. now rewrite !byteOfN_to_N.
  - sextet_bounds. cbn [toStringBase64 sextetsOf].
    set (x := Byte.to_N a) in *. set (y := Byte.to_N b) in *.
    set (z := Byte.to_N c) in *.
    set (n := ((x * 256 + y) * 256 + z)%N).
    assert (S0 : (n / 262144 < 64)%N) by (subst n; divmod).
    assert (S1 : ((n / 4096) mod 64 < 64)%N) by divmod.
    assert (S2 : ((n / 64) mod 64 < 64)%N) by divmod.
    assert (S3 : (n mod 64 < 64)%N) by divmod.
    destruct (sextetChar_spec _ S0) as (-> & -> & _).
    destruct (sextetChar_spec _ S1) as (-> & -> & _).
    destruct (sextetChar_spec _ S2) as (-> & -> & _).
    destruct (sextetChar_spec _ S3) as (-> & -> & _).
    cbn [bytesOfSextets]. rewrite IH.
    set (m := (((n / 262144 * 64 + (n / 4096) mod 64) * 64 + (n / 64) mod 64) * 64
               + n mod 64)%N).
    assert (Hm : m = n) by (subst m; divmod).
    rewrite Hm.
    replace (n / 65536)%N with x by (subst n; divmod).
    replace ((n / 256) mod 256)%N with y by (subst n; divmod).
    replace (n mod 256)%N with z by (subst n; divmod).
    subst x y z. now rewrite !byteOfN_to_N.
Qed.

Lemma str_app (a b : list ascii) : str (a ++ b) = str a +:+ str b.
Proof. unfold str. induction a as [|c a IH]; [reflexivity|]. simpl. now rewrite IH. Qed.

Lemma str_length (l : list ascii) : String.length (str l) = List.length l.
Proof. now rewrite <- chars_length, chars_str. Qed.

(** [toStringBase64] yields alphabet characters followed by at most two
    padding characters, a whole number of groups of four in all. *)
Lemma toStringBase64_shape (buf : Buffer) :
  exists body k,
    toStringBase64 buf = body ++ repeat padding k
    /\ forallb isBase64Char body = true
    /\ k <= 2 /\ (List.length body + k) mod 4 = 0.
Proof.
  induction buf as [|a|a b|a b c l (body & k & IH & Hb & Hk & Hm)] using bytes_ind3.
  - exists [], 0. repeat split; auto.
  - sextet_bounds. set (n := Byte.to_N a) in *.
    exists [sextetChar (n / 4); sextetChar ((n mod 4) * 16)], 2.
    assert (S0 : (n / 4 < 64)%N) by divmod.
    assert (S1 : (n mod 4 * 16 < 64)%N) by divmod.
    destruct (sextetChar_spec _ S0) as (_ & _ & E0).
    destruct (sextetChar_spec _ S1) as (_ & _ & E1).
    cbn [forallb]. rewrite E0, E1. repeat split; auto.
  - sextet_bounds. set (n := (Byte.to_N a * 256 + Byte.to_N b)%N).
    exists [sextetChar (n / 1024); sextetChar ((n / 16) mod 64);
            sextetChar ((n mod 16) * 4)], 1.
    assert (S0 : (n / 1024 < 64)%N) by (subst n; divmod).
    assert (S1 : ((n / 16) mod 64 < 64)%N) by divmod.
    assert (S2 : (n mod 16 * 4 < 64)%N) by divmod.
    destruct (sextetChar_spec _ S0) as (_ & _ & E0).
    destruct (sextetChar_spec _ S1) as (_ & _ & E1).
    destruct (sextetChar_spec _ S2) as (_ & _ & E2).
    cbn [forallb]. rewrite E0, E1, E2. repeat split; auto.
  - sextet_bounds.
    set (n := ((Byte.to_N a * 256 + Byte.to_N b) * 256 + Byte.to_N c)%N).
    exists (sextetChar (n / 262144) :: sextetChar ((n / 4096) mod 64)
              :: sextetChar ((n / 64) mod 64) :: sextetChar (n mod 64) :: body), k.
    assert (S0 : (n / 262144 < 64)%N) by (subst n; divmod).
    assert (S1 : ((n / 4096) mod 64 < 64)%N) by divmod.
    assert (S2 : ((n / 64) mod 64 < 64)%N) by divmod.
    assert (S3 : (n mod 64 < 64)%N) by divmod.
    destruct (sextetChar_spec _ S0) as (_ & _ & E0).
    destruct (sextetChar_spec _ S1) as (_ & _ & E1).
    destruct (sextetChar_spec _ S2) as (_ & _ & E2).
    destruct (sextetChar_spec _ S3) as (_ & _ & E3).
    cbn [toStringBase64 forallb]. fold n. rewrite IH, E0, E1, E2, E3, Hb.
    repeat split; auto.
    cbn [List.length].
    replace (S (S (S (S (List.length body)))) + k) with (List.length body + k + 1 * 4) by lia.
    now rewrite Nat.Div0.mod_add.
Qed.

(** *** The substitutions of the URL-safe alphabet *)

Lemma replaceAll_chr (a b : ascii) (l : list ascii) :
  replaceAll (chr a) (String b EmptyString) (str l) = str (map (swap a b) l).
Proof.
  unfold chr. rewrite replaceAll_cls, chars_str. f_equal.
  induction l as [|c l IH]; [reflexivity|].
  cbn [flat_map map]. rewrite IH. unfold swap, Char.isChar.
  destruct (Ascii.eqb a c); reflexivity.
Qed.

Lemma toUrl_spec (c : ascii) :
  isBase64Char c = true ->
  fromUrl (toUrl c) = c /\ urlSafe (toUrl c) = true
  /\ Ascii.eqb (toUrl c) padding = false.
Proof.
  intros H.
  assert (Hall : forallb (fun c =>
     Ascii.eqb (fromUrl (toUrl c)) c && urlSafe (toUrl c)
     && negb (Ascii.eqb (toUrl c) padding))%bool alphabet = true)
    by (vm_compute; reflexivity).
  rewrite forallb_forall in Hall.
  unfold isBase64Char in H. apply existsb_exists in H as (x & Hx & E).
  apply Ascii.eqb_eq in E. subst x.
  apply Hall in Hx.
  apply andb_prop in Hx as [Hx H3]. apply andb_prop in Hx as [H1 H2].
  apply Ascii.eqb_eq in H1. apply negb_true_iff in H3. auto.
Qed.

Lemma toUrl_padding k : map toUrl (repeat padding k) = repeat padding k.
Proof. induction k; cbn; [reflexivity|]. now f_equal. Qed.

Lemma map_toUrl_body (body : list ascii) :
  forallb isBase64Char body = true ->
  map fromUrl (map toUrl body) = body
  /\ forallb urlSafe (map toUrl body) = true
  /\ forallb (fun c => negb (Ascii.eqb c padding)) (map toUrl body) = true.
Proof.
  induction body as [|c body IH]; cbn [map forallb]; [auto|].
  intros H. apply andb_prop in H as [Hc Hb].
  destruct (toUrl_spec c Hc) as (E1 & E2 & E3).
  destruct (IH Hb) as (I1 & I2 & I3).
  rewrite E1, E2, E3, I1, I2, I3. auto.
Qed.

(** *** Removing the trailing padding: [/=+$/g] *)

Lemma consumed_all b b' (w : list ascii) :
  consumed (mkPos b w) (mkPos b' []) = w.
Proof. rewrite <- (app_nil_r w) at 1. apply consumed_app. Qed.

Lemma repeat_shift (c : ascii) j (b : list ascii) :
  repeat c j ++ c :: b = repeat c (S j) ++ b.
Proof. induction j as [|j IH]; cbn; [reflexivity|]. cbn in IH. now rewrite IH. Qed.

Section Runs.
Context {R : Type}.

Lemma starLoop_run (c : ascii) (K : mstate -> option R) (x : R) : forall j b cs,
  K (mkSt (mkPos (repeat c j ++ b) []) cs) = Some x ->
  starLoop (rmatch (chr c)) true j (mkSt (mkPos b (repeat c j)) cs) K = Some x.
Proof.
  induction j as [|j IH]; intros b cs HK; [exact HK|].
  cbn [starLoop repeat rmatch chr after at_ before caps].
  unfold Char.isChar at 1. rewrite Ascii.eqb_refl.
  unfold remaining at 1 2. cbn [at_ after List.length].
  rewrite repeat_length.
  replace (j <? S j)%nat with true by (symmetry; apply Nat.ltb_lt; lia).
  rewrite IH; [reflexivity|].
  now rewrite repeat_shift.
Qed.
End Runs.

Lemma matchAt_trailingPadding_run k b :
  matchAt trailingPadding (mkPos b (repeat padding (S k))) =
  Some (mkFound (mkPos b (repeat padding (S k)))
                (mkPos (repeat padding (S k) ++ b) []) []).
Proof.
  unfold matchAt, trailingPadding, plus.
  cbn [rmatch repeat chr after at_ before caps].
  unfold Char.isChar at 1, padding at 1. cbn [Ascii.eqb Bool.eqb].
  unfold remaining. cbn [at_ after]. rewrite repeat_length.
  rewrite (starLoop_run "="%char _
             (mkFound (mkPos b ("="%char :: repeat padding k))
                      (mkPos (repeat padding (S k) ++ b) []) [])).
  - reflexivity.
  - cbn [rmatch atEol at_ after caps].
    change "="%char with padding. now rewrite repeat_shift.
Qed.

Lemma searchFrom_trailingPadding_skip (pre : list ascii) : forall b aft,
  forallb (fun c => negb (Ascii.eqb c padding)) pre = true ->
  searchFrom trailingPadding b (pre ++ aft) =
  searchFrom trailingPadding (rev pre ++ b) aft.
Proof.
  induction pre as [|c pre IH]; intros b aft H; [reflexivity|].
  cbn [forallb] in H. apply andb_prop in H as [Hc Hpre].
  cbn [app searchFrom].
  assert (E : matchAt trailingPadding (mkPos b (c :: pre ++ aft)) = None).
  { unfold matchAt, trailingPadding, plus. cbn [rmatch chr after at_].
    unfold Char.isChar. rewrite Ascii.eqb_sym.
    apply negb_true_iff in Hc. unfold padding in Hc. now rewrite Hc. }
  rewrite E, IH by assumption. cbn [rev]. now rewrite <- app_assoc.
Qed.

Lemma searchFrom_hit r bef aft f :
  matchAt r (mkPos bef aft) = Some f -> searchFrom r bef aft = Some f.
Proof. intros H. destruct aft; cbn [searchFrom]; now rewrite H. Qed.

Lemma replaceAll_trailingPadding (body : list ascii) (k : nat) :
  forallb (fun c => negb (Ascii.eqb c padding)) body = true ->
  replaceAll trailingPadding EmptyString (str (body ++ repeat padding k)) = str body.
Proof.
  intros Hb. unfold replaceAll. rewrite chars_str. f_equal.
  cbn [replaceAllFrom]. rewrite searchFrom_trailingPadding_skip by assumption.
  destruct k as [|k].
  - cbn [repeat searchFrom]. rewrite !app_nil_r.
    change (matchAt trailingPadding (mkPos (rev body) [])) with (@None found).
    reflexivity.
  - rewrite (searchFrom_hit _ _ _ _ (matchAt_trailingPadding_run k _)).
    unfold matched. cbn [mStart mEnd after before].
    rewrite consumed_all, consumed_app. cbn [repeat chars app].
    destruct (String.length (str (body ++ padding :: repeat padding k)));
      cbn; now rewrite app_nil_r.
Qed.

(** C10. Decoding the base64url text of a buffer gives the buffer back,
    and that text holds none of the characters [+], [/] and [=]. *)
Theorem base64url_roundtrip (buf : Buffer) :
  base64UrlToBuffer (bufferToBase64Url buf) = buf
  /\ forallb urlSafe (chars (bufferToBase64Url buf)) = true.
Proof.
  destruct (toStringBase64_shape buf) as (body & k & E & Hb & Hk & Hm).
  destruct (map_toUrl_body body Hb) as (I1 & I2 & I3).
  assert (Eenc : bufferToBase64Url buf = str (map toUrl body)).
  { unfold bufferToBase64Url. rewrite E, !replaceAll_chr, map_map.
    change (fun x => swap "/" "_" (swap "+" "-" x)) with toUrl.
    rewrite map_app, toUrl_padding.
    now apply replaceAll_trailingPadding. }
  rewrite Eenc, chars_str. split; [|exact I2].
  unfold base64UrlToBuffer. rewrite !replaceAll_chr, map_map.
  change (fun x => swap "_" "/" (swap "-" "+" x)) with fromUrl.
  rewrite I1, str_length.
  replace ((4 - List.length body mod 4) mod 4) with k.
  - unfold repeatPadding. rewrite <- str_app, <- E.
    unfold fromBase64. rewrite chars_str. apply fromBase64_toString.
  - clear -Hk Hm. rewrite <- Nat.Div0.add_mod_idemp_l in Hm.
    pose proof (Nat.mod_upper_bound (List.length body) 4 ltac:(lia)) as Hr.
    destruct (List.length body mod 4) as [|[|[|[|r]]]]; [| | | |lia];
      destruct k as [|[|[|k]]]; try lia; try reflexivity; discriminate Hm.
Qed.

(** ** The recognizers *)

Ltac all_chars c := destruct c as [[] [] [] [] [] [] [] []].

Lemma toLower_idem (c : ascii) : Char.toLower (Char.toLower c) = Char.toLower c.
Proof. all_chars c; reflexivity. Qed.

Lemma toLowerCase_idem (s : string) : toLowerCase (toLowerCase s) = toLowerCase s.
Proof.
  unfold toLowerCase. rewrite chars_str, map_map. f_equal.
  apply map_ext. intros c. apply toLower_idem.
Qed.

Lemma localChar_notSpaceAt c : localChar c = true -> notSpaceAt c = true.
Proof. intros H. all_chars c; try reflexivity; discriminate H. Qed.

Lemma domainChar_notSpaceAt c : domainChar c = true -> notSpaceAt c = true.
Proof. intros H. all_chars c; try reflexivity; discriminate H. Qed.

Lemma isAlpha_notSpaceAt c : Char.isAlpha c = true -> notSpaceAt c = true.
Proof. intros H. all_chars c; try reflexivity; discriminate H. Qed.

(** *** Inclusions between patterns *)

Lemma Matches_cls_mono (q q' : ascii -> bool) p p' :
  (forall c, q c = true -> q' c = true) ->
  Matches (Cls q) p p' -> Matches (Cls q') p p'.
Proof. intros Hq M. inversion M; subst. constructor. auto. Qed.

Lemma Matches_cls_step (q : ascii -> bool) p p' :
  Matches (Cls q) p p' -> List.length (after p') < List.length (after p).
Proof. intros M. inversion M; subst. cbn. lia. Qed.

Lemma Matches_star_mono g g' (q q' : ascii -> bool) p p' :
  (forall c, q c = true -> q' c = true) ->
  Matches (Star g (Cls q)) p p' -> Matches (Star g' (Cls q')) p p'.
Proof.
  intros Hq M. remember (Star g (Cls q)) as r eqn:Er.
  induction M; try discriminate.
  - constructor.
  - injection Er as -> ->. eapply M_star_cons.
    + eapply Matches_cls_mono; eassumption.
    + assumption.
    + now apply IHM2.
Qed.

Lemma Matches_plus_mono (q q' : ascii -> bool) p p' :
  (forall c, q c = true -> q' c = true) ->
  Matches (plus (Cls q)) p p' -> Matches (plus (Cls q')) p p'.
Proof.
  intros Hq M. unfold plus in *. inversion M; subst. econstructor.
  - eapply Matches_cls_mono; eassumption.
  - eapply Matches_star_mono; eassumption.
Qed.

Lemma extractRegex_emailShape p p' :
  Matches extractRegex p p' -> Matches emailShape p p'.
Proof.
  unfold extractRegex, emailShape. cbn [seqs]. intros M.
  inversion M as [| |? ? ? p1 ? ML M1| | | | | | | |]; subst. clear M.
  inversion M1 as [| |? ? ? p2 ? MA M2| | | | | | | |]; subst. clear M1.
  inversion M2 as [| |? ? ? p3 ? MD M3| | | | | | | |]; subst. clear M2.
  inversion M3 as [| |? ? ? p4 ? MP M4| | | | | | | |]; subst. clear M3.
  inversion M4 as [| |? ? ? p5 ? MT1 M5| | | | | | | |]; subst. clear M4.
  inversion M5 as [| |? ? ? p6 ? MT2 M6| | | | | | | |]; subst. clear M5.
  econstructor; [eapply Matches_plus_mono; [apply localChar_notSpaceAt|eassumption]|].
  econstructor; [eassumption|].
  econstructor; [eapply Matches_plus_mono; [apply domainChar_notSpaceAt|eassumption]|].
  econstructor; [eassumption|].
  unfold plus. econstructor.
  - eapply Matches_cls_mono; [apply isAlpha_notSpaceAt|eassumption].
  - eapply M_star_cons.
    + eapply Matches_cls_mono; [apply isAlpha_notSpaceAt|eassumption].
    + eapply Matches_cls_step; eassumption.
    + eapply Matches_star_mono; [apply isAlpha_notSpaceAt|eassumption].
Qed.

Lemma extractRegex_ends : endsInEmailShape extractRegex.
Proof. intros p p' M. exists p. split; [now apply extractRegex_emailShape|reflexivity]. Qed.

Lemma labeled_ends labels : endsInEmailShape (labeled labels emailShape).
Proof.
  intros p p' M. unfold labeled in M. cbn [seqs] in M.
  inversion M as [| |? ? ? p1 ? ML M1| | | | | | | |]; subst. clear M.
  inversion M1 as [| |? ? ? p2 ? MC M2| | | | | | | |]; subst. clear M1.
  inversion M2 as [| |? ? ? p3 ? MS M3| | | | | | | |]; subst. clear M2.
  inversion M3; subst. exists p3. split; [assumption|].
  apply Matches_text in ML as [T1 _], MC as [T2 _], MS as [T3 _]. congruence.
Qed.

(** *** Texts without the email shape *)

Lemma exec_None_without_shape r text :
  endsInEmailShape r -> hasEmailShape text = false -> exec r text = None.
Proof.
  intros Hr Hno. destruct (exec r text) as [f|] eqn:E; [|reflexivity].
  unfold exec in E. apply searchFrom_sound in E as [HT M].
  apply Hr in M as (p3 & M3 & T3).
  apply search_complete in M3. rewrite T3, HT in M3. cbn [rev app] in M3.
  unfold hasEmailShape, test, exec in Hno.
  destruct (searchFrom emailShape [] (chars text)); [discriminate|congruence].
Qed.

Lemma labeledEmail_None_without_shape patterns text :
  Forall endsInEmailShape patterns -> hasEmailShape text = false ->
  labeledEmail patterns text = None.
Proof.
  intros Hp Hno. induction Hp as [|r rs Hr _ IH]; [reflexivity|].
  cbn [labeledEmail]. now rewrite (exec_None_without_shape r text Hr Hno).
Qed.

Lemma extractEmails_nil_without_shape text :
  hasEmailShape text = false -> extractEmails text = [].
Proof.
  intros Hno. unfold extractEmails, matchAll.
  rewrite scanAll_nil; [reflexivity|].
  apply (exec_None_without_shape _ _ extractRegex_ends Hno).
Qed.

Lemma emailOf_None_without_shape patterns keep text :
  Forall endsInEmailShape patterns -> hasEmailShape text = false ->
  emailOf patterns keep text = None.
Proof.
  intros Hp Hno. unfold emailOf.
  rewrite (labeledEmail_None_without_shape _ _ Hp Hno).
  now rewrite (extractEmails_nil_without_shape _ Hno).
Qed.

Lemma parsers_None_without_shape text subject :
  hasEmailShape text = false ->
  Forall (fun p : LeadParser => p text subject = None) parsers.
Proof.
  intros Hno. unfold parsers. repeat constructor.
  - unfold parseZillowLead. destruct (negb _); [reflexivity|].
    destruct (labeledName _ _). rewrite emailOf_None_without_shape; auto.
    repeat constructor; apply labeled_ends.
  - unfold parseRealtorLead. destruct (negb _); [reflexivity|].
    destruct (labeledName _ _). rewrite emailOf_None_without_shape; auto.
    repeat constructor; apply labeled_ends.
  - unfold parseFacebookLead. destruct (negb _); [reflexivity|].
    destruct (labeledName _ _). rewrite emailOf_None_without_shape; auto.
    repeat constructor; apply labeled_ends.
  - unfold parseGenericLead.
    now rewrite (extractEmails_nil_without_shape _ Hno).
Qed.

(** *** The chain *)

Lemma tryParsers_Ok ps text subject lead :
  tryParsers ps text subject = Ok lead <->
  exists before p after,
    ps = before ++ p :: after /\ p text subject = Some lead
    /\ isValidEmail (email lead) = true
    /\ Forall (rejected text subject) before.
Proof.
  induction ps as [|q ps IH]; cbn [tryParsers].
  - split; [discriminate|]. intros (b & p & a & E & _). now destruct b.
  - destruct (q text subject) as [l|] eqn:Eq;
      [destruct (isValidEmail (email l)) eqn:Ev|].
    + split.
      * intros H. injection H as <-. exists [], q, ps. repeat split; auto.
      * intros (b & p & a & E & Hp & Hv & Hb). destruct b as [|q' b].
        -- injection E as <- <-. congruence.
        -- injection E as <- ->. apply List.Forall_cons_iff in Hb as [Hq _].
           specialize (Hq l Eq). congruence.
    + rewrite IH. split.
      * intros (b & p & a & -> & Hp & Hv & Hb). exists (q :: b), p, a.
        repeat split; auto. constructor; [|assumption].
        intros l' El'. congruence.
      * intros (b & p & a & E & Hp & Hv & Hb). destruct b as [|q' b].
        -- injection E as <- <-. congruence.
        -- injection E as <- ->. apply List.Forall_cons_iff in Hb as [_ Hb].
           now exists b, p, a.
    + rewrite IH. split.
      * intros (b & p & a & -> & Hp & Hv & Hb). exists (q :: b), p, a.
        repeat split; auto. constructor; [|assumption].
        intros l' El'. congruence.
      * intros (b & p & a & E & Hp & Hv & Hb). destruct b as [|q' b].
        -- injection E as <- <-. congruence.
        -- injection E as <- ->. apply List.Forall_cons_iff in Hb as [_ Hb].
           now exists b, p, a.
Qed.

Lemma tryParsers_Throw ps text subject e :
  tryParsers ps text subject = Throw e <->
  e = noLeadError /\ Forall (rejected text subject) ps.
Proof.
  induction ps as [|q ps IH]; cbn [tryParsers].
  - split; [intros H; injection H as <-; auto|now intros [-> _]].
  - destruct (q text subject) as [l|] eqn:Eq;
      [destruct (isValidEmail (email l)) eqn:Ev|].
    + split; [discriminate|]. intros [_ H].
      apply List.Forall_cons_iff in H as [Hq _]. specialize (Hq l Eq). congruence.
    + rewrite IH. split; intros [He H]; (split; [assumption|]).
      * constructor; [|assumption]. intros l' El'. congruence.
      * now apply List.Forall_cons_iff in H as [_ H].
    + rewrite IH. split; intros [He H]; (split; [assumption|]).
      * constructor; [|assumption]. intros l' El'. congruence.
      * now apply List.Forall_cons_iff in H as [_ H].
Qed.

(** *** The email of a candidate is lower-cased *)

Lemma uniq_In (l : list string) x : In x (uniq l) -> In x l.
Proof.
  induction l as [|y l IH]; cbn [uniq]; [auto|].
  intros [<-|H]; [now left|]. right. apply IH. now apply filter_In in H.
Qed.

Lemma extractEmails_lower text e :
  In e (extractEmails text) -> toLowerCase e = e.
Proof.
  unfold extractEmails. intros H. apply uniq_In in H.
  apply in_map_iff in H as (m & <- & _). apply toLowerCase_idem.
Qed.

Lemma labeledEmail_lower patterns text e :
  labeledEmail patterns text = Some e -> toLowerCase e = e.
Proof.
  induction patterns as [|r rs IH]; cbn [labeledEmail]; [discriminate|].
  destruct (exec r text) as [f|]; [|assumption].
  destruct (isValidEmail (group1 f)); [|assumption].
  intros H. injection H as <-. apply toLowerCase_idem.
Qed.

Lemma hd_error_In {A} (l : list A) x : List.hd_error l = Some x -> In x l.
Proof. destruct l; cbn; [discriminate|]. intros H. injection H as <-. now left. Qed.

Lemma emailOf_lower patterns keep text e :
  emailOf patterns keep text = Some e -> toLowerCase e = e.
Proof.
  unfold emailOf. destruct (falsy (labeledEmail patterns text)).
  - intros H. apply hd_error_In, filter_In in H as [H _].
    now apply extractEmails_lower in H.
  - apply labeledEmail_lower.
Qed.

Lemma parsers_lower text subject :
  Forall (fun p : LeadParser =>
            forall l, p text subject = Some l -> toLowerCase (email l) = email l)
         parsers.
Proof.
  unfold parsers. repeat constructor; intros l.
  - unfold parseZillowLead. destruct (negb _); [discriminate|].
    destruct (labeledName _ _).
    destruct (emailOf _ _ _) as [e|] eqn:E; [|discriminate].
    destruct (String.eqb e EmptyString); [discriminate|].
    intros H. injection H as <-. cbn [email]. now apply emailOf_lower in E.
  - unfold parseRealtorLead. destruct (negb _); [discriminate|].
    destruct (labeledName _ _).
    destruct (emailOf _ _ _) as [e|] eqn:E; [|discriminate].
    destruct (String.eqb e EmptyString); [discriminate|].
    intros H. injection H as <-. cbn [email]. now apply emailOf_lower in E.
  - unfold parseFacebookLead. destruct (negb _); [discriminate|].
    destruct (labeledName _ _).
    destruct (emailOf _ _ _) as [e|] eqn:E; [|discriminate].
    destruct (String.eqb e EmptyString); [discriminate|].
    intros H. injection H as <-. cbn [email]. now apply emailOf_lower in E.
  - unfold parseGenericLead.
    destruct (List.filter genericKeep (extractEmails text)) as [|e es] eqn:E;
      [discriminate|].
    assert (Hin : In e (extractEmails text)).
    { assert (H : In e (List.filter genericKeep (extractEmails text)))
        by (rewrite E; now left).
      now apply filter_In in H. }
    destruct (labeledName _ _) as [f1 l1].
    destruct (if falsy f1 then _ else _) as [f2 l2].
    destruct (if falsy f2 then _ else _) as [f3 l3].
    intros H. injection H as <-. cbn [email]. now apply extractEmails_lower in Hin.
Qed.

(** C3. [parseLeadFromText] goes through Zillow, Realtor, Facebook and
    the generic recognizer in this order and returns the first candidate
    whose email is valid; that email is lower-cased and valid.  It throws
    the no-lead error exactly when no recognizer yields such a candidate,
    which is the case for every text without a part of the email
    shape. *)
Theorem parseLeadFromText_chain (text subject : string) :
  parsers = [parseZillowLead; parseRealtorLead; parseFacebookLead; parseGenericLead]
  /\ (forall lead,
        parseLeadFromText text subject = Ok lead <->
        exists before p after,
          parsers = before ++ p :: after /\ p text subject = Some lead
          /\ isValidEmail (email lead) = true
          /\ Forall (rejected text subject) before)
  /\ (forall lead,
        parseLeadFromText text subject = Ok lead ->
        toLowerCase (email lead) = email lead /\ isValidEmail (email lead) = true)
  /\ (forall e,
        parseLeadFromText text subject = Throw e <->
        e = noLeadError /\ Forall (rejected text subject) parsers)
  /\ (hasEmailShape text = false ->
        parseLeadFromText text subject = Throw noLeadError).
Proof.
  split; [reflexivity|]. split; [intros lead; apply tryParsers_Ok|].
  split; [|split; [intros e; apply tryParsers_Throw|]].
  - intros lead H. apply tryParsers_Ok in H as (b & p & a & E & Hp & Hv & _).
    split; [|assumption].
    pose proof (parsers_lower text subject) as HL.
    rewrite List.Forall_forall in HL. apply (HL p); [|assumption].
    rewrite E. apply in_elt.
  - intros Hno. apply tryParsers_Throw. split; [reflexivity|].
    eapply List.Forall_impl; [|apply (parsers_None_without_shape text subject Hno)].
    intros p Hp l Hl. cbn in Hp. congruence.
Qed.

Lemma parseLeadFromText_chain_witness :
  hasEmailShape "Please call me back at 555-123-4567, thanks @ all" = false
  /\ parseLeadFromText "Please call me back at 555-123-4567, thanks @ all" "Zillow"
     = Throw noLeadError
  /\ (forall lead,
        parseLeadFromText "Email: JOHN@Example.com" EmptyString = Ok lead ->
        toLowerCase (email lead) = email lead /\ isValidEmail (email lead) = true)
  /\ parseLeadFromText "Email: JOHN@Example.com" EmptyString
     = Ok (mkLeadData "john@example.com" (Some "John") None None generic).
Proof.
  assert (H : hasEmailShape "Please call me back at 555-123-4567, thanks @ all" = false)
    by (vm_compute; reflexivity).
  split; [exact H|]. split.
  - exact (proj2 (proj2 (proj2 (proj2
      (parseLeadFromText_chain "Please call me back at 555-123-4567, thanks @ all"
                               "Zillow")))) H).
  - split.
    + exact (proj1 (proj2 (proj2 (parseLeadFromText_chain "Email: JOHN@Example.com" EmptyString)))).
    + vm_compute. reflexivity.
Defined.

(** *** The extracted addresses *)

Lemma scanAll_In r : forall fuel bef aft w,
  In w (scanAll r fuel bef aft) ->
  exists f, Matches r (mStart f) (mEnd f) /\ w = matched f.
Proof.
  induction fuel as [|fuel IH]; intros bef aft w H; cbn [scanAll] in H; [destruct H|].
  destruct (searchFrom r bef aft) as [f|] eqn:E; [|destruct H].
  apply searchFrom_sound in E as [_ M].
  destruct (matched f) as [|c m] eqn:Em.
  - destruct (after (mEnd f)) as [|c aft'].
    + destruct H as [<-|[]]. exists f. now rewrite Em.
    + destruct H as [<-|H]; [exists f; now rewrite Em|]. now apply IH in H.
  - destruct H as [<-|H]; [exists f; now rewrite Em|]. now apply IH in H.
Qed.

Lemma emailShape_moves p p' :
  Matches emailShape p p' -> List.length (after p') < List.length (after p).
Proof.
  unfold emailShape, plus. cbn [seqs]. intros M.
  inversion M as [| |? ? ? p1 ? ML M1| | | | | | | |]; subst. clear M.
  inversion ML as [| |? ? ? p0 ? MC MS| | | | | | | |]; subst. clear ML.
  apply Matches_cls_step in MC.
  apply Matches_text in MS as [_ HS], M1 as [_ H1]. lia.
Qed.

Lemma extractEmails_nonempty text e :
  In e (extractEmails text) -> e <> EmptyString.
Proof.
  unfold extractEmails, matchAll. intros H. apply uniq_In in H.
  apply in_map_iff in H as (m & <- & H). apply in_map_iff in H as (w & <- & H).
  apply scanAll_In in H as (f & M & ->).
  apply extractRegex_emailShape, emailShape_moves in M.
  unfold matched, consumed, toLowerCase. rewrite chars_str.
  destruct (after (mStart f)) as [|c aft]; [cbn in M; lia|].
  destruct (List.length (c :: aft) - List.length (after (mEnd f))) eqn:En; [lia|].
  cbn. discriminate.
Qed.

Lemma fallback_first (patterns : list regex) (keep : string -> bool) text :
  labeledEmail patterns text = None ->
  match emailOf patterns keep text with
  | Some e => if String.eqb e EmptyString then None else Some e
  | None => None
  end = List.hd_error (List.filter keep (extractEmails text)).
Proof.
  intros Hl. unfold emailOf. rewrite Hl. cbn [falsy].
  destruct (List.hd_error _) as [e|] eqn:E; [|reflexivity].
  apply hd_error_In, filter_In in E as [E _].
  apply extractEmails_nonempty in E.
  now apply String.eqb_neq in E as ->.
Qed.

(** C4, as the code has it. When no labeled email field matches, the
    email of a recognizer is the first extracted address, in text order,
    that its own filter keeps, and the recognizer reports no match when
    none is kept.  Zillow drops the addresses containing [zillow];
    Realtor those containing [realtor.com], [move.com] or [noreply]; the
    generic recognizer those containing [noreply], [no-reply],
    [donotreply], [mailer-daemon] or [postmaster]. *)
Theorem fallback_email (text subject : string) :
  (zillowSignature text subject = true ->
   labeledEmail zillowEmailPatterns text = None ->
   option_map email (parseZillowLead text subject)
   = List.hd_error
       (List.filter (fun e => negb (includes e "zillow")
                              && negb (includes e "zillowgroup"))%bool
                    (extractEmails text)))
  /\ (realtorSignature text subject = true ->
      labeledEmail realtorEmailPatterns text = None ->
      option_map email (parseRealtorLead text subject)
      = List.hd_error
          (List.filter (fun e => negb (includes e "realtor.com")
                                 && negb (includes e "move.com")
                                 && negb (includes e "noreply"))%bool
                       (extractEmails text)))
  /\ option_map email (parseGenericLead text subject)
     = List.hd_error
         (List.filter (fun e => negb (includes e "noreply")
                                && negb (includes e "no-reply")
                                && negb (includes e "donotreply")
                                && negb (includes e "mailer-daemon")
                                && negb (includes e "postmaster"))%bool
                      (extractEmails text)).
Proof.
  split; [|split].
  - intros Hsig Hl. rewrite <- (fallback_first zillowEmailPatterns _ text Hl).
    unfold parseZillowLead. rewrite Hsig. cbn [negb].
    destruct (labeledName _ _).
    change (fun e => (negb (includes e "zillow")
                      && negb (includes e "zillowgroup"))%bool) with zillowKeep.
    destruct (emailOf _ _ _) as [e|]; [|reflexivity].
    now destruct (String.eqb e EmptyString).
  - intros Hsig Hl. rewrite <- (fallback_first realtorEmailPatterns _ text Hl).
    unfold parseRealtorLead. rewrite Hsig. cbn [negb].
    destruct (labeledName _ _).
    change (fun e => (negb (includes e "realtor.com") && negb (includes e "move.com")
                      && negb (includes e "noreply"))%bool) with realtorKeep.
    destruct (emailOf _ _ _) as [e|]; [|reflexivity].
    now destruct (String.eqb e EmptyString).
  - unfold parseGenericLead.
    change (fun e => (negb (includes e "noreply") && negb (includes e "no-reply")
                      && negb (includes e "donotreply")
                      && negb (includes e "mailer-daemon")
                      && negb (includes e "postmaster"))%bool) with genericKeep.
    destruct (List.filter genericKeep (extractEmails text)) as [|e es]; [reflexivity|].
    destruct (labeledName _ _) as [f1 l1].
    destruct (if falsy f1 then _ else _) as [f2 l2].
    destruct (if falsy f2 then _ else _) as [f3 l3]. reflexivity.
Qed.

Lemma fallback_email_witness :
  zillowSignature zillowSample EmptyString = true
  /\ labeledEmail zillowEmailPatterns zillowSample = None
  /\ option_map email (parseZillowLead zillowSample EmptyString) = Some "bob.stone@example.com"
  /\ realtorSignature realtorSample EmptyString = true
  /\ labeledEmail realtorEmailPatterns realtorSample = None
  /\ option_map email (parseRealtorLead realtorSample EmptyString) = Some "bob.stone@example.com".
Proof.
  assert (Z1 : zillowSignature zillowSample EmptyString = true) by (vm_compute; reflexivity).
  assert (Z2 : labeledEmail zillowEmailPatterns zillowSample = None)
    by (vm_compute; reflexivity).
  assert (R1 : realtorSignature realtorSample EmptyString = true) by (vm_compute; reflexivity).
  assert (R2 : labeledEmail realtorEmailPatterns realtorSample = None)
    by (vm_compute; reflexivity).
  destruct (fallback_email zillowSample EmptyString) as (HZ & _ & _).
  destruct (fallback_email realtorSample EmptyString) as (_ & HR & _).
  split; [exact Z1|]. split; [exact Z2|]. split.
  - rewrite (HZ Z1 Z2). vm_compute. reflexivity.
  - split; [exact R1|]. split; [exact R2|].
    rewrite (HR R1 R2). vm_compute. reflexivity.
Defined.

(** Zillow does not drop mailer addresses: the only address of this text
    is one, and Zillow returns it. *)
Lemma zillow_keeps_mailer_address :
  zillowSignature mailerSample EmptyString = true
  /\ labeledEmail zillowEmailPatterns mailerSample = None
  /\ extractEmails mailerSample = ["noreply@example.com"]
  /\ genericKeep "noreply@example.com" = false
  /\ option_map email (parseZillowLead mailerSample EmptyString) = Some "noreply@example.com".
Proof. vm_compute. repeat split. Qed.

(** ** The validators: emails, phone numbers, names *)

Lemma chars_app (a b : string) : chars (a +:+ b) = chars a ++ chars b.
Proof.
  unfold chars. induction a as [|c a IH]; [reflexivity|].
  change (c :: list_ascii_of_string (a +:+ b)
          = c :: (list_ascii_of_string a ++ list_ascii_of_string b)).
  now rewrite IH.
Qed.

Lemma chars_toLowerCase s : chars (toLowerCase s) = map Char.toLower (chars s).
Proof. unfold toLowerCase. apply chars_str. Qed.

Lemma toLower_isSpace c : Char.isSpace (Char.toLower c) = Char.isSpace c.
Proof. all_chars c; reflexivity. Qed.

Lemma toLower_notSpaceAt c : notSpaceAt (Char.toLower c) = notSpaceAt c.
Proof. all_chars c; reflexivity. Qed.

Lemma toLower_at c : Char.toLower c = "@"%char -> c = "@"%char.
Proof. all_chars c; intros H; try reflexivity; discriminate H. Qed.

Lemma toLower_dot c : Char.toLower c = "."%char -> c = "."%char.
Proof. all_chars c; intros H; try reflexivity; discriminate H. Qed.

(** *** [trim] *)

Lemma dropSpaces_spec (l : list ascii) :
  exists pre, l = pre ++ dropSpaces l /\ forallb Char.isSpace pre = true
    /\ match dropSpaces l with [] => True | c :: _ => Char.isSpace c = false end.
Proof.
  induction l as [|c l (pre & E & Hp & Hh)]; [exists []; now cbn|].
  cbn [dropSpaces]. destruct (Char.isSpace c) eqn:Ec.
  - exists (c :: pre). cbn. rewrite Ec, Hp. now rewrite <- E.
  - exists []. cbn. now rewrite Ec.
Qed.

Lemma dropSpaces_head (l : list ascii) :
  match l with [] => True | c :: _ => Char.isSpace c = false end ->
  dropSpaces l = l.
Proof. destruct l as [|c l]; [reflexivity|]. cbn. now intros ->. Qed.

Lemma dropSpaces_idem l : dropSpaces (dropSpaces l) = dropSpaces l.
Proof.
  apply dropSpaces_head. now destruct (dropSpaces_spec l) as (_ & _ & _ & H).
Qed.

Lemma dropSpaces_map_toLower l :
  dropSpaces (map Char.toLower l) = map Char.toLower (dropSpaces l).
Proof.
  induction l as [|c l IH]; [reflexivity|]. cbn. rewrite toLower_isSpace.
  now destruct (Char.isSpace c).
Qed.

Lemma trim_toLowerCase s : trim (toLowerCase s) = toLowerCase (trim s).
Proof.
  unfold trim. rewrite chars_toLowerCase. unfold toLowerCase. rewrite chars_str.
  now rewrite dropSpaces_map_toLower, <- map_rev, dropSpaces_map_toLower, <- map_rev.
Qed.

(** The first character left by [trim] is no white space, nor the last. *)
Lemma trim_ends s :
  match chars (trim s) with [] => True | c :: _ => Char.isSpace c = false end
  /\ match rev (chars (trim s)) with [] => True | c :: _ => Char.isSpace c = false end.
Proof.
  unfold trim. rewrite chars_str, rev_involutive.
  destruct (dropSpaces_spec (chars s)) as (p1 & E1 & _ & H1).
  destruct (dropSpaces_spec (rev (dropSpaces (chars s)))) as (p2 & E2 & _ & H2).
  split; [|exact H2].
  set (X := dropSpaces (chars s)) in *. set (Y := dropSpaces (rev X)) in *.
  assert (EX : X = rev Y ++ rev p2).
  { rewrite <- rev_app_distr, <- E2. now rewrite rev_involutive. }
  destruct (rev Y) as [|c r] eqn:EY; [exact I|].
  rewrite EX in H1. exact H1.
Qed.

Lemma trim_fixed s :
  match chars s with [] => True | c :: _ => Char.isSpace c = false end ->
  match rev (chars s) with [] => True | c :: _ => Char.isSpace c = false end ->
  trim s = s.
Proof.
  intros H1 H2. unfold trim. rewrite (dropSpaces_head _ H1), (dropSpaces_head _ H2).
  now rewrite rev_involutive, str_chars.
Qed.

Lemma trim_idem s : trim (trim s) = trim s.
Proof. destruct (trim_ends s). now apply trim_fixed. Qed.

Lemma trim_nospace s :
  forallb (fun c => negb (Char.isSpace c)) (chars s) = true -> trim s = s.
Proof.
  intros H. assert (F : forall c, In c (chars s) -> Char.isSpace c = false).
  { intros c Hc. eapply forallb_forall in H; [|exact Hc]. now destruct (Char.isSpace c). }
  apply trim_fixed.
  - destruct (chars s) as [|c l]; [exact I|]. apply F. now left.
  - destruct (rev (chars s)) as [|c l] eqn:E; [exact I|].
    apply F. apply in_rev. rewrite E. now left.
Qed.

(** *** The shape of a valid email *)

Lemma Matches_emailShape_inv p p' :
  Matches emailShape p p' ->
  exists L D T,
    after p = L ++ "@"%char :: D ++ "."%char :: T ++ after p'
    /\ L <> [] /\ D <> [] /\ T <> []
    /\ forallb notSpaceAt L = true /\ forallb notSpaceAt D = true
    /\ forallb notSpaceAt T = true.
Proof.
  unfold emailShape. cbn [seqs]. intros M.
  inversion M as [| |? ? ? p1 ? ML M1| | | | | | | |]; subst. clear M.
  inversion M1 as [| |? ? ? p2 ? MA M2| | | | | | | |]; subst. clear M1.
  inversion M2 as [| |? ? ? p3 ? MD M3| | | | | | | |]; subst. clear M2.
  inversion M3 as [| |? ? ? p4 ? MP M4| | | | | | | |]; subst. clear M3.
  apply Matches_plus_cls in ML as (L & HL & QL & AL & _).
  apply Matches_chr in MA as (AA & _).
  apply Matches_plus_cls in MD as (D & HD & QD & AD & _).
  apply Matches_chr in MP as (AP & _).
  apply Matches_plus_cls in M4 as (T & HT' & QT & AT & _).
  exists L, D, T. split; [|auto 10]. now rewrite AL, AA, AD, AP, AT.
Qed.

Lemma Matches_emailShape_intro bef L D T aft :
  L <> [] -> D <> [] -> T <> [] ->
  forallb notSpaceAt L = true -> forallb notSpaceAt D = true ->
  forallb notSpaceAt T = true ->
  Matches emailShape
    (mkPos bef (L ++ "@"%char :: D ++ "."%char :: T ++ aft))
    (mkPos (rev T ++ "."%char :: rev D ++ "@"%char :: rev L ++ bef) aft).
Proof.
  intros. unfold emailShape. cbn [seqs].
  econstructor; [now apply plus_cls_run|].
  econstructor; [unfold chr; now constructor|].
  econstructor; [now apply plus_cls_run|].
  econstructor; [unfold chr; now constructor|].
  now apply plus_cls_run.
Qed.

Lemma test_emailRegex s : test emailRegex s = true <-> emailParts (chars s).
Proof.
  unfold test, exec, emailParts. split.
  - destruct (searchFrom emailRegex [] (chars s)) as [f|] eqn:E; [|discriminate].
    intros _. apply searchFrom_sound in E as [HT M].
    unfold emailRegex in M. cbn [seqs] in M.
    inversion M as [| |? ? ? p1 ? MB M1| | | | | | | |]; subst. clear M.
    inversion M1 as [| |? ? ? p2 ? MS ME| | | | | | | |]; subst. clear M1.
    inversion MB as [| | | | | | | |? ? HB| |]; subst. clear MB.
    inversion ME as [| | | | | | | | |? ? HE|]; subst. clear ME.
    apply Matches_emailShape_inv in MS as (L & D & T & EA & H).
    exists L, D, T. split; [|exact H].
    unfold atBol in HB. unfold atEol in HE. unfold textOf in HT. cbn [rev app] in HT.
    destruct (before (mStart f)); [|discriminate HB].
    destruct (after (mEnd f)); [|discriminate HE].
    cbn [rev app] in HT. rewrite <- HT, EA. now rewrite app_nil_r.
  - intros (L & D & T & E & HL & HD & HT & QL & QD & QT).
    assert (M : Matches emailRegex
                  (mkPos [] (chars s))
                  (mkPos (rev T ++ "."%char :: rev D ++ "@"%char :: rev L ++ []) [])).
    { unfold emailRegex. cbn [seqs]. rewrite E.
      econstructor; [now constructor|].
      econstructor; [|now constructor].
      rewrite <- (app_nil_r T) at 1.
      now apply Matches_emailShape_intro. }
    apply search_complete in M. unfold textOf in M. cbn [before after rev app] in M.
    now destruct (searchFrom emailRegex [] (chars s)).
Qed.

Lemma forallb_map_toLower (l : list ascii) :
  forallb notSpaceAt (map Char.toLower l) = forallb notSpaceAt l.
Proof.
  induction l as [|c l IH]; [reflexivity|]. cbn. now rewrite toLower_notSpaceAt, IH.
Qed.

Lemma emailParts_toLower (l : list ascii) :
  emailParts (map Char.toLower l) <-> emailParts l.
Proof.
  unfold emailParts. split.
  - intros (L & D & T & E & HL & HD & HT & QL & QD & QT).
    apply List.map_eq_app in E as (L' & r1 & -> & <- & E).
    apply List.map_eq_cons in E as (a & r2 & -> & Ha & E).
    apply List.map_eq_app in E as (D' & r3 & -> & <- & E).
    apply List.map_eq_cons in E as (d & T' & -> & Hd & <-).
    apply toLower_at in Ha. apply toLower_dot in Hd. subst a d.
    rewrite forallb_map_toLower in QL, QD, QT.
    exists L', D', T'. repeat split; auto.
    + intros ->. now apply HL.
    + intros ->. now apply HD.
    + intros ->. now apply HT.
  - intros (L & D & T & -> & HL & HD & HT & QL & QD & QT).
    exists (map Char.toLower L), (map Char.toLower D), (map Char.toLower T).
    rewrite !forallb_map_toLower. repeat split; auto.
    + now rewrite map_app; cbn [map]; rewrite map_app.
    + intros E. apply map_eq_nil in E. now apply HL.
    + intros E. apply map_eq_nil in E. now apply HD.
    + intros E. apply map_eq_nil in E. now apply HT.
Qed.

Lemma isValidEmail_parts email :
  isValidEmail email = true <-> emailParts (chars (trim email)).
Proof.
  unfold isValidEmail. rewrite test_emailRegex, chars_toLowerCase.
  apply emailParts_toLower.
Qed.

Lemma notSpaceAt_nospace (l : list ascii) :
  forallb notSpaceAt l = true ->
  forallb (fun c => negb (Char.isSpace c)) l = true.
Proof.
  intros H. apply forallb_forall. intros c Hc.
  eapply forallb_forall in H; [|exact Hc]. unfold notSpaceAt in H.
  now destruct (Char.isSpace c).
Qed.

Lemma emailParts_nospace (l : list ascii) :
  emailParts l -> forallb (fun c => negb (Char.isSpace c)) l = true.
Proof.
  intros (L & D & T & -> & _ & _ & _ & QL & QD & QT).
  rewrite forallb_app. cbn [forallb]. rewrite forallb_app. cbn [forallb].
  now rewrite !notSpaceAt_nospace.
Qed.

(** X1. [isValidEmail] accepts a string exactly when, white space at
    both ends removed, it is a non-empty part, an [@], a non-empty
    part, a dot and a non-empty part, none of the parts holding white
    space or an [@]; the answer does not change when the string is
    trimmed or lower-cased first. *)
Theorem isValidEmail_shape (email : string) :
  (isValidEmail email = true <->
   exists L D T,
     chars (trim email) = L ++ "@"%char :: D ++ "."%char :: T
     /\ L <> [] /\ D <> [] /\ T <> []
     /\ forallb notSpaceAt L = true /\ forallb notSpaceAt D = true
     /\ forallb notSpaceAt T = true)
  /\ isValidEmail (trim email) = isValidEmail email
  /\ isValidEmail (toLowerCase email) = isValidEmail email.
Proof.
  split; [apply isValidEmail_parts|]. unfold isValidEmail. split.
  - now rewrite trim_idem.
  - now rewrite trim_toLowerCase, toLowerCase_idem.
Qed.

(** *** What [extractEmails] returns *)

Lemma suffix_split {A} (x y a b : list A) :
  x ++ a = y ++ b -> List.length b <= List.length a ->
  a = firstn (List.length a - List.length b) a ++ b.
Proof.
  revert y. induction x as [|c x IH]; intros y E Hl.
  - cbn [app] in E. subst a. rewrite length_app.
    replace (List.length y + List.length b - List.length b) with (List.length y + 0) by lia.
    rewrite firstn_app_2. cbn. now rewrite app_nil_r.
  - destruct y as [|d y].
    + cbn [app] in E. subst b. cbn [List.length] in Hl. rewrite length_app in Hl. lia.
    + injection E as _ E. now apply (IH y).
Qed.

Lemma Matches_after r p p' :
  Matches r p p' -> after p = consumed p p' ++ after p'.
Proof.
  intros M. apply Matches_text in M as [HT Hl]. unfold textOf in HT.
  unfold consumed. eapply suffix_split; [symmetry; exact HT|exact Hl].
Qed.

Lemma scanAll_In_text r : forall fuel bef aft w,
  In w (scanAll r fuel bef aft) ->
  exists f, Matches r (mStart f) (mEnd f) /\ w = matched f
            /\ textOf (mStart f) = rev bef ++ aft.
Proof.
  induction fuel as [|fuel IH]; intros bef aft w H; cbn [scanAll] in H; [destruct H|].
  destruct (searchFrom r bef aft) as [f|] eqn:E; [|destruct H].
  apply searchFrom_sound in E as [HT M].
  pose proof (Matches_text _ _ _ M) as [HE _]. unfold textOf in HE.
  destruct (matched f) as [|c m] eqn:Em.
  - destruct (after (mEnd f)) as [|c aft'] eqn:Ea.
    + destruct H as [<-|[]]. exists f. now rewrite Em.
    + destruct H as [<-|H]; [exists f; now rewrite Em|].
      apply IH in H as (f' & M' & -> & HT'). exists f'. repeat split; auto.
      rewrite HT'. cbn [rev]. rewrite <- app_assoc. cbn [app].
      rewrite HE. exact HT.
  - destruct H as [<-|H]; [exists f; now rewrite Em|].
    apply IH in H as (f' & M' & -> & HT'). exists f'. repeat split; auto.
    rewrite HT', HE. exact HT.
Qed.

Lemma isPrefix_app (p b : list ascii) : isPrefix p (p ++ b) = true.
Proof.
  induction p as [|c p IH]; [now destruct b|]. cbn. now rewrite Ascii.eqb_refl, IH.
Qed.

Lemma isInfix_app (a p b : list ascii) : isInfix p (a ++ p ++ b) = true.
Proof.
  induction a as [|c a IH].
  - cbn [app]. destruct (p ++ b) eqn:E; cbn [isInfix]; rewrite <- E, isPrefix_app;
      reflexivity.
  - cbn [app isInfix]. rewrite IH. apply orb_true_r.
Qed.

Lemma uniq_NoDup (l : list string) : List.NoDup (uniq l).
Proof.
  induction l as [|x l IH]; cbn [uniq]; constructor.
  - intros H. apply filter_In in H as [_ H]. now rewrite String.eqb_refl in H.
  - now apply List.NoDup_filter.
Qed.

Lemma extractEmails_match text e :
  In e (extractEmails text) ->
  exists a w b,
    chars text = a ++ w ++ b /\ e = toLowerCase (str w) /\ emailParts w.
Proof.
  unfold extractEmails, matchAll. intros H. apply uniq_In in H.
  apply in_map_iff in H as (m & <- & H). apply in_map_iff in H as (w & <- & H).
  apply scanAll_In_text in H as (f & M & -> & HT).
  pose proof (Matches_after _ _ _ M) as EA.
  apply extractRegex_emailShape, Matches_emailShape_inv in M
    as (L & D & T & E & HP).
  exists (rev (before (mStart f))), (matched f), (after (mEnd f)).
  cbn [rev app] in HT. split; [|split; [reflexivity|]].
  - rewrite <- HT. unfold textOf, matched. now rewrite <- EA.
  - exists L, D, T. split; [|exact HP]. unfold matched.
    rewrite E in EA. apply (app_inv_tail (after (mEnd f))).
    rewrite <- EA. now rewrite <- !app_assoc; cbn [app]; rewrite <- !app_assoc.
Qed.

(** X2. The addresses returned by [extractEmails] are pairwise
    distinct; each of them passes [isValidEmail], is in lower case and
    occurs in the lower-cased text. *)
Theorem extractEmails_sound (text : string) :
  List.NoDup (extractEmails text)
  /\ Forall (fun e => isValidEmail e = true
                      /\ toLowerCase e = e
                      /\ includes (toLowerCase text) e = true)
            (extractEmails text).
Proof.
  split; [apply uniq_NoDup|]. apply List.Forall_forall. intros e H.
  pose proof (extractEmails_lower _ _ H) as HL.
  apply extractEmails_match in H as (a & w & b & ET & -> & HP).
  assert (HP' : emailParts (chars (toLowerCase (str w)))).
  { rewrite chars_toLowerCase, chars_str. now apply emailParts_toLower. }
  repeat split.
  - apply isValidEmail_parts. rewrite trim_nospace; [exact HP'|].
    now apply emailParts_nospace.
  - exact HL.
  - unfold includes. rewrite !chars_toLowerCase, chars_str, ET, !map_app.
    apply isInfix_app.
Qed.

(** *** Phone numbers *)

Lemma digitsOf_digits phone : forallb Char.isDigit (digitsOf phone) = true.
Proof.
  apply forallb_forall. intros c H. now apply filter_In in H.
Qed.

Lemma filter_id {A} (q : A -> bool) (l : list A) :
  forallb q l = true -> List.filter q l = l.
Proof.
  induction l as [|c l IH]; [reflexivity|]. cbn. intros H.
  apply andb_true_iff in H as [-> H]. now rewrite IH.
Qed.

Lemma filter_none {A} (q : A -> bool) (l : list A) :
  forallb (fun c => negb (q c)) l = true -> List.filter q l = [].
Proof.
  induction l as [|c l IH]; [reflexivity|]. cbn. intros H.
  apply andb_true_iff in H as [Hc H]. destruct (q c); [discriminate|]. now apply IH.
Qed.

Lemma isDigit_nospace (l : list ascii) :
  forallb Char.isDigit l = true -> forallb (fun c => negb (Char.isSpace c)) l = true.
Proof.
  intros H. apply forallb_forall. intros c Hc.
  eapply forallb_forall in H; [|exact Hc]. revert H. clear.
  all_chars c; intros H; try reflexivity; discriminate H.
Qed.

Lemma isDigit_head_not_plus (l : list ascii) :
  forallb Char.isDigit l = true -> isPrefix ["+"%char] l = false.
Proof.
  destruct l as [|c l]; [reflexivity|]. cbn. intros H.
  apply andb_true_iff in H as [H _]. revert H. clear.
  all_chars c; intros H; try reflexivity; discriminate H.
Qed.

Lemma searchFrom_bol_none r : forall aft c bef,
  searchFrom (Seq (Bol false) r) (c :: bef) aft = None.
Proof.
  induction aft as [|d aft IH]; intros c bef; cbn [searchFrom]; unfold matchAt; cbn;
    [reflexivity|apply IH].
Qed.

Lemma dropLeadingPlus_plus s : dropLeadingPlus (String "+" s) = s.
Proof.
  unfold dropLeadingPlus, exec. cbn [chars list_ascii_of_string searchFrom].
  unfold matchAt. cbn. apply str_chars.
Qed.

Lemma dropLeadingPlus_other s :
  isPrefix ["+"%char] (chars s) = false -> dropLeadingPlus s = s.
Proof.
  unfold dropLeadingPlus, exec. intros H.
  destruct (chars s) as [|c l]; [reflexivity|].
  cbn [isPrefix] in H. rewrite andb_true_r in H.
  cbn [searchFrom]. unfold matchAt.
  cbn [rmatch atBol at_ before after]. unfold chr.
  cbn [rmatch atBol at_ before after]. unfold Char.isChar. rewrite H.
  now rewrite searchFrom_bol_none.
Qed.

Lemma normalizePhone_eq phone :
  normalizePhone phone =
  if startsWith (trim phone) "+" then String "+" (str (digitsOf phone))
  else str (digitsOf phone).
Proof.
  unfold normalizePhone. rewrite stripNonDigits_filter. reflexivity.
Qed.

Lemma digitsOnly_eq phone :
  dropLeadingPlus (normalizePhone phone) = str (digitsOf phone).
Proof.
  rewrite normalizePhone_eq. destruct (startsWith (trim phone) "+").
  - apply dropLeadingPlus_plus.
  - apply dropLeadingPlus_other. rewrite chars_str.
    apply isDigit_head_not_plus, digitsOf_digits.
Qed.

Lemma normalizePhone_idem phone :
  normalizePhone (normalizePhone phone) = normalizePhone phone.
Proof.
  rewrite (normalizePhone_eq phone).
  pose proof (digitsOf_digits phone) as HD.
  destruct (startsWith (trim phone) "+").
  - rewrite normalizePhone_eq. rewrite trim_nospace.
    + unfold startsWith, digitsOf. cbn [chars list_ascii_of_string isPrefix List.filter].
      rewrite Ascii.eqb_refl. cbn.
      fold (chars (str (digitsOf phone))). rewrite chars_str.
      fold (digitsOf phone). now rewrite filter_id.
    + cbn [chars list_ascii_of_string forallb]. cbn.
      fold (chars (str (digitsOf phone))). rewrite chars_str.
      now apply isDigit_nospace.
  - rewrite normalizePhone_eq. rewrite trim_nospace.
    + unfold startsWith, digitsOf. rewrite chars_str.
      fold (digitsOf phone). cbn [chars list_ascii_of_string].
      rewrite (isDigit_head_not_plus _ HD). now rewrite filter_id.
    + rewrite chars_str. now apply isDigit_nospace.
Qed.

(** X3. [isValidPhone] holds exactly when the string has between 7 and
    15 digits, whatever else it holds; normalizing a phone number
    changes neither its validity nor, when done again, the number. *)
Theorem isValidPhone_count (phone : string) :
  let n := List.length (List.filter Char.isDigit (chars phone)) in
  isValidPhone phone = (Nat.leb 7 n && Nat.leb n 15)%bool
  /\ isValidPhone (normalizePhone phone) = isValidPhone phone
  /\ normalizePhone (normalizePhone phone) = normalizePhone phone.
Proof.
  cbv zeta. repeat split.
  - unfold isValidPhone. rewrite digitsOnly_eq, str_length. reflexivity.
  - unfold isValidPhone. now rewrite normalizePhone_idem.
  - apply normalizePhone_idem.
Qed.

Lemma formatPhone_eq phone :
  formatPhone phone =
  let digitsOnly := str (digitsOf phone) in
  if Nat.eqb (String.length digitsOnly) 10 then
    "(" +:+ slice 0 3 digitsOnly +:+ ") " +:+ slice 3 6 digitsOnly +:+ "-"
        +:+ sliceFrom 6 digitsOnly
  else if (Nat.eqb (String.length digitsOnly) 11 && startsWith digitsOnly "1")%bool then
    "+1 (" +:+ slice 1 4 digitsOnly +:+ ") " +:+ slice 4 7 digitsOnly +:+ "-"
        +:+ sliceFrom 7 digitsOnly
  else normalizePhone phone.
Proof. unfold formatPhone. rewrite digitsOnly_eq. reflexivity. Qed.

Ltac digit_step ds H :=
  let c := fresh "c" in
  let Hc := fresh "Hc" in
  destruct ds as [|c ds]; [discriminate|];
  cbn [forallb] in H; apply andb_true_iff in H as [Hc H].

Lemma digitsOf_formatPhone phone : digitsOf (formatPhone phone) = digitsOf phone.
Proof.
  rewrite formatPhone_eq. cbv zeta.
  pose proof (digitsOf_digits phone) as HD.
  rewrite str_length.
  destruct (Nat.eqb (List.length (digitsOf phone)) 10) eqn:E10.
  - apply Nat.eqb_eq in E10. remember (digitsOf phone) as ds eqn:Eds. clear Eds.
    do 10 digit_step ds HD. destruct ds; [|discriminate].
    unfold digitsOf. cbn -[Char.isDigit]. rewrite !chars_app.
    cbn [chars list_ascii_of_string app List.filter].
    rewrite Hc, Hc0, Hc1, Hc2, Hc3, Hc4, Hc5, Hc6, Hc7, Hc8. reflexivity.
  - destruct (Nat.eqb (List.length (digitsOf phone)) 11) eqn:E11; cbn [andb].
    + destruct (startsWith (str (digitsOf phone)) "1") eqn:E1.
      * apply Nat.eqb_eq in E11. remember (digitsOf phone) as ds eqn:Eds. clear Eds.
        do 11 digit_step ds HD. destruct ds; [|discriminate].
        unfold startsWith in E1. cbn [str string_of_list_ascii chars list_ascii_of_string isPrefix] in E1.
        rewrite andb_true_r in E1. apply Ascii.eqb_eq in E1. subst c.
        unfold digitsOf. cbn -[Char.isDigit]. rewrite !chars_app.
        cbn [chars list_ascii_of_string app List.filter].
        rewrite Hc0, Hc1, Hc2, Hc3, Hc4, Hc5, Hc6, Hc7, Hc8, Hc9. reflexivity.
      * rewrite normalizePhone_eq. unfold digitsOf at 1.
        destruct (startsWith (trim phone) "+");
          cbn [chars list_ascii_of_string List.filter];
          fold (chars (str (digitsOf phone))); rewrite chars_str;
          try change (Char.isDigit "+") with false; cbv iota;
          now apply filter_id.
    + rewrite normalizePhone_eq. unfold digitsOf at 1.
      destruct (startsWith (trim phone) "+");
        cbn [chars list_ascii_of_string List.filter];
        fold (chars (str (digitsOf phone))); rewrite chars_str;
        try change (Char.isDigit "+") with false; cbv iota;
        now apply filter_id.
Qed.

Lemma normalizePhone_formatPhone phone :
  Nat.eqb (List.length (digitsOf phone)) 10 = false ->
  (Nat.eqb (List.length (digitsOf phone)) 11
   && startsWith (str (digitsOf phone)) "1")%bool = false ->
  formatPhone phone = normalizePhone phone.
Proof.
  intros H10 H11. rewrite formatPhone_eq. cbv zeta. rewrite str_length.
  now rewrite H10, H11.
Qed.

(** X4. [formatPhone] keeps the digits of its argument, in order, and
    therefore its validity; it gives the same result on a number and on
    its normal form, and formatting a formatted number changes
    nothing. *)
Theorem formatPhone_digits (phone : string) :
  List.filter Char.isDigit (chars (formatPhone phone))
  = List.filter Char.isDigit (chars phone)
  /\ isValidPhone (formatPhone phone) = isValidPhone phone
  /\ formatPhone (normalizePhone phone) = formatPhone phone
  /\ formatPhone (formatPhone phone) = formatPhone phone.
Proof.
  pose proof (digitsOf_formatPhone phone) as HD. repeat split.
  - exact HD.
  - unfold isValidPhone. rewrite !digitsOnly_eq. now rewrite HD.
  - unfold formatPhone. now rewrite normalizePhone_idem.
  - rewrite (formatPhone_eq (formatPhone phone)). cbv zeta. rewrite HD.
    rewrite (formatPhone_eq phone) at 2. cbv zeta. rewrite str_length.
    destruct (Nat.eqb (List.length (digitsOf phone)) 10) eqn:E10; [reflexivity|].
    destruct (Nat.eqb (List.length (digitsOf phone)) 11
              && startsWith (str (digitsOf phone)) "1")%bool eqn:E11; [reflexivity|].
    rewrite (normalizePhone_formatPhone phone E10 E11). apply normalizePhone_idem.
Qed.

(** X5. The phone numbers returned by [extractPhones] are pairwise
    distinct; each of them passes [isValidPhone] and is in normal form
    ([normalizePhone] leaves it unchanged). *)
Theorem extractPhones_sound (text : string) :
  List.NoDup (extractPhones text)
  /\ Forall (fun p => isValidPhone p = true /\ normalizePhone p = p)
            (extractPhones text).
Proof.
  unfold extractPhones. split; [apply uniq_NoDup|].
  apply List.Forall_forall. intros p H. apply uniq_In in H.
  apply filter_In in H as [H V]. apply in_map_iff in H as (m & <- & _).
  split; [exact V|apply normalizePhone_idem].
Qed.

(** *** Names *)











(** *** Every candidate carries a valid email *)

Lemma isValidEmail_lower email :
  isValidEmail (toLowerCase email) = isValidEmail email.
Proof. unfold isValidEmail. now rewrite trim_toLowerCase, toLowerCase_idem. Qed.

Lemma extractEmails_valid text e :
  In e (extractEmails text) -> isValidEmail e = true.
Proof.
  intros H. apply extractEmails_match in H as (a & w & b & _ & -> & HP).
  rewrite isValidEmail_lower. apply isValidEmail_parts.
  rewrite trim_nospace; rewrite chars_str; [exact HP|now apply emailParts_nospace].
Qed.

Lemma labeledEmail_valid patterns text e :
  labeledEmail patterns text = Some e -> isValidEmail e = true.
Proof.
  induction patterns as [|r rs IH]; cbn [labeledEmail]; [discriminate|].
  destruct (exec r text) as [f|]; [|assumption].
  destruct (isValidEmail (group1 f)) eqn:V; [|assumption].
  intros H. injection H as <-. now rewrite isValidEmail_lower.
Qed.

Lemma emailOf_valid patterns keep text e :
  emailOf patterns keep text = Some e -> isValidEmail e = true.
Proof.
  unfold emailOf. destruct (falsy (labeledEmail patterns text)).
  - intros H. apply hd_error_In, filter_In in H as [H _].
    now apply extractEmails_valid in H.
  - apply labeledEmail_valid.
Qed.

Lemma parsers_valid text subject :
  Forall (fun p : LeadParser =>
            forall l, p text subject = Some l -> isValidEmail (email l) = true)
         parsers.
Proof.
  unfold parsers. repeat constructor; intros l.
  - unfold parseZillowLead. destruct (negb _); [discriminate|].
    destruct (labeledName _ _).
    destruct (emailOf _ _ _) as [e|] eqn:E; [|discriminate].
    destruct (String.eqb e EmptyString); [discriminate|].
    intros H. injection H as <-. cbn [email]. now apply emailOf_valid in E.
  - unfold parseRealtorLead. destruct (negb _); [discriminate|].
    destruct (labeledName _ _).
    destruct (emailOf _ _ _) as [e|] eqn:E; [|discriminate].
    destruct (String.eqb e EmptyString); [discriminate|].
    intros H. injection H as <-. cbn [email]. now apply emailOf_valid in E.
  - unfold parseFacebookLead. destruct (negb _); [discriminate|].
    destruct (labeledName _ _).
    destruct (emailOf _ _ _) as [e|] eqn:E; [|discriminate].
    destruct (String.eqb e EmptyString); [discriminate|].
    intros H. injection H as <-. cbn [email]. now apply emailOf_valid in E.
  - unfold parseGenericLead.
    destruct (List.filter genericKeep (extractEmails text)) as [|e es] eqn:E;
      [discriminate|].
    assert (Hin : In e (extractEmails text)).
    { assert (H : In e (List.filter genericKeep (extractEmails text)))
        by (rewrite E; now left).
      now apply filter_In in H. }
    destruct (labeledName _ _) as [f1 l1].
    destruct (if falsy f1 then _ else _) as [f2 l2].
    destruct (if falsy f2 then _ else _) as [f3 l3].
    intros H. injection H as <-. cbn [email]. now apply extractEmails_valid in Hin.
Qed.

Lemma tryParsers_first ps text subject :
  Forall (fun p : LeadParser =>
            forall l, p text subject = Some l -> isValidEmail (email l) = true) ps ->
  tryParsers ps text subject =
  match firstCandidate ps text subject with
  | Some l => Ok l
  | None => Throw noLeadError
  end.
Proof.
  induction ps as [|p ps IH]; intros H; cbn [tryParsers firstCandidate]; [reflexivity|].
  apply List.Forall_cons_iff in H as [Hp H].
  destruct (p text subject) as [l|] eqn:E; [|now apply IH].
  now rewrite (Hp l eq_refl).
Qed.

(** X7. Every candidate a recognizer of the chain yields carries a valid
    email, so the validity check of [parseLeadFromText] never turns a
    candidate down: the result is the candidate of the first recognizer
    that yields one, and the error when none does;
    [tryParseLeadFromText] is that candidate, if any. *)
Theorem chain_first_candidate (text subject : string) :
  Forall (fun p : LeadParser =>
            forall l, p text subject = Some l -> isValidEmail (email l) = true)
         parsers
  /\ parseLeadFromText text subject =
     match firstCandidate parsers text subject with
     | Some l => Ok l
     | None => Throw noLeadError
     end
  /\ tryParseLeadFromText text subject = firstCandidate parsers text subject.
Proof.
  pose proof (parsers_valid text subject) as V.
  pose proof (tryParsers_first parsers text subject V) as E.
  split; [exact V|]. split; [exact E|].
  unfold tryParseLeadFromText, parseLeadFromText. rewrite E.
  now destruct (firstCandidate parsers text subject).
Qed.

(** *** Which recognizer answers *)

Lemma parseZillowLead_source text subject l :
  parseZillowLead text subject = Some l ->
  source l = zillow /\ zillowSignature text subject = true.
Proof.
  unfold parseZillowLead. destruct (zillowSignature text subject); [|discriminate].
  cbn [negb]. destruct (labeledName _ _).
  destruct (emailOf _ _ _) as [e|]; [|discriminate].
  destruct (String.eqb e EmptyString); [discriminate|].
  intros H. injection H as <-. now split.
Qed.

Lemma parseRealtorLead_source text subject l :
  parseRealtorLead text subject = Some l ->
  source l = realtor /\ realtorSignature text subject = true.
Proof.
  unfold parseRealtorLead. destruct (realtorSignature text subject); [|discriminate].
  cbn [negb]. destruct (labeledName _ _).
  destruct (emailOf _ _ _) as [e|]; [|discriminate].
  destruct (String.eqb e EmptyString); [discriminate|].
  intros H. injection H as <-. now split.
Qed.

Lemma parseFacebookLead_source text subject l :
  parseFacebookLead text subject = Some l ->
  source l = facebook /\ facebookSignature text subject = true.
Proof.
  unfold parseFacebookLead. destruct (facebookSignature text subject); [|discriminate].
  cbn [negb]. destruct (labeledName _ _).
  destruct (emailOf _ _ _) as [e|]; [|discriminate].
  destruct (String.eqb e EmptyString); [discriminate|].
  intros H. injection H as <-. now split.
Qed.

Lemma parseGenericLead_source text subject l :
  parseGenericLead text subject = Some l -> source l = generic.
Proof.
  unfold parseGenericLead.
  destruct (List.filter genericKeep (extractEmails text)) as [|e es]; [discriminate|].
  destruct (labeledName _ _) as [f1 l1].
  destruct (if falsy f1 then _ else _) as [f2 l2].
  destruct (if falsy f2 then _ else _) as [f3 l3].
  intros H. now injection H as <-.
Qed.

Lemma valid_nonempty e : isValidEmail e = true -> String.eqb e EmptyString = false.
Proof. destruct e; [discriminate|reflexivity]. Qed.

Lemma parseZillowLead_Some text subject e :
  zillowSignature text subject = true ->
  emailOf zillowEmailPatterns zillowKeep text = Some e ->
  exists l, parseZillowLead text subject = Some l /\ email l = e.
Proof.
  intros S E. unfold parseZillowLead. rewrite S. cbn [negb].
  destruct (labeledName _ _). rewrite E.
  rewrite (valid_nonempty e (emailOf_valid _ _ _ _ E)). eexists. split; reflexivity.
Qed.

(** X8. The source of the lead returned by [parseLeadFromText] names
    the recognizer that answered: a source-specific recognizer only
    with its signature in the text or subject, each recognizer only
    when those before it in the chain yielded nothing, and never the
    source [unknown]. *)
Theorem recognizer_priority (text subject : string) (lead : LeadData) :
  parseLeadFromText text subject = Ok lead ->
  match source lead with
  | zillow =>
      zillowSignature text subject = true
      /\ parseZillowLead text subject = Some lead
  | realtor =>
      realtorSignature text subject = true
      /\ parseZillowLead text subject = None
      /\ parseRealtorLead text subject = Some lead
  | facebook =>
      facebookSignature text subject = true
      /\ parseZillowLead text subject = None
      /\ parseRealtorLead text subject = None
      /\ parseFacebookLead text subject = Some lead
  | generic =>
      parseZillowLead text subject = None
      /\ parseRealtorLead text subject = None
      /\ parseFacebookLead text subject = None
      /\ parseGenericLead text subject = Some lead
  | unknown => False
  end.
Proof.
  unfold parseLeadFromText.
  rewrite (tryParsers_first parsers text subject (parsers_valid text subject)).
  unfold parsers. cbn [firstCandidate].
  destruct (parseZillowLead text subject) as [l|] eqn:EZ.
  { intros H. injection H as <-. apply parseZillowLead_source in EZ as H.
    destruct H as [-> S]. now split. }
  destruct (parseRealtorLead text subject) as [l|] eqn:ER.
  { intros H. injection H as <-. apply parseRealtorLead_source in ER as H.
    destruct H as [-> S]. now repeat split. }
  destruct (parseFacebookLead text subject) as [l|] eqn:EF.
  { intros H. injection H as <-. apply parseFacebookLead_source in EF as H.
    destruct H as [-> S]. now repeat split. }
  destruct (parseGenericLead text subject) as [l|] eqn:EG; [|discriminate].
  intros H. injection H as <-. apply parseGenericLead_source in EG as H.
  rewrite H. now repeat split.
Qed.

Lemma recognizer_priority_witness :
  parseLeadFromText "Email: JOHN@Example.com" EmptyString
  = Ok (mkLeadData "john@example.com" (Some "John") None None generic)
  /\ parseZillowLead "Email: JOHN@Example.com" EmptyString = None
  /\ parseGenericLead "Email: JOHN@Example.com" EmptyString
     = Some (mkLeadData "john@example.com" (Some "John") None None generic).
Proof.
  assert (H : parseLeadFromText "Email: JOHN@Example.com" EmptyString
              = Ok (mkLeadData "john@example.com" (Some "John") None None generic))
    by (vm_compute; reflexivity).
  split; [exact H|].
  pose proof (recognizer_priority _ _ _ H) as P. cbn [source] in P.
  destruct P as (Z & _ & _ & G). split; [exact Z | exact G].
Defined.

(** *** The email of a source-specific candidate *)

Lemma labeledEmail_nonempty patterns text :
  falsy (labeledEmail patterns text)
  = match labeledEmail patterns text with Some _ => false | None => true end.
Proof.
  destruct (labeledEmail patterns text) as [e|] eqn:E; [|reflexivity].
  apply labeledEmail_valid in E. cbn [falsy]. now apply valid_nonempty.
Qed.

Lemma emailOf_eq patterns keep text :
  emailOf patterns keep text
  = match labeledEmail patterns text with
    | Some e => Some e
    | None => List.hd_error (List.filter keep (extractEmails text))
    end.
Proof.
  unfold emailOf. rewrite labeledEmail_nonempty.
  now destruct (labeledEmail patterns text).
Qed.

Lemma parseRealtorLead_Some text subject e :
  realtorSignature text subject = true ->
  emailOf realtorEmailPatterns realtorKeep text = Some e ->
  exists l, parseRealtorLead text subject = Some l /\ email l = e.
Proof.
  intros S E. unfold parseRealtorLead. rewrite S. cbn [negb].
  destruct (labeledName _ _). rewrite E.
  rewrite (valid_nonempty e (emailOf_valid _ _ _ _ E)). eexists. split; reflexivity.
Qed.

Lemma parseFacebookLead_Some text subject e :
  facebookSignature text subject = true ->
  emailOf facebookEmailPatterns facebookKeep text = Some e ->
  exists l, parseFacebookLead text subject = Some l /\ email l = e.
Proof.
  intros S E. unfold parseFacebookLead. rewrite S. cbn [negb].
  destruct (labeledName _ _). rewrite E.
  rewrite (valid_nonempty e (emailOf_valid _ _ _ _ E)). eexists. split; reflexivity.
Qed.

(** X27. The email of the candidate of a source-specific recognizer:
    without the signature of the source there is no candidate; with it,
    the email is the first labeled address that is valid, lower-cased,
    and without such a field the first extracted address that the
    recognizer's own filter keeps; there is no candidate exactly when
    there is no such address. *)
Theorem specific_recognizers_email (text subject : string) :
  (option_map email (parseZillowLead text subject)
   = if zillowSignature text subject then
       match labeledEmail zillowEmailPatterns text with
       | Some e => Some e
       | None => List.hd_error (List.filter zillowKeep (extractEmails text))
       end
     else None)
  /\ (option_map email (parseRealtorLead text subject)
      = if realtorSignature text subject then
          match labeledEmail realtorEmailPatterns text with
          | Some e => Some e
          | None => List.hd_error (List.filter realtorKeep (extractEmails text))
          end
        else None)
  /\ (option_map email (parseFacebookLead text subject)
      = if facebookSignature text subject then
          match labeledEmail facebookEmailPatterns text with
          | Some e => Some e
          | None =>
              List.hd_error (List.filter facebookKeep (extractEmails text))
          end
        else None).
Proof.
  split; [|split].
  - rewrite <- emailOf_eq. destruct (zillowSignature text subject) eqn:S.
    + destruct (emailOf zillowEmailPatterns zillowKeep text) as [e|] eqn:E.
      * destruct (parseZillowLead_Some _ _ _ S E) as (l & -> & <-). reflexivity.
      * unfold parseZillowLead. rewrite S. cbn [negb].
        destruct (labeledName _ _). now rewrite E.
    + unfold parseZillowLead. now rewrite S.
  - rewrite <- emailOf_eq. destruct (realtorSignature text subject) eqn:S.
    + destruct (emailOf realtorEmailPatterns realtorKeep text) as [e|] eqn:E.
      * destruct (parseRealtorLead_Some _ _ _ S E) as (l & -> & <-). reflexivity.
      * unfold parseRealtorLead. rewrite S. cbn [negb].
        destruct (labeledName _ _). now rewrite E.
    + unfold parseRealtorLead. now rewrite S.
  - rewrite <- emailOf_eq. destruct (facebookSignature text subject) eqn:S.
    + destruct (emailOf facebookEmailPatterns facebookKeep text) as [e|] eqn:E.
      * destruct (parseFacebookLead_Some _ _ _ S E) as (l & -> & <-). reflexivity.
      * unfold parseFacebookLead. rewrite S. cbn [negb].
        destruct (labeledName _ _). now rewrite E.
    + unfold parseFacebookLead. now rewrite S.
Qed.

(** *** The phone of a candidate *)

Lemma trim_normalizePhone phone : trim (normalizePhone phone) = normalizePhone phone.
Proof.
  rewrite normalizePhone_eq. pose proof (digitsOf_digits phone) as HD.
  apply trim_nospace. destruct (startsWith (trim phone) "+").
  - cbn [chars list_ascii_of_string forallb]. fold (chars (str (digitsOf phone))).
    rewrite chars_str. change (negb (Char.isSpace "+")) with true.
    now rewrite isDigit_nospace.
  - rewrite chars_str. now apply isDigit_nospace.
Qed.

Lemma isValidPhone_nonempty p : isValidPhone p = true -> p <> EmptyString.
Proof. intros H ->. discriminate H. Qed.

Lemma extractPhones_In text p :
  In p (extractPhones text) -> isValidPhone p = true /\ normalizePhone p = p.
Proof.
  unfold extractPhones. intros H. apply uniq_In in H.
  apply filter_In in H as [H V]. apply in_map_iff in H as (m & <- & _).
  split; [exact V|apply normalizePhone_idem].
Qed.

Lemma phoneOf_spec patterns text p :
  phoneOf patterns text = Some p -> p <> EmptyString /\ trim p = p.
Proof.
  unfold phoneOf. destruct (firstMatch patterns text) as [f|]; cbn [option_map falsy].
  - destruct (String.eqb (trim (group1 f)) EmptyString) eqn:E.
    + intros H. apply hd_error_In, extractPhones_In in H as [V N].
      split; [now apply isValidPhone_nonempty|]. rewrite <- N. apply trim_normalizePhone.
    + intros H. injection H as <-. split; [now apply String.eqb_neq|apply trim_idem].
  - intros H. apply hd_error_In, extractPhones_In in H as [V N].
    split; [now apply isValidPhone_nonempty|]. rewrite <- N. apply trim_normalizePhone.
Qed.

Lemma parseGenericLead_phone text subject l :
  parseGenericLead text subject = Some l ->
  phone l = List.hd_error (extractPhones text).
Proof.
  unfold parseGenericLead.
  destruct (List.filter genericKeep (extractEmails text)) as [|e es]; [discriminate|].
  destruct (labeledName _ _) as [f1 l1].
  destruct (if falsy f1 then _ else _) as [f2 l2].
  destruct (if falsy f2 then _ else _) as [f3 l3].
  intros H. now injection H as <-.
Qed.

(** X29. The phone number of a candidate.  Whatever recognizer of the chain
    produces a candidate, its phone number, when there is one, is never the
    empty string and carries no white space at either end: it is the trimmed
    capture of a labeled field, or else the first number extracted from the
    text.  The general recognizer has no labeled field: its phone number is
    the first extracted number, so that it passes [isValidPhone] and is in
    normalized form. *)
Theorem candidate_phone (text subject : string) :
  Forall (fun p : LeadParser =>
            forall l ph, p text subject = Some l -> phone l = Some ph ->
              ph <> EmptyString /\ trim ph = ph)
         parsers
  /\ (forall l, parseGenericLead text subject = Some l ->
        phone l = List.hd_error (extractPhones text)
        /\ forall ph, phone l = Some ph ->
             isValidPhone ph = true /\ normalizePhone ph = ph).
Proof.
  split.
  - unfold parsers. constructor; [|constructor; [|constructor; [|constructor; [|constructor]]]]; intros l ph.
    + unfold parseZillowLead. destruct (negb _); [discriminate|].
      destruct (labeledName _ _).
      destruct (emailOf _ _ _) as [e|]; [|discriminate].
      destruct (String.eqb e EmptyString); [discriminate|].
      intros H. injection H as <-. cbn [phone]. apply phoneOf_spec.
    + unfold parseRealtorLead. destruct (negb _); [discriminate|].
      destruct (labeledName _ _).
      destruct (emailOf _ _ _) as [e|]; [|discriminate].
      destruct (String.eqb e EmptyString); [discriminate|].
      intros H. injection H as <-. cbn [phone]. apply phoneOf_spec.
    + unfold parseFacebookLead. destruct (negb _); [discriminate|].
      destruct (labeledName _ _).
      destruct (emailOf _ _ _) as [e|]; [|discriminate].
      destruct (String.eqb e EmptyString); [discriminate|].
      intros H. injection H as <-. cbn [phone]. apply phoneOf_spec.
    + intros H Hp. apply parseGenericLead_phone in H. rewrite H in Hp.
      apply hd_error_In, extractPhones_In in Hp as [V N].
      split; [now apply isValidPhone_nonempty|]. rewrite <- N. apply trim_normalizePhone.
  - intros l H. apply parseGenericLead_phone in H. split; [exact H|].
    intros ph Hp. rewrite H in Hp. now apply hd_error_In, extractPhones_In in Hp.
Qed.

(** ** gmail/base64url.ts: length, padded input, strings *)

Lemma toStringBase64_body (buf : Buffer) :
  exists body,
    toStringBase64 buf = body ++ repeat padding ((3 - List.length buf mod 3) mod 3)
    /\ forallb isBase64Char body = true
    /\ List.length body = (4 * List.length buf + 2) / 3.
Proof.
  induction buf as [|a|a b|a b c l (body & IH & Hb & Hl)] using bytes_ind3.
  - exists []. repeat split.
  - sextet_bounds. set (n := Byte.to_N a) in *.
    exists [sextetChar (n / 4); sextetChar ((n mod 4) * 16)].
    assert (S0 : (n / 4 < 64)%N) by divmod.
    assert (S1 : (n mod 4 * 16 < 64)%N) by divmod.
    destruct (sextetChar_spec _ S0) as (_ & _ & E0).
    destruct (sextetChar_spec _ S1) as (_ & _ & E1).
    cbn [forallb]. rewrite E0, E1. repeat split; auto.
  - sextet_bounds. set (n := (Byte.to_N a * 256 + Byte.to_N b)%N).
    exists [sextetChar (n / 1024); sextetChar ((n / 16) mod 64);
            sextetChar ((n mod 16) * 4)].
    assert (S0 : (n / 1024 < 64)%N) by (subst n; divmod).
    assert (S1 : ((n / 16) mod 64 < 64)%N) by divmod.
    assert (S2 : (n mod 16 * 4 < 64)%N) by divmod.
    destruct (sextetChar_spec _ S0) as (_ & _ & E0).
    destruct (sextetChar_spec _ S1) as (_ & _ & E1).
    destruct (sextetChar_spec _ S2) as (_ & _ & E2).
    cbn [forallb]. rewrite E0, E1, E2. repeat split; auto.
  - sextet_bounds.
    set (n := ((Byte.to_N a * 256 + Byte.to_N b) * 256 + Byte.to_N c)%N).
    exists (sextetChar (n / 262144) :: sextetChar ((n / 4096) mod 64)
              :: sextetChar ((n / 64) mod 64) :: sextetChar (n mod 64) :: body).
    assert (S0 : (n / 262144 < 64)%N) by (subst n; divmod).
    assert (S1 : ((n / 4096) mod 64 < 64)%N) by divmod.
    assert (S2 : ((n / 64) mod 64 < 64)%N) by divmod.
    assert (S3 : (n mod 64 < 64)%N) by divmod.
    destruct (sextetChar_spec _ S0) as (_ & _ & E0).
    destruct (sextetChar_spec _ S1) as (_ & _ & E1).
    destruct (sextetChar_spec _ S2) as (_ & _ & E2).
    destruct (sextetChar_spec _ S3) as (_ & _ & E3).
    cbn [toStringBase64 forallb]. fold n. rewrite IH, E0, E1, E2, E3, Hb.
    split; [|split; [reflexivity|]].
    + cbn [app List.length]. do 5 f_equal.
      change (S (S (S (List.length l)))) with (1 * 3 + List.length l).
      now rewrite Nat.add_comm, Nat.Div0.mod_add.
    + cbn [List.length]. rewrite Hl.
      replace (4 * S (S (S (List.length l))) + 2)
        with ((4 * List.length l + 2) + 4 * 3) by lia.
      rewrite Nat.div_add by lia. lia.
Qed.

Lemma isBase64Char_not_padding c :
  isBase64Char c = true -> Ascii.eqb c padding = false.
Proof. all_chars c; intros H; try reflexivity; discriminate H. Qed.

Lemma bufferToBase64Url_body (buf : Buffer) :
  exists body,
    toStringBase64 buf = body ++ repeat padding ((3 - List.length buf mod 3) mod 3)
    /\ forallb isBase64Char body = true
    /\ List.length body = (4 * List.length buf + 2) / 3
    /\ bufferToBase64Url buf = str (map toUrl body).
Proof.
  destruct (toStringBase64_body buf) as (body & E & Hb & Hl).
  exists body. repeat split; auto.
  destruct (map_toUrl_body body Hb) as (I1 & I2 & I3).
  unfold bufferToBase64Url. rewrite E, !replaceAll_chr, map_map.
  change (fun x => swap "/" "_" (swap "+" "-" x)) with toUrl.
  rewrite map_app, toUrl_padding.
  now apply replaceAll_trailingPadding.
Qed.

(** X9. The base64url text of a buffer of [n] bytes has
    [ceil (4 n / 3)] characters. *)
Theorem bufferToBase64Url_length (buf : Buffer) :
  String.length (bufferToBase64Url buf) = (4 * List.length buf + 2) / 3.
Proof.
  destruct (bufferToBase64Url_body buf) as (body & _ & _ & Hl & ->).
  now rewrite str_length, length_map.
Qed.

Lemma sextetsOf_app (body l : list ascii) :
  forallb (fun c => negb (Ascii.eqb c padding)) body = true ->
  sextetsOf (body ++ l) = sextetsOf body ++ sextetsOf l.
Proof.
  induction body as [|c body IH]; [reflexivity|]. cbn [forallb app sextetsOf].
  intros H. apply andb_true_iff in H as [Hc H].
  destruct (Ascii.eqb c padding); [discriminate|].
  rewrite (IH H). now destruct (charSextet c).
Qed.

Lemma sextetsOf_padding k : sextetsOf (repeat padding k) = [].
Proof. destruct k; reflexivity. Qed.

Lemma fromUrl_padding k : map fromUrl (repeat padding k) = repeat padding k.
Proof. induction k; [reflexivity|]. cbn [repeat map]. now rewrite IHk. Qed.

Lemma fromUrl_std (body : list ascii) :
  forallb isBase64Char body = true -> map fromUrl body = body.
Proof.
  induction body as [|c body IH]; [reflexivity|]. cbn [forallb map].
  intros H. apply andb_true_iff in H as [Hc H]. rewrite (IH H). f_equal.
  revert Hc. clear. all_chars c; intros H; try reflexivity; discriminate H.
Qed.

Lemma decode_padded (text body : list ascii) (buf : Buffer) k j :
  toStringBase64 buf = body ++ repeat padding k ->
  forallb isBase64Char body = true ->
  map fromUrl text = body ->
  base64UrlToBuffer (str (text ++ repeat padding j)) = buf.
Proof.
  intros E Hb Ht. unfold base64UrlToBuffer. rewrite !replaceAll_chr, map_map.
  change (fun x => swap "_" "/" (swap "-" "+" x)) with fromUrl.
  rewrite map_app, Ht, fromUrl_padding. unfold repeatPadding.
  rewrite <- str_app. unfold fromBase64. rewrite chars_str, <- app_assoc.
  rewrite <- repeat_app.
  assert (Hn : forallb (fun c => negb (Ascii.eqb c padding)) body = true).
  { apply forallb_forall. intros c Hc. eapply forallb_forall in Hb; [|exact Hc].
    now rewrite isBase64Char_not_padding. }
  rewrite sextetsOf_app, sextetsOf_padding, app_nil_r by exact Hn.
  pose proof (fromBase64_toString buf) as F.
  rewrite E, sextetsOf_app in F by exact Hn.
  rewrite sextetsOf_padding, app_nil_r in F. exact F.
Qed.

Lemma base64UrlToBuffer_inverts (buf : Buffer) :
  base64UrlToBuffer (bufferToBase64Url buf) = buf.
Proof.
  destruct (bufferToBase64Url_body buf) as (body & E & Hb & _ & ->).
  destruct (map_toUrl_body body Hb) as (I1 & _ & _).
  rewrite <- (app_nil_r (map toUrl body)).
  exact (decode_padded (map toUrl body) body buf _ 0 E Hb I1).
Qed.

(** X10. [base64UrlToBuffer] also reads the padded forms: the base64url
    text of a buffer followed by its padding, and the standard base64
    text of the buffer, both decode to the buffer.  Two buffers with
    the same base64url text are equal. *)
Theorem base64UrlToBuffer_padded (buf : Buffer) :
  base64UrlToBuffer
    (bufferToBase64Url buf +:+ repeatPadding ((3 - List.length buf mod 3) mod 3))
  = buf
  /\ base64UrlToBuffer (str (toStringBase64 buf)) = buf
  /\ (forall buf', bufferToBase64Url buf' = bufferToBase64Url buf -> buf' = buf).
Proof.
  destruct (bufferToBase64Url_body buf) as (body & E & Hb & _ & Eu).
  destruct (map_toUrl_body body Hb) as (I1 & _ & _).
  split; [|split].
  - rewrite Eu. unfold repeatPadding. rewrite <- str_app.
    now apply (decode_padded _ body _ _ _ E Hb).
  - rewrite E. apply (decode_padded _ body _ _ _ E Hb). now apply fromUrl_std.
  - intros buf' H. rewrite <- (base64UrlToBuffer_inverts buf'), H.
    apply base64UrlToBuffer_inverts.
Qed.

(** *** Strings *)

Lemma utf8Decode_char (c : ascii) (rest : Buffer) :
  utf8Decode (utf8Char c ++ rest) = option_map (cons c) (utf8Decode rest).
Proof. all_chars c; reflexivity. Qed.

Lemma utf8_roundtrip (l : list ascii) : utf8Decode (flat_map utf8Char l) = Some l.
Proof.
  induction l as [|c l IH]; [reflexivity|]. cbn [flat_map].
  rewrite utf8Decode_char, IH. reflexivity.
Qed.

(** X11. A string encoded by [stringToBase64Url] is given back by
    [base64UrlToString], and its encoding holds none of the characters
    [+], [/] and [=]. *)
Theorem stringToBase64Url_roundtrip (s : string) :
  base64UrlToString (stringToBase64Url s) = Some s
  /\ forallb urlSafe (chars (stringToBase64Url s)) = true.
Proof.
  unfold base64UrlToString, stringToBase64Url. rewrite base64UrlToBuffer_inverts.
  unfold utf8Encode. rewrite utf8_roundtrip. cbn [option_map]. rewrite str_chars.
  split; [reflexivity|].
  destruct (bufferToBase64Url_body (flat_map utf8Char (chars s))) as (body & _ & Hb & _ & ->).
  rewrite chars_str. now destruct (map_toUrl_body body Hb) as (_ & I2 & _).
Qed.

(** ** gmail/extract.ts: the text of an HTML body *)

Section PlusCls.
Variable q : ascii -> bool.

Lemma starLoop_cls_run {R} (K : mstate -> option R) (x : R) rest :
  noRunAhead q rest ->
  forall w b cs fuel,
    forallb q w = true -> List.length (w ++ rest) <= fuel ->
    K (mkSt (mkPos (rev w ++ b) rest) cs) = Some x ->
    starLoop (rmatch (Cls q)) true fuel (mkSt (mkPos b (w ++ rest)) cs) K = Some x.
Proof.
  intros Hr. set (body := rmatch (Cls q)).
  assert (Hb : forall s (k : mstate -> option R),
    body s k = match after (at_ s) with
               | c :: rest0 =>
                   if q c then k (mkSt (mkPos (c :: before (at_ s)) rest0) (caps s))
                   else None
               | [] => None
               end) by reflexivity.
  clearbody body.
  induction w as [|c w IH]; intros b cs fuel Hw Hl HK.
  - cbn [app rev] in *. destruct fuel as [|fuel]; [exact HK|].
    cbn [starLoop]. rewrite Hb. cbn [at_ after].
    destruct rest as [|d rest]; cbn [orElse]; [exact HK|].
    cbn in Hr. rewrite Hr. exact HK.
  - cbn [forallb] in Hw. apply andb_true_iff in Hw as [Hc Hw].
    destruct fuel as [|fuel]; [cbn in Hl; lia|].
    cbn [app starLoop]. rewrite Hb. cbn [at_ after before caps]. rewrite Hc.
    unfold remaining at 1 2. cbn [at_ after List.length].
    replace (List.length (w ++ rest) <? S (List.length (w ++ rest)))%nat with true
      by (symmetry; apply Nat.ltb_lt; lia).
    rewrite (IH (c :: b) cs fuel Hw); [reflexivity|cbn in Hl; lia|].
    cbn [rev] in HK. now rewrite <- app_assoc in HK.
Qed.

Lemma matchAt_plus_run b c w rest :
  q c = true -> forallb q w = true -> noRunAhead q rest ->
  matchAt (plus (Cls q)) (mkPos b (c :: w ++ rest))
  = Some (mkFound (mkPos b (c :: w ++ rest)) (mkPos (rev w ++ c :: b) rest) []).
Proof.
  intros Hc Hw Hr. unfold matchAt, plus. cbn [rmatch at_ after before caps].
  rewrite Hc. unfold remaining. cbn [at_ after].
  now apply starLoop_cls_run.
Qed.

Lemma matchAt_plus_none b rest :
  noRunAhead q rest -> matchAt (plus (Cls q)) (mkPos b rest) = None.
Proof.
  intros Hr. unfold matchAt, plus. cbn [rmatch at_ after].
  destruct rest as [|c rest]; [reflexivity|]. cbn in Hr. now rewrite Hr.
Qed.

Lemma searchFrom_plus_skip pre : forall bef aft,
  forallb (fun c => negb (q c)) pre = true ->
  searchFrom (plus (Cls q)) bef (pre ++ aft)
  = searchFrom (plus (Cls q)) (rev pre ++ bef) aft.
Proof.
  induction pre as [|c pre IH]; intros bef aft H; [reflexivity|].
  cbn [forallb] in H. apply andb_true_iff in H as [Hc H].
  cbn [app searchFrom]. rewrite matchAt_plus_none
    by (cbn; now destruct (q c)).
  rewrite IH by exact H. cbn [rev]. now rewrite <- app_assoc.
Qed.

Lemma span_run (l : list ascii) :
  exists w rest, l = w ++ rest /\ forallb q w = true /\ noRunAhead q rest.
Proof.
  induction l as [|c l (w & rest & E & Hw & Hr)]; [exists [], []; now cbn|].
  destruct (q c) eqn:Ec.
  - exists (c :: w), rest. cbn. now rewrite E, Ec, Hw.
  - exists [], (c :: l). now cbn.
Qed.

Lemma collapseRuns_skip by_ pre l b :
  forallb (fun c => negb (q c)) pre = true -> pre <> [] \/ b = false ->
  collapseRuns q by_ b (pre ++ l) = pre ++ collapseRuns q by_ false l.
Proof.
  revert b. induction pre as [|c pre IH]; intros b H Hb.
  - destruct Hb as [Hb| ->]; [contradiction|reflexivity].
  - cbn [forallb] in H. apply andb_true_iff in H as [Hc H].
    cbn [app collapseRuns]. destruct (q c); [discriminate|].
    rewrite IH; auto.
Qed.

Lemma collapseRuns_run by_ w l :
  forallb q w = true ->
  collapseRuns q by_ true (w ++ l) = collapseRuns q by_ true l.
Proof.
  induction w as [|c w IH]; intros H; [reflexivity|].
  cbn [forallb] in H. apply andb_true_iff in H as [Hc H].
  cbn [app collapseRuns]. rewrite Hc. now apply IH.
Qed.

Lemma collapseRuns_flag by_ rest :
  noRunAhead q rest ->
  collapseRuns q by_ true rest = collapseRuns q by_ false rest.
Proof.
  destruct rest as [|c rest]; [reflexivity|]. cbn. now intros ->.
Qed.

Lemma replaceAllFrom_plus by_ : forall fuel bef aft,
  List.length aft < fuel ->
  replaceAllFrom (plus (Cls q)) by_ fuel bef aft = collapseRuns q by_ false aft.
Proof.
  induction fuel as [|fuel IH]; intros bef aft Hl; [lia|].
  destruct (span_cls q aft) as (pre & r1 & E & Hpre & Hr1).
  cbn [replaceAllFrom]. subst aft. rewrite searchFrom_plus_skip by exact Hpre.
  destruct r1 as [|c r2].
  - cbn [searchFrom]. rewrite matchAt_plus_none by exact I.
    rewrite app_nil_r. rewrite <- (app_nil_r pre) at 2.
    rewrite collapseRuns_skip; [now rewrite app_nil_r|exact Hpre|now right].
  - destruct (span_run r2) as (w & rest & -> & Hw & Hr).
    assert (Hrest : List.length rest < fuel).
    { rewrite length_app in Hl. cbn [List.length] in Hl. rewrite length_app in Hl. lia. }
    rewrite (searchFrom_hit _ _ _ _ (matchAt_plus_run _ c w rest Hr1 Hw Hr)).
    cbn [mStart mEnd before after]. unfold matched. cbn [mStart mEnd].
    change (c :: w ++ rest) with ((c :: w) ++ rest).
    rewrite (consumed_app _ _ (c :: w) rest), consumed_app.
    cbn [app]. rewrite IH by exact Hrest.
    rewrite collapseRuns_skip by (auto). cbn [collapseRuns]. rewrite Hr1.
    now rewrite collapseRuns_run, collapseRuns_flag.
Qed.

End PlusCls.

Lemma replaceAll_plus q by_ text :
  replaceAll (plus (Cls q)) by_ text
  = str (collapseRuns q (chars by_) false (chars text)).
Proof.
  unfold replaceAll. rewrite replaceAllFrom_plus; [reflexivity|].
  rewrite chars_length. lia.
Qed.

Lemma singleSpaced_collapse (l : list ascii) : forall b,
  singleSpaced (collapseRuns Char.isSpace [" "%char] b l) = true
  /\ (b = true ->
      match collapseRuns Char.isSpace [" "%char] b l with
      | [] => True
      | d :: _ => Char.isSpace d = false
      end).
Proof.
  induction l as [|c l IH]; intros b; [now split|].
  cbn [collapseRuns]. destruct (Char.isSpace c) eqn:Ec.
  - destruct b.
    + apply IH.
    + destruct (IH true) as [S H]. specialize (H eq_refl). split; [|discriminate].
      cbn [app singleSpaced]. rewrite S.
      destruct (collapseRuns Char.isSpace [" "%char] true l) as [|d r]; [reflexivity|].
      now rewrite H.
  - destruct (IH false) as [S _]. split; [|now intros _].
    cbn [singleSpaced]. now rewrite Ec, S.
Qed.

Lemma singleSpaced_suffix (a l : list ascii) :
  singleSpaced (a ++ l) = true -> singleSpaced l = true.
Proof.
  induction a as [|c a IH]; [auto|]. cbn [app singleSpaced]. intros H.
  apply andb_true_iff in H as [_ H]. now apply IH.
Qed.

Lemma singleSpaced_prefix (l b : list ascii) :
  singleSpaced (l ++ b) = true -> singleSpaced l = true.
Proof.
  induction l as [|c l IH]; [reflexivity|]. cbn [app singleSpaced]. intros H.
  apply andb_true_iff in H as [Hc H]. rewrite (IH H), andb_true_r.
  destruct (Char.isSpace c); [|reflexivity].
  apply andb_true_iff in Hc as [Hc Hn]. rewrite Hc. destruct l; [reflexivity|exact Hn].
Qed.

Lemma trim_infix s : exists a b, chars s = a ++ chars (trim s) ++ b.
Proof.
  unfold trim. rewrite chars_str.
  destruct (dropSpaces_spec (chars s)) as (p1 & E1 & _ & _).
  destruct (dropSpaces_spec (rev (dropSpaces (chars s)))) as (p2 & E2 & _ & _).
  exists p1, (rev p2). rewrite <- rev_app_distr, <- E2, rev_involutive. exact E1.
Qed.

Lemma searchFrom_start r : forall aft bef f,
  searchFrom r bef aft = Some f ->
  exists pre post, aft = pre ++ post /\ mStart f = mkPos (rev pre ++ bef) post.
Proof.
  induction aft as [|c aft IH]; intros bef f; cbn [searchFrom];
    destruct (matchAt r _) as [g|] eqn:E.
  - intros H. injection H as <-. apply matchAt_sound in E as [E _].
    exists [], []. now split.
  - discriminate.
  - intros H. injection H as <-. apply matchAt_sound in E as [E _].
    exists [], (c :: aft). now split.
  - intros H. apply IH in H as (pre & post & -> & H).
    exists (c :: pre), post. split; [reflexivity|].
    rewrite H. cbn [rev]. now rewrite <- app_assoc.
Qed.

Lemma searchFrom_without_first q r bef aft :
  firstIs q r -> forallb (fun c => negb (q c)) aft = true ->
  searchFrom r bef aft = None.
Proof.
  intros F H. destruct (searchFrom r bef aft) as [f|] eqn:E; [|reflexivity].
  pose proof (searchFrom_start _ _ _ _ E) as (pre & post & -> & Hs).
  apply searchFrom_sound in E as [_ M]. apply F in M as (c & rest & Ea & Hc).
  rewrite Hs in Ea. cbn [after] in Ea. subst post.
  rewrite forallb_app in H. apply andb_true_iff in H as [_ H].
  cbn [forallb] in H. now rewrite Hc in H.
Qed.

Lemma replaceAll_without_first q r by_ text :
  firstIs q r -> forallb (fun c => negb (q c)) (chars text) = true ->
  replaceAll r by_ text = text.
Proof.
  intros F H. unfold replaceAll. cbn [replaceAllFrom].
  rewrite (searchFrom_without_first q r [] _ F H). apply str_chars.
Qed.

Lemma firstIs_cls (q q' : ascii -> bool) :
  (forall c, q' c = true -> q c = true) -> firstIs q (Cls q').
Proof.
  intros H p p' M. inversion M; subst. cbn [after]. eauto.
Qed.

Lemma firstIs_seq q r1 r2 : firstIs q r1 -> firstIs q (Seq r1 r2).
Proof.
  intros F p p' M. inversion M; subst. eapply F; eassumption.
Qed.

Lemma eqCI_lt c : Char.eqCI "<" c = true -> Char.isChar "<" c = true.
Proof. all_chars c; intros H; try reflexivity; discriminate H. Qed.

Lemma forallb_weaken {A} (q q' : A -> bool) (l : list A) :
  (forall c, q c = true -> q' c = true) -> forallb q l = true -> forallb q' l = true.
Proof.
  intros H F. apply forallb_forall. intros c Hc.
  eapply forallb_forall in F; eauto.
Qed.

(** X12. The text [stripHtmlTags] hands to the recognizers has no white
    space at its ends, and every white space character in it is a
    single space between two other characters; a text without [<] and
    [&] is only normalized in this way: its runs of white space become
    one space each and it is trimmed. *)
Theorem stripHtmlTags_spaces (html : string) :
  singleSpaced (chars (stripHtmlTags html)) = true
  /\ trim (stripHtmlTags html) = stripHtmlTags html
  /\ (forallb (fun c => negb (Char.isChar "<" c || Char.isChar "&" c)) (chars html)
      = true ->
      stripHtmlTags html
      = trim (str (collapseRuns Char.isSpace [" "%char] false (chars html)))).
Proof.
  split; [|split].
  - unfold stripHtmlTags. cbv zeta. rewrite replaceAll_plus.
    set (s8 := replaceAll (lit "&quot;") _ _).
    destruct (trim_infix (str (collapseRuns Char.isSpace (chars " ") false (chars s8))))
      as (a & b & E).
    rewrite chars_str in E.
    pose proof (proj1 (singleSpaced_collapse (chars s8) false)) as S.
    change (chars " ") with [" "%char] in *. rewrite E in S.
    now apply singleSpaced_suffix, singleSpaced_prefix in S.
  - unfold stripHtmlTags. cbv zeta. apply trim_idem.
  - intros H.
    assert (Hlt : forallb (fun c => negb (Char.isChar "<" c)) (chars html) = true).
    { eapply forallb_weaken; [|exact H]. intros c. cbv beta.
      now destruct (Char.isChar "<" c). }
    assert (Hamp : forallb (fun c => negb (Char.isChar "&" c)) (chars html) = true).
    { eapply forallb_weaken; [|exact H]. intros c. cbv beta.
      destruct (Char.isChar "&" c); [|reflexivity]. now rewrite orb_true_r. }
    unfold stripHtmlTags. cbv zeta. cbn [seqs litI lit String.append].
    rewrite (replaceAll_without_first (Char.isChar "<") _ EmptyString html)
      by (try exact Hlt; do 2 apply firstIs_seq; apply firstIs_cls, eqCI_lt).
    rewrite (replaceAll_without_first (Char.isChar "<") _ EmptyString html)
      by (try exact Hlt; do 2 apply firstIs_seq; apply firstIs_cls, eqCI_lt).
    rewrite (replaceAll_without_first (Char.isChar "<") _ " " html)
      by (try exact Hlt; apply firstIs_seq, firstIs_cls; auto).
    rewrite !(replaceAll_without_first (Char.isChar "&") _ _ html)
      by (try exact Hamp; apply firstIs_seq, firstIs_cls; auto).
    now rewrite replaceAll_plus.
Qed.
(** ** The run lock *)

Lemma LOCK_TTL_MS_value : LOCK_TTL_MS = 300000%Z.
Proof. reflexivity. Qed.

(** The two awaited steps, run without interruption, are [acquireLock]. *)
Lemma acquireLock_steps now lockName workerId (locks : gmap string SystemLock) :
  let '(c1, locks1) := step (Started now lockName workerId) locks in
  step c1 locks1 =
    (Returned (fst (acquireLock now lockName workerId locks)),
     snd (acquireLock now lockName workerId locks)).
Proof.
  cbn [step]. unfold acquireLock.
  destruct (locks !! lockName) as [l|]; [|reflexivity].
  destruct (Z.ltb now (expiresAt l)); reflexivity.
Qed.

(** C6. With an unexpired lock row present, [acquireLock] answers
    [false] and leaves the table as it is; otherwise it writes the row
    with the caller as holder and [now] plus five minutes as expiry, and
    answers [true]. *)
Theorem acquireLock_sequential now lockName workerId
    (locks : gmap string SystemLock) :
  (heldAt now lockName locks ->
     acquireLock now lockName workerId locks = (false, locks))
  /\ (~ heldAt now lockName locks ->
     acquireLock now lockName workerId locks =
       (true, <[lockName := mkLock (Some workerId) (now + 300000)]> locks)).
Proof.
  unfold heldAt, acquireLock. rewrite LOCK_TTL_MS_value. split.
  - intros (l & -> & Hlt). apply Z.ltb_lt in Hlt. now rewrite Hlt.
  - intros Hfree. destruct (locks !! lockName) as [l|] eqn:E; [|reflexivity].
    destruct (Z.ltb now (expiresAt l)) eqn:Hlt; [|reflexivity].
    exfalso. apply Hfree. exists l. split; [reflexivity|]. now apply Z.ltb_lt.
Qed.

Lemma acquireLock_sequential_witness :
  heldAt 1000 "email_processor" {[ "email_processor" := mkLock (Some "w0") 2000 ]}
  /\ acquireLock 1000 "email_processor" "w1"
       {[ "email_processor" := mkLock (Some "w0") 2000 ]}
     = (false, {[ "email_processor" := mkLock (Some "w0") 2000 ]})
  /\ ~ heldAt 2000 "email_processor" {[ "email_processor" := mkLock (Some "w0") 2000 ]}
  /\ acquireLock 2000 "email_processor" "w1"
       {[ "email_processor" := mkLock (Some "w0") 2000 ]}
     = (true, <["email_processor" := mkLock (Some "w1") 302000]>
                {[ "email_processor" := mkLock (Some "w0") 2000 ]}).
Proof.
  assert (H1 : heldAt 1000 "email_processor"
                 {[ "email_processor" := mkLock (Some "w0") 2000 ]}).
  { exists (mkLock (Some "w0") 2000). split; [reflexivity|]. cbn. lia. }
  assert (H2 : ~ heldAt 2000 "email_processor"
                 {[ "email_processor" := mkLock (Some "w0") 2000 ]}).
  { intros (l & Hl & Hlt). vm_compute in Hl. injection Hl as <-. cbn in Hlt. lia. }
  split; [exact H1|]. split.
  - exact (proj1 (acquireLock_sequential 1000 "email_processor" "w1" _) H1).
  - split; [exact H2|].
    exact (proj2 (acquireLock_sequential 2000 "email_processor" "w1" _) H2).
Defined.

(** When both callers read before either writes, both acquire. *)
Lemma acquire_race now1 now2 lockName worker1 worker2
    (locks : gmap string SystemLock) :
  ~ heldAt now1 lockName locks -> ~ heldAt now2 lockName locks ->
  interleave [true; false; true; false]
    (Started now1 lockName worker1) (Started now2 lockName worker2) locks
  = (Returned true, Returned true,
     <[lockName := mkLock (Some worker2) (now2 + LOCK_TTL_MS)]>
       (<[lockName := mkLock (Some worker1) (now1 + LOCK_TTL_MS)]> locks)).
Proof.
  intros H1 H2. cbn [interleave step].
  assert (F : forall now, ~ heldAt now lockName locks ->
            match locks !! lockName with
            | Some l => Z.ltb now (expiresAt l)
            | None => false
            end = false).
  { intros now H. destruct (locks !! lockName) as [l|] eqn:E; [|reflexivity].
    destruct (Z.ltb now (expiresAt l)) eqn:Hlt; [|reflexivity].
    exfalso. apply H. exists l. split; [assumption|]. now apply Z.ltb_lt. }
  rewrite (F _ H1). cbn [interleave step]. rewrite (F _ H2). reflexivity.
Qed.

(** C7 does not hold of the code: two callers that start on a free lock
    and are interleaved read, read, write, write both return [true]. *)
Theorem acquireLock_race_both_acquire :
  interleave [true; false; true; false]
    (Started 1000 "email_processor" "worker-1")
    (Started 1001 "email_processor" "worker-2") ∅
  = (Returned true, Returned true,
     {[ "email_processor" := mkLock (Some "worker-2") 301001 ]}).
Proof. vm_compute. reflexivity. Qed.

(** ** The run lock over its life *)

Lemma acquireLock_row now lockName workerId (locks locks' : gmap string SystemLock) :
  acquireLock now lockName workerId locks = (true, locks') ->
  locks' = <[lockName := mkLock (Some workerId) (now + LOCK_TTL_MS)]> locks.
Proof.
  unfold acquireLock. destruct (locks !! lockName) as [l|].
  - destruct (Z.ltb now (expiresAt l)); intros H; inversion H; reflexivity.
  - intros H; inversion H; reflexivity.
Qed.

(** X13. After [acquireLock] has answered [true] at time [now], the lock
    is held exactly until [now + 300000]: [isLocked] is true before
    that time and false from it on; until then a further [acquireLock],
    by any worker, answers [false] and leaves the table as it is, and
    from then on it takes the lock over. *)
Theorem acquireLock_excludes now lockName workerId
    (locks locks' : gmap string SystemLock) :
  acquireLock now lockName workerId locks = (true, locks') ->
  forall t other,
    isLocked t lockName locks' = Z.ltb t (now + 300000)
    /\ ((t < now + 300000)%Z ->
        acquireLock t lockName other locks' = (false, locks'))
    /\ ((now + 300000 <= t)%Z ->
        acquireLock t lockName other locks'
        = (true, <[lockName := mkLock (Some other) (t + 300000)]> locks')).
Proof.
  intros H t other. apply acquireLock_row in H. subst locks'.
  unfold isLocked, acquireLock. rewrite lookup_insert_eq. cbn [expiresAt].
  rewrite LOCK_TTL_MS_value. repeat split.
  - intros Ht. apply Z.ltb_lt in Ht. rewrite Ht. reflexivity.
  - intros Ht. apply Z.ltb_ge in Ht. rewrite Ht. reflexivity.
Qed.

Lemma acquireLock_excludes_witness :
  acquireLock 1000 "email_processor" "w1" ∅
  = (true, {[ "email_processor" := mkLock (Some "w1") 301000 ]})
  /\ isLocked 2000 "email_processor" {[ "email_processor" := mkLock (Some "w1") 301000 ]}
     = true
  /\ acquireLock 2000 "email_processor" "w2"
       {[ "email_processor" := mkLock (Some "w1") 301000 ]}
     = (false, {[ "email_processor" := mkLock (Some "w1") 301000 ]}).
Proof.
  assert (H : acquireLock 1000 "email_processor" "w1" ∅
              = (true, {[ "email_processor" := mkLock (Some "w1") 301000 ]}))
    by reflexivity.
  split; [exact H|].
  destruct (acquireLock_excludes _ _ _ _ _ H 2000%Z "w2") as (H1 & H2 & _).
  split; [exact H1|]. apply H2. lia.
Defined.

(** X14. After [releaseLock], at any time from the epoch on, the lock
    is not held, the next [acquireLock] succeeds for any worker and
    [extendLock] fails for every worker; releasing twice is releasing
    once, and releasing a lock that has no row changes nothing.  The
    holder is not looked at. *)
Theorem releaseLock_frees lockName (locks : gmap string SystemLock) t workerId :
  (0 <= t)%Z ->
  let released := releaseLock lockName locks in
  isLocked t lockName released = false
  /\ fst (acquireLock t lockName workerId released) = true
  /\ extendLock t lockName workerId released = (false, released)
  /\ releaseLock lockName released = released
  /\ (locks !! lockName = None -> released = locks).
Proof.
  intros Ht. cbv zeta. unfold releaseLock.
  destruct (locks !! lockName) as [l|] eqn:E.
  - unfold isLocked, acquireLock, extendLock. rewrite !lookup_insert_eq.
    cbn [expiresAt lockedBy].
    assert (Hf : Z.ltb t 0 = false) by (apply Z.ltb_ge; lia).
    rewrite Hf. repeat split; try reflexivity.
    + rewrite insert_insert_eq. reflexivity.
    + discriminate.
  - unfold isLocked, acquireLock, extendLock. rewrite !E. repeat split; reflexivity.
Qed.

Lemma releaseLock_frees_witness :
  let released :=
    releaseLock "email_processor" {[ "email_processor" := mkLock (Some "w1") 301000 ]} in
  isLocked 2000 "email_processor" released = false
  /\ fst (acquireLock 2000 "email_processor" "w2" released) = true.
Proof.
  cbv zeta.
  destruct (releaseLock_frees "email_processor"
              {[ "email_processor" := mkLock (Some "w1") 301000 ]} 2000%Z "w2")
    as (H1 & H2 & _); [lia|].
  split; [exact H1 | exact H2].
Defined.

(** X15. [extendLock] moves the expiry to five minutes from now when
    the caller is the holder written in the row, whether or not the
    lock has run out, and writes nothing otherwise; after a successful
    [acquireLock] it succeeds for the acquiring worker and for no
    other. *)
Theorem extendLock_holder_only t lockName workerId
    (locks : gmap string SystemLock) :
  (forall l, locks !! lockName = Some l -> lockedBy l = Some workerId ->
     extendLock t lockName workerId locks
     = (true, <[lockName := mkLock (Some workerId) (t + 300000)]> locks))
  /\ ((forall l, locks !! lockName = Some l -> lockedBy l <> Some workerId) ->
     extendLock t lockName workerId locks = (false, locks))
  /\ (forall now locks0 other,
        acquireLock now lockName workerId locks0 = (true, locks) ->
        fst (extendLock t lockName other locks) = String.eqb workerId other).
Proof.
  unfold extendLock. rewrite LOCK_TTL_MS_value. repeat split.
  - intros l E Hl. rewrite E, Hl, String.eqb_refl. reflexivity.
  - intros H. destruct (locks !! lockName) as [l|] eqn:E; [|reflexivity].
    specialize (H l eq_refl). destruct (lockedBy l) as [h|]; [|reflexivity].
    destruct (String.eqb h workerId) eqn:Eh; [|reflexivity].
    apply String.eqb_eq in Eh. subst h. contradiction.
  - intros now locks0 other H. apply acquireLock_row in H. subst locks.
    rewrite lookup_insert_eq. cbn [lockedBy].
    destruct (String.eqb workerId other); reflexivity.
Qed.

Lemma extendLock_holder_only_witness :
  extendLock 400000 "email_processor" "w1"
    {[ "email_processor" := mkLock (Some "w1") 301000 ]}
  = (true, <["email_processor" := mkLock (Some "w1") 700000]>
             {[ "email_processor" := mkLock (Some "w1") 301000 ]})
  /\ extendLock 2000 "email_processor" "w2"
       {[ "email_processor" := mkLock (Some "w1") 301000 ]}
     = (false, {[ "email_processor" := mkLock (Some "w1") 301000 ]}).
Proof.
  split.
  - apply (proj1 (extendLock_holder_only 400000 "email_processor" "w1"
                    {[ "email_processor" := mkLock (Some "w1") 301000 ]})
                 (mkLock (Some "w1") 301000)); reflexivity.
  - apply (proj1 (proj2 (extendLock_holder_only 2000 "email_processor" "w2"
                    {[ "email_processor" := mkLock (Some "w1") 301000 ]}))).
    intros l E. vm_compute in E. inversion E. discriminate.
Defined.

(** X16. The operations on one lock name leave the rows of all other
    names as they are. *)
Theorem lock_frame now lockName workerId other
    (locks : gmap string SystemLock) :
  lockName <> other ->
  snd (acquireLock now lockName workerId locks) !! other = locks !! other
  /\ releaseLock lockName locks !! other = locks !! other
  /\ snd (extendLock now lockName workerId locks) !! other = locks !! other
  /\ isLocked now other (snd (acquireLock now lockName workerId locks))
     = isLocked now other locks
  /\ isLocked now other (releaseLock lockName locks) = isLocked now other locks.
Proof.
  intros Hne.
  assert (A : snd (acquireLock now lockName workerId locks) !! other = locks !! other).
  { unfold acquireLock. destruct (locks !! lockName) as [l|].
    - destruct (Z.ltb now (expiresAt l)); cbn [snd]; [reflexivity|].
      apply lookup_insert_ne; exact Hne.
    - cbn [snd]. apply lookup_insert_ne; exact Hne. }
  assert (B : releaseLock lockName locks !! other = locks !! other).
  { unfold releaseLock. destruct (locks !! lockName); [|reflexivity].
    apply lookup_insert_ne; exact Hne. }
  repeat split.
  - exact A.
  - exact B.
  - unfold extendLock. destruct (locks !! lockName) as [l|]; [|reflexivity].
    destruct (lockedBy l) as [h|]; [|reflexivity].
    destruct (String.eqb h workerId); cbn [snd]; [|reflexivity].
    apply lookup_insert_ne; exact Hne.
  - unfold isLocked. rewrite A. reflexivity.
  - unfold isLocked. rewrite B. reflexivity.
Qed.

Lemma lock_frame_witness :
  snd (acquireLock 1000 "email_processor" "w1"
         {[ "digest" := mkLock (Some "w0") 5000 ]}) !! "digest"
  = Some (mkLock (Some "w0") 5000).
Proof.
  rewrite (proj1 (lock_frame 1000 "email_processor" "w1" "digest"
                    {[ "digest" := mkLock (Some "w0") 5000 ]} ltac:(discriminate))).
  reflexivity.
Defined.
(** ** Round-robin assignment *)

Lemma oldest_spec (rows : list Agent) (m : Agent) :
  oldest rows = Some m ->
  In m rows /\ forall x, In x rows -> assignedBefore x m = false.
Proof.
  revert m. induction rows as [|a rows IH]; intros m H; [discriminate|].
  cbn [oldest] in H.
  destruct (oldest rows) as [b|] eqn:E.
  - destruct (IH b eq_refl) as [Hin Hmin].
    destruct (assignedBefore b a) eqn:Hba; injection H as <-.
    + split; [now right|]. intros x [<-|Hx]; [|now apply Hmin].
      unfold assignedBefore in *.
      destruct (lastAssignedAt a), (lastAssignedAt b); try discriminate; try reflexivity.
      apply Z.ltb_lt in Hba. apply Z.ltb_ge. lia.
    + split; [now left|]. intros x [<-|Hx].
      * unfold assignedBefore. destruct (lastAssignedAt a); [apply Z.ltb_irrefl|reflexivity].
      * specialize (Hmin x Hx). unfold assignedBefore in *.
        destruct (lastAssignedAt x), (lastAssignedAt b), (lastAssignedAt a);
          try discriminate; try reflexivity.
        apply Z.ltb_ge in Hmin, Hba. apply Z.ltb_ge. lia.
  - injection H as <-. destruct rows as [|b rows].
    + split; [now left|]. intros x [<-|[]].
      unfold assignedBefore. destruct (lastAssignedAt a); [apply Z.ltb_irrefl|reflexivity].
    + cbn [oldest] in E. destruct (oldest rows); [destruct (assignedBefore _ b)|]; discriminate.
Qed.

Lemma oldest_None (rows : list Agent) : oldest rows = None <-> rows = [].
Proof.
  split; [|now intros ->].
  destruct rows as [|a rows]; [reflexivity|].
  cbn [oldest]. destruct (oldest rows); [destruct (assignedBefore _ a)|]; discriminate.
Qed.

Lemma assignedBefore_stamp (a b : Agent) :
  wasAssigned a = true -> wasAssigned b = true ->
  assignedBefore a b = Z.ltb (stamp a) (stamp b).
Proof.
  unfold wasAssigned, assignedBefore, stamp.
  destruct (lastAssignedAt a), (lastAssignedAt b); intros; try discriminate; reflexivity.
Qed.

Lemma pickAgentRoundRobin_throws now (agents : list Agent) :
  (exists e, fst (pickAgentRoundRobin now agents) = Throw e)
  <-> List.filter isActive agents = [].
Proof.
  unfold pickAgentRoundRobin, findFirstActive.
  destruct (oldest (List.filter isActive agents)) as [m|] eqn:E; cbn [fst].
  - split; [intros [e He]; discriminate|].
    intros H. rewrite H in E. discriminate.
  - split; [intros _; now apply oldest_None|]. intros _. now eexists.
Qed.

Lemma touch_id now a : agentId (touch now a) = agentId a.
Proof. reflexivity. Qed.

Lemma updateAssigned_ids id now agents :
  map agentId (updateAssigned id now agents) = map agentId agents.
Proof.
  unfold updateAssigned. rewrite map_map. apply map_ext.
  intros a. now destruct (String.eqb (agentId a) id).
Qed.

Lemma updateAssigned_active id now agents :
  List.filter isActive (updateAssigned id now agents)
  = updateAssigned id now (List.filter isActive agents).
Proof.
  unfold updateAssigned.
  induction agents as [|a agents IH]; [reflexivity|].
  cbn [map List.filter].
  destruct (String.eqb (agentId a) id) eqn:E; cbn [touch isActive];
    destruct (isActive a); cbn [map]; rewrite ?E, IH; reflexivity.
Qed.

Lemma updateAssigned_pending bound id now agents :
  (bound <= now)%Z ->
  pendingOf bound (updateAssigned id now agents)
  = List.filter (fun a => negb (String.eqb (agentId a) id)) (pendingOf bound agents).
Proof.
  intros Hb. unfold pendingOf, updateAssigned.
  induction agents as [|a agents IH]; [reflexivity|].
  cbn [map List.filter].
  destruct (String.eqb (agentId a) id) eqn:E.
  - cbn [touch isActive stamp lastAssignedAt].
    replace (Z.ltb now bound) with false by (symmetry; apply Z.ltb_ge; lia).
    rewrite andb_false_r, IH.
    destruct (isActive a && Z.ltb (stamp a) bound)%bool; [|reflexivity].
    cbn [List.filter]. now rewrite E.
  - rewrite IH.
    destruct (isActive a && Z.ltb (stamp a) bound)%bool; [|reflexivity].
    cbn [List.filter]. now rewrite E.
Qed.

Lemma NoDup_map_injective {A B} (f : A -> B) (l : list A) x y :
  List.NoDup (map f l) -> In x l -> In y l -> f x = f y -> x = y.
Proof.
  induction l as [|a l IH]; intros Hnd Hx Hy E; [destruct Hx|].
  cbn [map] in Hnd. apply List.NoDup_cons_iff in Hnd as [Hna Hnd].
  destruct Hx as [<-|Hx], Hy as [<-|Hy]; auto.
  - exfalso. apply Hna. rewrite E. now apply in_map.
  - exfalso. apply Hna. rewrite <- E. now apply in_map.
Qed.

Lemma NoDup_map_filter {A B} (f : A -> B) (q : A -> bool) (l : list A) :
  List.NoDup (map f l) -> List.NoDup (map f (List.filter q l)).
Proof.
  induction l as [|a l IH]; intros H; [constructor|].
  cbn [map] in H. apply List.NoDup_cons_iff in H as [Hna Hnd].
  cbn [List.filter]. destruct (q a); [|now apply IH].
  cbn [map]. constructor; [|now apply IH].
  intros Hin. apply Hna. apply in_map_iff in Hin as (x & Ex & Hx).
  apply filter_In in Hx as [Hx _]. rewrite <- Ex. now apply in_map.
Qed.

Lemma Permutation_remove_id (l : list Agent) (m : Agent) :
  List.NoDup (map agentId l) -> In m l ->
  Permutation (m :: List.filter (fun a => negb (String.eqb (agentId a) (agentId m))) l) l.
Proof.
  induction l as [|a l IH]; intros Hnd Hin; [destruct Hin|].
  cbn [map] in Hnd. apply List.NoDup_cons_iff in Hnd as [Hna Hnd].
  cbn [List.filter]. destruct Hin as [<-|Hin].
  - rewrite String.eqb_refl. cbn [negb]. constructor.
    rewrite forallb_filter_id; [reflexivity|].
    apply forallb_forall. intros x Hx.
    destruct (String.eqb (agentId x) (agentId a)) eqn:E; [|reflexivity].
    apply String.eqb_eq in E. exfalso. apply Hna. rewrite <- E. now apply in_map.
  - destruct (String.eqb (agentId a) (agentId m)) eqn:E.
    + apply String.eqb_eq in E. exfalso. apply Hna. rewrite E. now apply in_map.
    + cbn [negb]. rewrite perm_swap. constructor. now apply IH.
Qed.

Lemma pending_active bound agents p :
  In p (pendingOf bound agents) ->
  In p (List.filter isActive agents) /\ (stamp p < bound)%Z.
Proof.
  unfold pendingOf. rewrite !filter_In. intros [Hin H].
  apply andb_prop in H as [Ha Hs]. apply Z.ltb_lt in Hs. auto.
Qed.

Lemma round_step bound now agents :
  roundInv bound agents -> pendingOf bound agents <> [] -> (bound <= now)%Z ->
  exists m,
    pickAgentRoundRobin now agents = (Ok m, updateAssigned (agentId m) now agents)
    /\ In m (pendingOf bound agents)
    /\ (forall p, In p (pendingOf bound agents) -> agentId p <> agentId m ->
          comesBefore m p)
    /\ roundInv bound (updateAssigned (agentId m) now agents).
Proof.
  intros (Hids & Hass & Hst) Hne Hb.
  destruct (pendingOf bound agents) as [|p0 ps] eqn:Ep; [congruence|].
  assert (Hp0 : In p0 (pendingOf bound agents)) by (rewrite Ep; now left).
  destruct (pending_active _ _ _ Hp0) as [Hp0a Hp0s].
  unfold pickAgentRoundRobin, findFirstActive.
  destruct (oldest (List.filter isActive agents)) as [m|] eqn:E.
  2:{ apply oldest_None in E. rewrite E in Hp0a. destruct Hp0a. }
  destruct (oldest_spec _ _ E) as [Hm Hmin].
  rewrite List.Forall_forall in Hass.
  assert (Hle : forall x, In x (List.filter isActive agents) -> (stamp m <= stamp x)%Z).
  { intros x Hx. specialize (Hmin x Hx).
    rewrite assignedBefore_stamp in Hmin by auto.
    apply Z.ltb_ge in Hmin. lia. }
  assert (Hmp : In m (pendingOf bound agents)).
  { unfold pendingOf. apply filter_In. apply filter_In in Hm as [Hm1 Hm2].
    split; [assumption|]. rewrite Hm2. cbn [andb]. apply Z.ltb_lt.
    specialize (Hle p0 Hp0a). lia. }
  exists m. split; [reflexivity|]. rewrite <- Ep in *. split; [assumption|]. split.
  - intros p Hp Hid. destruct (pending_active _ _ _ Hp) as [Hpa _].
    unfold comesBefore. specialize (Hle p Hpa).
    assert (stamp m <> stamp p); [|lia].
    intros Es. apply Hid. f_equal. symmetry.
    now apply (NoDup_map_injective stamp (pendingOf bound agents)).
  - split; [now rewrite updateAssigned_ids|]. split.
    + rewrite updateAssigned_active. unfold updateAssigned.
      apply List.Forall_forall. intros x Hx. apply in_map_iff in Hx as (y & <- & Hy).
      destruct (String.eqb (agentId y) (agentId m)); [reflexivity|auto].
    + rewrite updateAssigned_pending by assumption. now apply NoDup_map_filter.
Qed.

Lemma pickMany_round bound : forall nows agents,
  roundInv bound agents -> Forall (fun now => (bound <= now)%Z) nows ->
  List.length nows = List.length (pendingOf bound agents) ->
  exists picked agents',
    pickMany nows agents = (map Ok picked, agents')
    /\ Permutation picked (pendingOf bound agents)
    /\ StronglySorted comesBefore picked.
Proof.
  induction nows as [|now rest IH]; intros agents Hinv Hb Hlen.
  - exists [], agents. cbn [List.length] in Hlen.
    destruct (pendingOf bound agents); [|discriminate].
    repeat split; constructor.
  - apply List.Forall_cons_iff in Hb as [Hnow Hrest].
    assert (Hne : pendingOf bound agents <> []).
    { intros E. rewrite E in Hlen. discriminate. }
    destruct (round_step bound now agents Hinv Hne Hnow) as (m & Hpick & Hm & Hlt & Hinv').
    pose proof Hinv as (Hids & _ & _).
    assert (Hperm : Permutation
              (m :: pendingOf bound (updateAssigned (agentId m) now agents))
              (pendingOf bound agents)).
    { rewrite updateAssigned_pending by assumption.
      apply Permutation_remove_id; [|assumption].
      unfold pendingOf. now apply NoDup_map_filter. }
    destruct (IH (updateAssigned (agentId m) now agents) Hinv' Hrest)
      as (picked & agents' & Hmany & Hp & Hs).
    { apply Permutation_length in Hperm. cbn [List.length] in *. lia. }
    exists (m :: picked), agents'. cbn [pickMany]. rewrite Hpick, Hmany.
    split; [reflexivity|]. split.
    + rewrite <- Hperm. now constructor.
    + constructor; [assumption|]. apply List.Forall_forall. intros x Hx.
      eapply Permutation_in in Hx; [|exact Hp].
      rewrite updateAssigned_pending in Hx by assumption.
      apply filter_In in Hx as [Hx Hid]. apply Hlt; [assumption|].
      intros E. rewrite E, String.eqb_refl in Hid. discriminate.
Qed.

Lemma fold_min_le (now : Z) (rest : list Z) :
  Forall (fun x => (fold_right Z.min now rest <= x)%Z) (now :: rest)
  /\ In (fold_right Z.min now rest) (now :: rest).
Proof.
  induction rest as [|y rest [IH1 IH2]]; cbn [fold_right].
  - split; [constructor; [lia|constructor]|now left].
  - apply List.Forall_cons_iff in IH1 as [Hn Hr]. split.
    + constructor; [lia|]. constructor; [lia|].
      eapply List.Forall_impl; [|exact Hr]. cbn. intros; lia.
    + destruct (Z.min_spec y (fold_right Z.min now rest)) as [[_ ->]|[_ ->]].
      * right; now left.
      * destruct IH2 as [<-|H]; [now left|right; now right].
Qed.

(** C5. On a roster whose active agents carry pairwise distinct
    timestamps, all earlier than the clock readings of the calls, as
    many consecutive calls as there are active agents return every
    active agent once, oldest timestamp first, and nobody else; a call
    fails exactly when no agent is active. *)
Theorem roundRobin_fair (agents : list Agent) (nows : list Z) :
  List.NoDup (map agentId agents) ->
  Forall (fun a => wasAssigned a = true) (List.filter isActive agents) ->
  List.NoDup (map stamp (List.filter isActive agents)) ->
  Forall (fun a => Forall (fun now => (stamp a < now)%Z) nows)
         (List.filter isActive agents) ->
  List.length nows = List.length (List.filter isActive agents) ->
  (exists picked agents',
     pickMany nows agents = (map Ok picked, agents')
     /\ Permutation picked (List.filter isActive agents)
     /\ StronglySorted comesBefore picked
     /\ Forall (fun a => isActive a = true) picked)
  /\ (forall now, (exists e, fst (pickAgentRoundRobin now agents) = Throw e)
                  <-> List.filter isActive agents = []).
Proof.
  intros Hids Hass Hst Hclock Hlen.
  split; [|intros now; apply pickAgentRoundRobin_throws].
  destruct nows as [|now rest].
  - exists [], agents. destruct (List.filter isActive agents); [|discriminate].
    repeat split; constructor.
  - set (bound := fold_right Z.min now rest).
    destruct (fold_min_le now rest) as [Hle Hin]. fold bound in Hle, Hin.
    assert (Epend : pendingOf bound agents = List.filter isActive agents).
    { unfold pendingOf. rewrite List.Forall_forall in Hclock.
      clear -Hclock Hin. 
      assert (H : forall a, In a agents -> isActive a = true -> (stamp a < bound)%Z).
      { intros a Ha Hact.
        assert (Hx : In a (List.filter isActive agents)) by (apply filter_In; auto).
        specialize (Hclock a Hx). rewrite List.Forall_forall in Hclock. auto. }
      clear Hclock. induction agents as [|a agents IH]; [reflexivity|].
      cbn [List.filter]. rewrite IH by (intros; apply H; [now right|assumption]).
      destruct (isActive a) eqn:Ea; [|reflexivity].
      cbn [andb]. replace (Z.ltb (stamp a) bound) with true; [reflexivity|].
      symmetry. apply Z.ltb_lt. apply H; [now left|assumption]. }
    destruct (pickMany_round bound (now :: rest) agents) as (picked & agents' & Hm & Hp & Hs).
    + repeat split; [assumption|assumption|now rewrite Epend].
    + exact Hle.
    + now rewrite Epend.
    + exists picked, agents'. rewrite Epend in Hp. repeat split; try assumption.
      apply List.Forall_forall. intros x Hx. eapply Permutation_in in Hx; [|exact Hp].
      now apply filter_In in Hx.
Qed.

Lemma roundRobin_fair_witness :
  (exists picked agents',
     pickMany [100%Z; 101%Z] sampleRoster = (map Ok picked, agents')
     /\ Permutation picked (List.filter isActive sampleRoster)
     /\ StronglySorted comesBefore picked
     /\ Forall (fun a => isActive a = true) picked)
  /\ (forall now, (exists e, fst (pickAgentRoundRobin now sampleRoster) = Throw e)
                  <-> List.filter isActive sampleRoster = []).
Proof.
  apply (roundRobin_fair sampleRoster [100%Z; 101%Z]).
  - cbn. repeat (constructor; [cbn; intuition discriminate|]). constructor.
  - vm_compute. repeat constructor.
  - cbn. repeat (constructor; [cbn; intuition discriminate|]). constructor.
  - vm_compute. repeat constructor; lia.
  - reflexivity.
Defined.

(** Without that order of the clock the calls need not go round.  The
    two agents of [aheadRoster] are active, with the distinct timestamps
    100 and 200; the calls made at 150 and at 160 both return the first
    agent, whose refreshed timestamp is still the older one, and the
    second agent is not returned. *)
Lemma roundRobin_clock_counterexample :
  List.NoDup (map agentId aheadRoster)
  /\ List.filter isActive aheadRoster = aheadRoster
  /\ Forall (fun a => wasAssigned a = true) aheadRoster
  /\ List.NoDup (map stamp aheadRoster)
  /\ (exists a a' agents',
        pickMany [150%Z; 160%Z] aheadRoster = ([Ok a; Ok a'], agents')
        /\ agentId a = "a1" /\ agentId a' = "a1")
  /\ ~ (exists picked agents',
          pickMany [150%Z; 160%Z] aheadRoster = (map Ok picked, agents')
          /\ Permutation picked (List.filter isActive aheadRoster)).
Proof.
  split; [|split; [|split; [|split; [|split]]]].
  - cbn. repeat (constructor; [cbn; intuition discriminate|]). constructor.
  - reflexivity.
  - repeat constructor.
  - cbn. repeat (constructor; [cbn; intuition discriminate|]). constructor.
  - eexists _, _, _. vm_compute. repeat split.
  - intros (picked & agents' & E & P).
    vm_compute in E. injection E as E _.
    destruct picked as [|a [|a' [|? ?]]]; try discriminate E.
    cbn [map] in E. injection E as <- <-.
    apply Permutation_sym in P.
    assert (Hin : In (mkAgent "a2" "Mike Chen" "mike@example.com" true None 0 (Some 200%Z))
                     (List.filter isActive aheadRoster)) by (cbn; auto).
    eapply Permutation_in in Hin; [|exact P].
    destruct Hin as [H|[H|[]]]; discriminate H.
Qed.

(** ** Bookkeeping of the assignment *)

Lemma getAgentById_In id agents a :
  List.NoDup (map agentId agents) -> In a agents -> agentId a = id ->
  getAgentById id agents = Some a.
Proof.
  unfold getAgentById. induction agents as [|x l IH]; intros N H E; [destruct H|].
  cbn [map] in N. apply List.NoDup_cons_iff in N as [Nx N]. cbn [find].
  destruct H as [->|H].
  - now rewrite E, String.eqb_refl.
  - destruct (String.eqb (agentId x) id) eqn:Ex; [|now apply IH].
    apply String.eqb_eq in Ex. exfalso. apply Nx. rewrite Ex, <- E. now apply in_map.
Qed.

Lemma getAgentById_updateAssigned id' id now agents :
  getAgentById id' (updateAssigned id now agents)
  = if String.eqb id' id then option_map (touch now) (getAgentById id' agents)
    else getAgentById id' agents.
Proof.
  unfold getAgentById, updateAssigned.
  induction agents as [|x l IH]; cbn [map find option_map]; [now destruct (String.eqb id' id)|].
  destruct (String.eqb (agentId x) id) eqn:Ex.
  - rewrite touch_id. apply String.eqb_eq in Ex. subst id.
    destruct (String.eqb (agentId x) id') eqn:E'.
    + apply String.eqb_eq in E'. subst id'. now rewrite String.eqb_refl.
    + rewrite IH. reflexivity.
  - destruct (String.eqb (agentId x) id') eqn:E'; [|exact IH].
    apply String.eqb_eq in E'. subst id'. now rewrite Ex.
Qed.

Lemma findFirstActive_spec agents m :
  findFirstActive agents = Some m ->
  In m agents /\ isActive m = true
  /\ forall x, In x agents -> isActive x = true -> assignedBefore x m = false.
Proof.
  unfold findFirstActive. intros H. apply oldest_spec in H as [Hin Hmin].
  apply filter_In in Hin as [Hin Ha]. repeat split; auto.
  intros x Hx Hax. apply Hmin. now apply filter_In.
Qed.

(** X17. When [pickAgentRoundRobin] returns an agent, this agent is an
    active row of the table with no active row assigned before it; in
    the table left behind, read by [getAgentById], its counter is one
    higher and its timestamp is the time of the call, and every other
    row is unchanged. *)
Theorem pickAgentRoundRobin_bookkeeping (now : Z) (agents agents' : list Agent)
    (a : Agent) :
  List.NoDup (map agentId agents) ->
  pickAgentRoundRobin now agents = (Ok a, agents') ->
  In a agents /\ isActive a = true
  /\ (forall x, In x agents -> isActive x = true -> assignedBefore x a = false)
  /\ map agentId agents' = map agentId agents
  /\ getAgentById (agentId a) agents'
     = Some (mkAgent (agentId a) (agentName a) (agentEmail a) true (bookingUrl a)
                     (assignedCount a + 1) (Some now))
  /\ (forall id, id <> agentId a ->
        getAgentById id agents' = getAgentById id agents).
Proof.
  intros N. unfold pickAgentRoundRobin.
  destruct (findFirstActive agents) as [m|] eqn:E; [|discriminate].
  intros H. injection H as <- <-.
  apply findFirstActive_spec in E as (Hin & Ha & Hmin).
  repeat split; auto.
  - apply updateAssigned_ids.
  - rewrite getAgentById_updateAssigned, String.eqb_refl.
    rewrite (getAgentById_In _ _ m N Hin eq_refl). cbn [option_map]. unfold touch.
    now rewrite Ha.
  - intros id Hne. rewrite getAgentById_updateAssigned.
    apply String.eqb_neq in Hne. now rewrite Hne.
Qed.

Lemma pickAgentRoundRobin_bookkeeping_witness :
  exists agents',
    pickAgentRoundRobin 100 sampleRoster
    = (Ok (mkAgent "a2" "Mike Chen" "mike@example.com" true None 4 (Some 20%Z)), agents')
    /\ getAgentById "a2" agents'
       = Some (mkAgent "a2" "Mike Chen" "mike@example.com" true None 5 (Some 100%Z))
    /\ getAgentById "a1" agents' = getAgentById "a1" sampleRoster.
Proof.
  eexists. split; [reflexivity|].
  refine ((fun H => conj (proj1 (proj2 (proj2 (proj2 (proj2 H)))))
                         (proj2 (proj2 (proj2 (proj2 (proj2 H)))) "a1" _))
            (pickAgentRoundRobin_bookkeeping 100 sampleRoster _ _ _ eq_refl)).
  - discriminate.
  - repeat constructor; cbn; intuition discriminate.
Defined.

(** ** Accounting over many calls *)

Lemma pickAgentRoundRobin_count now agents id :
  List.NoDup (map agentId agents) ->
  countOf id (snd (pickAgentRoundRobin now agents))
  = (countOf id agents + timesPicked id [fst (pickAgentRoundRobin now agents)])%Z.
Proof.
  intros N. unfold pickAgentRoundRobin.
  destruct (findFirstActive agents) as [m|] eqn:E; cbn [fst snd timesPicked]; [|lia].
  apply findFirstActive_spec in E as (Hin & _ & _).
  unfold countOf. rewrite getAgentById_updateAssigned.
  rewrite (String.eqb_sym (agentId m) id).
  destruct (String.eqb id (agentId m)) eqn:Ei; [|lia].
  apply String.eqb_eq in Ei. subst id.
  rewrite (getAgentById_In _ _ m N Hin eq_refl). cbn. lia.
Qed.

Lemma pickAgentRoundRobin_ids now agents :
  map agentId (snd (pickAgentRoundRobin now agents)) = map agentId agents.
Proof.
  unfold pickAgentRoundRobin. destruct (findFirstActive agents); cbn [snd];
    [apply updateAssigned_ids|reflexivity].
Qed.

Lemma updateAssigned_flags id now agents :
  map isActive (updateAssigned id now agents) = map isActive agents.
Proof.
  unfold updateAssigned. rewrite map_map. apply map_ext. intros a.
  now destruct (String.eqb (agentId a) id).
Qed.

Lemma pickAgentRoundRobin_inactive now agents x :
  List.NoDup (map agentId agents) ->
  In x agents -> isActive x = false ->
  In x (snd (pickAgentRoundRobin now agents)).
Proof.
  intros N Hin Hx. unfold pickAgentRoundRobin.
  destruct (findFirstActive agents) as [m|] eqn:E; cbn [snd]; [|assumption].
  apply findFirstActive_spec in E as (Hm & Ha & _).
  unfold updateAssigned. apply in_map_iff. exists x. split; [|assumption].
  destruct (String.eqb (agentId x) (agentId m)) eqn:Ex; [|reflexivity].
  apply String.eqb_eq in Ex.
  assert (x = m) by (eapply NoDup_map_injective; eauto). subst. congruence.
Qed.

Lemma pickMany_accounting : forall nows agents,
  List.NoDup (map agentId agents) ->
  (forall id, countOf id (snd (pickMany nows agents))
              = (countOf id agents + timesPicked id (fst (pickMany nows agents)))%Z)
  /\ map agentId (snd (pickMany nows agents)) = map agentId agents
  /\ (forall x, In x agents -> isActive x = false -> In x (snd (pickMany nows agents))).
Proof.
  induction nows as [|now nows IH]; intros agents N; cbn [pickMany].
  - cbn [fst snd timesPicked]. repeat split; auto. intros; lia.
  - pose proof (pickAgentRoundRobin_count now agents) as C.
    pose proof (pickAgentRoundRobin_ids now agents) as I.
    pose proof (pickAgentRoundRobin_inactive now agents) as U.
    destruct (pickAgentRoundRobin now agents) as [r agents1]. cbn [fst snd] in *.
    assert (N1 : List.NoDup (map agentId agents1)) by now rewrite I.
    destruct (IH agents1 N1) as (C2 & I2 & U2).
    destruct (pickMany nows agents1) as [rs agents2]. cbn [fst snd] in *.
    repeat split.
    + intros id. rewrite C2, (C id N). destruct r; cbn [timesPicked]; lia.
    + now rewrite I2.
    + intros x Hx Hi. apply U2; [|assumption]. now apply U.
Qed.

(** X18. Over any number of consecutive calls, the assignment counter
    of every agent grows by the number of calls that returned it; the
    agents and their order stay, and the rows of inactive agents are
    never touched. *)
Theorem assignedCount_accounting (nows : list Z) (agents : list Agent) :
  List.NoDup (map agentId agents) ->
  let rs := fst (pickMany nows agents) in
  let agents' := snd (pickMany nows agents) in
  (forall id, countOf id agents' = (countOf id agents + timesPicked id rs)%Z)
  /\ map agentId agents' = map agentId agents
  /\ (forall x, In x agents -> isActive x = false -> In x agents')
  /\ List.length rs = List.length nows.
Proof.
  intros N. cbv zeta. destruct (pickMany_accounting nows agents N) as (C & I & U).
  repeat split; auto. clear. revert agents.
  induction nows as [|now nows IH]; intros agents; cbn [pickMany]; [reflexivity|].
  destruct (pickAgentRoundRobin now agents) as [r agents1].
  specialize (IH agents1). destruct (pickMany nows agents1). cbn [fst] in *.
  cbn [List.length]. now rewrite IH.
Qed.

Lemma assignedCount_accounting_witness :
  countOf "a2" (snd (pickMany [100%Z; 101%Z; 102%Z] sampleRoster)) = 6%Z
  /\ countOf "a1" (snd (pickMany [100%Z; 101%Z; 102%Z] sampleRoster)) = 5%Z
  /\ countOf "a3" (snd (pickMany [100%Z; 101%Z; 102%Z] sampleRoster)) = 9%Z.
Proof.
  assert (N : List.NoDup (map agentId sampleRoster))
    by (repeat constructor; cbn; intuition discriminate).
  pose proof (proj1 (assignedCount_accounting [100%Z; 101%Z; 102%Z] sampleRoster N)) as C.
  rewrite !C. repeat split; reflexivity.
Defined.

(** ** The rotation *)

Lemma cycle_shift {A} (a : list A) : forall n b,
  cycle (List.length a + n) (a ++ b) = a ++ cycle n (b ++ a).
Proof.
  induction a as [|x a IH]; intros n b.
  - cbn [List.length app Nat.add]. now rewrite app_nil_r.
  - cbn [List.length app Nat.add cycle]. f_equal.
    rewrite <- app_assoc, IH, <- app_assoc. reflexivity.
Qed.

Lemma cycle_round {A} (l : list A) n :
  cycle (List.length l + n) l = l ++ cycle n l.
Proof.
  pose proof (cycle_shift l n []) as H. now rewrite app_nil_r in H.
Qed.

Lemma cycle_short {A} (a : list A) : forall n b,
  n <= List.length a -> cycle n (a ++ b) = firstn n a.
Proof.
  induction a as [|x a IH]; intros n b H.
  - cbn [List.length] in H. assert (n = 0) by lia. subst. now destruct b.
  - destruct n as [|n]; [reflexivity|]. cbn [app cycle firstn]. f_equal.
    rewrite <- app_assoc. apply IH. cbn [List.length] in H. lia.
Qed.

Lemma cycle_nth {A} : forall n (l : list A) i,
  i < n -> l <> [] ->
  nth_error (cycle n l) i = nth_error l (i mod List.length l).
Proof.
  induction n as [|n IH]; intros l i Hi Hl; [lia|].
  destruct l as [|x l]; [contradiction|]. cbn [cycle].
  destruct i as [|j].
  - rewrite Nat.Div0.mod_0_l. reflexivity.
  - cbn [nth_error]. rewrite IH by (try lia; now destruct l).
    rewrite length_app. cbn [List.length]. rewrite Nat.add_1_r.
    set (N := S (List.length l)).
    pose proof (Nat.div_mod_eq j N) as D.
    pose proof (Nat.mod_upper_bound j N ltac:(unfold N; lia)) as U.
    destruct (Nat.eq_dec (j mod N) (List.length l)) as [E|E].
    + rewrite E, nth_error_app2 by lia. rewrite Nat.sub_diag.
      replace (S j mod N) with 0; [reflexivity|].
      apply (Nat.mod_unique (S j) N (S (j / N)) 0); unfold N in *; lia.
    + rewrite nth_error_app1 by (unfold N in *; lia).
      replace (S j mod N) with (S (j mod N)); [reflexivity|].
      apply (Nat.mod_unique (S j) N (j / N) (S (j mod N))); unfold N in *; lia.
Qed.

Lemma count_occ_firstn (l : list string) n x :
  count_occ string_dec (firstn n l) x <= count_occ string_dec l x.
Proof.
  rewrite <- (firstn_skipn n l) at 2. rewrite count_occ_app. lia.
Qed.

Lemma cycle_balanced (l : list string) x y :
  List.NoDup l -> In x l -> In y l ->
  forall n,
    count_occ string_dec (cycle n l) x <= count_occ string_dec (cycle n l) y + 1.
Proof.
  intros N Hx Hy n.
  induction n as [n IH] using (well_founded_induction lt_wf).
  destruct (Nat.le_gt_cases n (List.length l)) as [H|H].
  - rewrite <- (app_nil_r l) at 1. rewrite cycle_short by exact H.
    pose proof (count_occ_firstn l n x) as C.
    pose proof (proj1 (NoDup_count_occ string_dec l) N x). lia.
  - replace n with (List.length l + (n - List.length l)) by lia.
    rewrite cycle_round, !count_occ_app.
    rewrite (proj1 (NoDup_count_occ' string_dec l) N x Hx).
    rewrite (proj1 (NoDup_count_occ' string_dec l) N y Hy).
    assert (Hl : 0 < List.length l) by (destruct l; [destruct Hx|cbn; lia]).
    specialize (IH (n - List.length l) ltac:(lia)). lia.
Qed.

Lemma timesPicked_count id (picked : list Agent) :
  timesPicked id (map Ok picked)
  = Z.of_nat (count_occ string_dec (map agentId picked) id).
Proof.
  induction picked as [|a l IH]; [reflexivity|]. cbn [map timesPicked count_occ].
  rewrite IH. destruct (string_dec (agentId a) id) as [E|E].
  - apply String.eqb_eq in E. rewrite E. lia.
  - apply String.eqb_neq in E. rewrite E. lia.
Qed.

Lemma queueInv_ids agents q : queueInv agents q -> List.NoDup (map agentId q).
Proof.
  intros (N & _ & P & _).
  eapply Permutation_NoDup; [apply Permutation_map, Permutation_sym, P|].
  now apply NoDup_map_filter.
Qed.

Lemma StronglySorted_snoc {A} (R : A -> A -> Prop) (l : list A) x :
  StronglySorted R l -> Forall (fun a => R a x) l -> StronglySorted R (l ++ [x]).
Proof.
  induction l as [|a l IH]; intros S F; cbn [app]; [repeat constructor|].
  apply StronglySorted_inv in S as [S Fa]. apply List.Forall_cons_iff in F as [Ra F].
  constructor; [now apply IH|]. apply Forall_app. split; [assumption|now constructor].
Qed.

Lemma rotate_step now agents m rest :
  queueInv agents (m :: rest) ->
  Forall (fun a => (stamp a < now)%Z) (m :: rest) ->
  pickAgentRoundRobin now agents = (Ok m, updateAssigned (agentId m) now agents)
  /\ queueInv (updateAssigned (agentId m) now agents) (rest ++ [touch now m]).
Proof.
  intros Q F. pose proof (queueInv_ids _ _ Q) as Nq.
  destruct Q as (N & W & P & S).
  assert (Hm : In m (List.filter isActive agents)).
  { apply (Permutation_in _ P). now left. }
  unfold pickAgentRoundRobin, findFirstActive.
  destruct (oldest (List.filter isActive agents)) as [x|] eqn:E.
  2:{ apply oldest_None in E. rewrite E in Hm. destruct Hm. }
  apply oldest_spec in E as [Hx Hmin].
  assert (x = m).
  { pose proof (Hmin m Hm) as B.
    rewrite assignedBefore_stamp in B
      by (eapply List.Forall_forall in W; eauto).
    apply Z.ltb_ge in B.
    apply (Permutation_in _ (Permutation_sym P)) in Hx. destruct Hx as [<-|Hx]; [reflexivity|].
    apply StronglySorted_inv in S as [_ Fm].
    eapply List.Forall_forall in Fm; [|exact Hx]. unfold comesBefore in Fm. lia. }
  subst x. split; [reflexivity|].
  assert (Hrest : map (fun a => if String.eqb (agentId a) (agentId m)
                                then touch now a else a) rest = rest).
  { cbn [map] in Nq. apply List.NoDup_cons_iff in Nq as [Nm _].
    rewrite <- (map_id rest) at 2. apply map_ext_in. intros a Ha.
    destruct (String.eqb (agentId a) (agentId m)) eqn:Ea; [|reflexivity].
    apply String.eqb_eq in Ea. exfalso. apply Nm. rewrite <- Ea. now apply in_map. }
  repeat split.
  - now rewrite updateAssigned_ids.
  - rewrite updateAssigned_active. unfold updateAssigned.
    apply List.Forall_forall. intros a Ha. apply in_map_iff in Ha as (b & <- & Hb).
    destruct (String.eqb (agentId b) (agentId m)); [reflexivity|].
    eapply List.Forall_forall in W; eauto.
  - rewrite updateAssigned_active. unfold updateAssigned.
    rewrite <- (Permutation_map _ P). cbn [map]. rewrite String.eqb_refl, Hrest.
    symmetry. apply Permutation_cons_append.
  - apply StronglySorted_inv in S as [S _]. apply StronglySorted_snoc; [assumption|].
    apply List.Forall_cons_iff in F as [_ F].
    eapply List.Forall_impl; [|exact F]. intros a Ha. unfold comesBefore. exact Ha.
Qed.

Lemma pickMany_rotate : forall nows agents q,
  queueInv agents q -> q <> [] ->
  StronglySorted Z.lt nows ->
  Forall (fun a => Forall (fun now => (stamp a < now)%Z) nows) q ->
  exists picked agents',
    pickMany nows agents = (map Ok picked, agents')
    /\ map agentId picked = cycle (List.length nows) (map agentId q).
Proof.
  induction nows as [|now nows IH]; intros agents q Q Hq S F.
  - exists [], agents. split; [reflexivity|]. now destruct q.
  - destruct q as [|m rest]; [contradiction|].
    assert (F1 : Forall (fun a => (stamp a < now)%Z) (m :: rest)).
    { eapply List.Forall_impl; [|exact F]. intros a Ha.
      now apply List.Forall_cons_iff in Ha as [Ha _]. }
    destruct (rotate_step now agents m rest Q F1) as [E Q'].
    apply StronglySorted_inv in S as [S Fnow].
    destruct (IH (updateAssigned (agentId m) now agents) (rest ++ [touch now m]) Q')
      as (picked & agents' & E' & Hids).
    + now destruct rest.
    + exact S.
    + apply Forall_app. split.
      * apply List.Forall_cons_iff in F as [_ F].
        eapply List.Forall_impl; [|exact F]. intros a Ha.
        now apply List.Forall_cons_iff in Ha as [_ Ha].
      * constructor; [|constructor]. exact Fnow.
    + exists (m :: picked), agents'. cbn [pickMany]. rewrite E, E'. split; [reflexivity|].
      cbn [map List.length cycle]. f_equal. rewrite Hids, map_app. cbn [map].
      now rewrite touch_id.
Qed.

(** X19. With the clock moving forward between the calls, consecutive
    calls go round the active agents in the order of their timestamps
    before the first call, again and again: the [i]-th call returns
    agent [i mod N] of that order, and among any number of such calls
    the numbers of times two active agents are returned differ by at
    most one. *)
Theorem roundRobin_rotation (agents q : list Agent) (nows : list Z) :
  List.NoDup (map agentId agents) ->
  Forall (fun a => wasAssigned a = true) (List.filter isActive agents) ->
  Permutation q (List.filter isActive agents) ->
  StronglySorted comesBefore q ->
  q <> [] ->
  StronglySorted Z.lt nows ->
  Forall (fun a => Forall (fun now => (stamp a < now)%Z) nows) q ->
  exists picked agents',
    pickMany nows agents = (map Ok picked, agents')
    /\ (forall i, i < List.length nows ->
          nth_error (map agentId picked) i
          = nth_error (map agentId q) (i mod List.length q))
    /\ (forall x y, In x q -> In y q ->
          (timesPicked (agentId x) (map Ok picked)
           <= timesPicked (agentId y) (map Ok picked) + 1)%Z).
Proof.
  intros N W P S Hq Sn F.
  assert (Q : queueInv agents q) by (repeat split; assumption).
  destruct (pickMany_rotate nows agents q Q Hq Sn F) as (picked & agents' & E & Hids).
  exists picked, agents'. split; [exact E|]. split.
  - intros i Hi. rewrite Hids, cycle_nth, length_map; auto.
    now destruct q.
  - intros x y Hx Hy. rewrite !timesPicked_count, Hids.
    pose proof (cycle_balanced (map agentId q) (agentId x) (agentId y)
                  (queueInv_ids _ _ Q) (in_map _ _ _ Hx) (in_map _ _ _ Hy)
                  (List.length nows)). lia.
Qed.

Lemma roundRobin_rotation_witness :
  exists picked agents',
    pickMany [100%Z; 101%Z; 102%Z] sampleRoster = (map Ok picked, agents')
    /\ nth_error (map agentId picked) 2 = Some "a2".
Proof.
  set (q := [ mkAgent "a2" "Mike Chen" "mike@example.com" true None 4 (Some 20%Z);
              mkAgent "a1" "Sarah Johnson" "sarah@example.com" true None 4 (Some 50%Z) ]).
  assert (H1 : List.NoDup (map agentId sampleRoster))
    by (repeat constructor; cbn; intuition discriminate).
  assert (H2 : Forall (fun a => wasAssigned a = true) (List.filter isActive sampleRoster))
    by (repeat constructor).
  assert (H3 : Permutation q (List.filter isActive sampleRoster)) by apply perm_swap.
  assert (H4 : StronglySorted comesBefore q)
    by (repeat constructor; unfold comesBefore; cbn; lia).
  assert (H5 : q <> []) by discriminate.
  assert (H6 : StronglySorted Z.lt [100%Z; 101%Z; 102%Z]) by (repeat constructor; lia).
  assert (H7 : Forall (fun a => Forall (fun now => (stamp a < now)%Z)
                                       [100%Z; 101%Z; 102%Z]) q)
    by (repeat constructor; cbn; lia).
  destruct (roundRobin_rotation sampleRoster q [100%Z; 101%Z; 102%Z]
              H1 H2 H3 H4 H5 H6 H7) as (picked & agents' & E & Hn & _).
  exists picked, agents'. split; [exact E|].
  rewrite (Hn 2); [reflexivity|cbn; lia].
Defined.
(** ** The message processor *)

Section Stable.
Variable R : World -> World -> Prop.
Hypothesis R_refl : forall w, R w w.
Hypothesis R_trans : forall w1 w2 w3, R w1 w2 -> R w2 w3 -> R w1 w3.

Lemma stable_ret {A} (a : A) : stable R (ret a).
Proof. intros w. apply R_refl. Qed.

Lemma stable_throw {A} e : stable R (@throw A e).
Proof. intros w. apply R_refl. Qed.

Lemma stable_getWorld : stable R getWorld.
Proof. intros w. apply R_refl. Qed.

Lemma stable_bind {A B} (m : M A) (k : A -> M B) :
  stable R m -> (forall a, stable R (k a)) -> stable R (bind m k).
Proof.
  intros Hm Hk w. unfold bind. specialize (Hm w).
  destruct (m w) as [[a|e] w1]; cbn [snd] in *; [|assumption].
  eapply R_trans; [exact Hm|apply Hk].
Qed.

Lemma stable_swallow {A} (m : M A) : stable R m -> stable R (swallow m).
Proof. intros Hm w. unfold swallow. specialize (Hm w). now destruct (m w). Qed.

(** The steps of the processor, given the primitive ones. *)
Hypothesis R_log : forall e, stable R (logEvent e).
Hypothesis R_tick : stable R nextTick.
Hypothesis R_agent : forall ags, stable R (setAgent ags).
Hypothesis R_lead : forall f, stable R (setLead f).
Hypothesis R_status : forall id s e, stable R (setStatus id s e).

Variable env : Env.

Lemma stable_newDate : stable R (newDate env).
Proof. apply stable_bind; [exact R_tick|intros; apply stable_ret]. Qed.

Lemma stable_newId : stable R (newId env).
Proof. apply stable_bind; [exact R_tick|intros; apply stable_ret]. Qed.

Lemma stable_outside e : stable R (outside env e).
Proof.
  apply stable_bind; [apply R_log|intros _].
  apply stable_bind; [exact R_tick|intros t].
  destruct (failure env t); [apply stable_throw|apply stable_ret].
Qed.

Lemma stable_extractLeadData id : stable R (extractLeadData env id).
Proof.
  apply stable_bind; [apply stable_outside|intros _].
  destruct (falsy (gmailRaw env id)); [apply stable_throw|].
  cbv zeta. destruct (_ && _)%bool; [apply stable_throw|].
  destruct (parseLeadFromText _ _); [apply stable_ret|apply stable_throw].
Qed.

Lemma stable_pickAgent : stable R (pickAgent env).
Proof.
  apply stable_bind; [apply stable_getWorld|intros w0].
  destruct (findFirstActive (agent w0)); [|apply stable_throw].
  apply stable_bind; [apply stable_newDate|intros now].
  apply stable_bind; [apply R_agent|intros _].
  apply stable_bind; [apply R_log|intros _]. apply stable_ret.
Qed.

Lemma stable_upsertLead l id a : stable R (upsertLead env l id a).
Proof.
  apply stable_bind; [apply stable_getWorld|intros w0].
  apply stable_bind; [apply stable_newDate|intros t1].
  apply stable_bind; [apply stable_newDate|intros t2].
  destruct (lead w0 !! email l).
  - apply stable_bind; [apply R_lead|intros _].
    apply stable_bind; [apply R_log|intros _]. apply stable_ret.
  - apply stable_bind; [apply stable_newId|intros i].
    apply stable_bind; [apply R_lead|intros _].
    apply stable_bind; [apply R_log|intros _]. apply stable_ret.
Qed.

Lemma stable_replyOnce row a : stable R (replyOnce env row a).
Proof.
  unfold replyOnce. destruct (replySentAt row); [apply stable_ret|].
  apply stable_bind; [apply stable_outside|intros _].
  apply stable_bind; [apply stable_newDate|intros now].
  apply stable_bind; [apply R_lead|intros _]. apply R_log.
Qed.

Lemma stable_tryBody id : stable R (tryBody env id).
Proof.
  apply stable_bind; [apply stable_extractLeadData|intros l].
  apply stable_bind; [apply stable_pickAgent|intros a].
  apply stable_bind; [apply stable_upsertLead|intros row].
  apply stable_bind; [apply stable_replyOnce|intros _].
  apply stable_bind; [apply R_status|intros _].
  apply stable_bind; [apply R_log|intros _].
  apply stable_bind; [apply stable_outside|intros _]. apply stable_ret.
Qed.

Lemma stable_onFailure id e n : stable R (onFailure env id e n).
Proof.
  apply stable_bind; [apply R_status|intros _].
  apply stable_bind; [apply R_log|intros _].
  apply stable_swallow, stable_outside.
Qed.

(** After step 1, the rest of [processMessage] keeps to [R]. *)
Lemma stable_afterMark id w :
  R (snd (markProcessing env id w)) (snd (processMessage env id w)).
Proof.
  unfold processMessage. cbv zeta.
  destruct (markProcessing env id w) as [n w1]. cbn [snd].
  pose proof (stable_tryBody id w1) as H1.
  destruct (tryBody env id w1) as [[[row a]|e] w2]; cbn [snd] in *; [assumption|].
  pose proof (stable_onFailure id (errorMessageOf env (tick w2) e) n w2) as H2.
  destruct (onFailure env id (errorMessageOf env (tick w2) e) n w2) as [r w3]. cbn [snd] in *.
  eapply R_trans; eassumption.
Qed.
End Stable.

Lemma extends_refl w : extends w w.
Proof. exists []. now rewrite app_nil_r. Qed.

Lemma extends_same w w' : trace w' = trace w -> extends w w'.
Proof. intros H. exists []. now rewrite app_nil_r. Qed.

Lemma extends_trans w1 w2 w3 : extends w1 w2 -> extends w2 w3 -> extends w1 w3.
Proof. intros [e1 H1] [e2 H2]. exists (e1 ++ e2). now rewrite H2, H1, app_assoc. Qed.

Lemma countsUp_refl w : countsUp w w.
Proof. intros id. lia. Qed.

Lemma countsUp_trans w1 w2 w3 : countsUp w1 w2 -> countsUp w2 w3 -> countsUp w1 w3.
Proof. intros H1 H2 id. specialize (H1 id). specialize (H2 id). lia. Qed.

Lemma attemptsOf_setStatus id s e id' w :
  attemptsOf id' (snd (setStatus id s e w)) = attemptsOf id' w.
Proof.
  unfold setStatus, setProcessed, attemptsOf. cbn [snd processedMessage].
  destruct (processedMessage w !! id) as [p|] eqn:E; [|reflexivity].
  destruct (decide (id = id')) as [->|Hne].
  - now rewrite lookup_insert_eq, E.
  - now rewrite lookup_insert_ne.
Qed.

Lemma extends_afterMark env id w :
  extends (snd (markProcessing env id w)) (snd (processMessage env id w)).
Proof.
  apply stable_afterMark.
  - apply extends_refl.
  - apply extends_trans.
  - intros e w0. now exists [e].
  - intros w0. now apply extends_same.
  - intros ags w0. now apply extends_same.
  - intros f w0. now apply extends_same.
  - intros i s e w0. now apply extends_same.
Qed.

Lemma attemptsOf_afterMark env id w id' :
  attemptsOf id' (snd (processMessage env id w))
  = attemptsOf id' (snd (markProcessing env id w)).
Proof.
  apply (stable_afterMark (fun w1 w2 => attemptsOf id' w2 = attemptsOf id' w1)).
  - reflexivity.
  - intros w1 w2 w3 H1 H2. now rewrite H2.
  - intros e w0. reflexivity.
  - intros w0. reflexivity.
  - intros ags w0. reflexivity.
  - intros f w0. reflexivity.
  - intros i s e w0. apply attemptsOf_setStatus.
Qed.

Lemma attemptsOf_markProcessing env id w id' :
  attemptsOf id' (snd (markProcessing env id w))
  = if decide (id = id') then (attemptsOf id' w + 1)%Z else attemptsOf id' w.
Proof.
  unfold markProcessing, attemptsOf. cbn [snd processedMessage].
  destruct (decide (id = id')) as [->|Hne].
  - rewrite lookup_insert_eq. now destruct (processedMessage w !! id').
  - now rewrite lookup_insert_ne.
Qed.

Lemma countsUp_processMessage env id w :
  countsUp w (snd (processMessage env id w)).
Proof.
  intros id'. rewrite attemptsOf_afterMark, attemptsOf_markProcessing.
  destruct (decide (id = id')); lia.
Qed.

Lemma countsUp_processAll env ids : forall w,
  countsUp w (snd (processAll env ids w)).
Proof.
  induction ids as [|id ids IH]; intros w; [apply countsUp_refl|].
  cbn [processAll].
  pose proof (countsUp_processMessage env id w) as H1.
  destruct (processMessage env id w) as [r w1]. cbn [snd] in H1.
  specialize (IH w1). destruct (processAll env ids w1) as [rs w2]. cbn [snd] in *.
  eapply countsUp_trans; eassumption.
Qed.

Lemma added_app w w' evs : trace w' = trace w ++ evs -> added w w' = evs.
Proof. intros H. unfold added. rewrite H. now rewrite skipn_app, skipn_all, Nat.sub_diag. Qed.

(** C8. Every run of [processMessage] begins by writing the processing
    record of the message: attempt counter one above its former value,
    status [PROCESSING], no error detail.  That write is the first
    effect of the run; fetch, assignment, lead write and reply come
    after it.  Over any sequence of runs no attempt counter decreases. *)
Theorem processing_record_first (env : Env) (messageId : string) (w : World) :
  let prior := attemptsOf messageId w in
  let marked := snd (markProcessing env messageId w) in
  let w' := snd (processMessage env messageId w) in
  (exists row rest,
      added w w' = EvProcessing messageId row :: rest
      /\ processedMessage marked !! messageId = Some row
      /\ attempts row = (prior + 1)%Z
      /\ status row = PROCESSING
      /\ errorLog row = None
      /\ added w marked = [EvProcessing messageId row])
  /\ attemptsOf messageId w' = (prior + 1)%Z
  /\ (forall ids id, (attemptsOf id w <= attemptsOf id (snd (processAll env ids w)))%Z).
Proof.
  cbn zeta. split; [|split].
  - destruct (extends_afterMark env messageId w) as [rest Hrest].
    set (row := match processedMessage w !! messageId with
                | Some _ => mkProcessed (attemptsOf messageId w + 1)
                                        (clock env (tick w)) PROCESSING None
                | None => mkProcessed 1 (clock env (S (tick w))) PROCESSING None
                end).
    assert (Hm : trace (snd (markProcessing env messageId w))
                 = trace w ++ [EvProcessing messageId row]).
    { unfold markProcessing, row, attemptsOf. cbn [snd trace].
      now destruct (processedMessage w !! messageId). }
    exists row, rest. split; [|split; [|split; [|split; [|split]]]].
    + apply added_app. rewrite Hrest, Hm. now rewrite <- app_assoc.
    + unfold markProcessing, row, attemptsOf. cbn [snd processedMessage].
      rewrite lookup_insert_eq. now destruct (processedMessage w !! messageId).
    + unfold row, attemptsOf. now destruct (processedMessage w !! messageId).
    + unfold row. now destruct (processedMessage w !! messageId).
    + unfold row. now destruct (processedMessage w !! messageId).
    + now apply added_app.
  - rewrite attemptsOf_afterMark, attemptsOf_markProcessing.
    now rewrite decide_True.
  - intros ids id. apply countsUp_processAll.
Qed.
(** *** The steps of a run, one by one *)

Lemma outside_run env e w :
  outside env e w =
  (match failure env (tick w) with Some err => Throw err | None => Ok tt end,
   advance 1 [e] w).
Proof.
  unfold outside, bind, logEvent, nextTick, throw, ret, advance. cbn.
  destruct (failure env (tick w)); reflexivity.
Qed.

Lemma extractLeadData_run env id w :
  extractLeadData env id w =
  (match failure env (tick w) with
   | Some err => Throw err
   | None => parseOf env id
   end, advance 1 [EvFetch id] w).
Proof.
  unfold extractLeadData, bind. rewrite outside_run.
  destruct (failure env (tick w)); [reflexivity|].
  unfold parseOf, throw, ret.
  destruct (falsy (gmailRaw env id)); [reflexivity|]. cbv zeta.
  destruct (_ && _)%bool; [reflexivity|].
  destruct (parseLeadFromText _ _); reflexivity.
Qed.

Lemma pickAgent_run env w :
  pickAgent env w =
  match findFirstActive (agent w) with
  | None => (Throw noAgentsError, w)
  | Some a =>
      (Ok a, advance 1 [EvAssign (agentId a)]
               (withAgent (updateAssigned (agentId a) (clock env (tick w)) (agent w)) w))
  end.
Proof.
  unfold pickAgent, bind, getWorld. destruct (findFirstActive (agent w)); reflexivity.
Qed.

(** [pickAgent] is [pickAgentRoundRobin] on the agent table, at the
    reading of the clock. *)
Lemma pickAgent_roundRobin env w :
  fst (pickAgent env w) = fst (pickAgentRoundRobin (clock env (tick w)) (agent w))
  /\ agent (snd (pickAgent env w))
     = snd (pickAgentRoundRobin (clock env (tick w)) (agent w)).
Proof.
  rewrite pickAgent_run. unfold pickAgentRoundRobin.
  destruct (findFirstActive (agent w)); split; reflexivity.
Qed.

Lemma upsertLead_run env l id a w :
  upsertLead env l id a w =
  (Ok (upsertedRow env l id a (lead w) (tick w)),
   advance (match lead w !! email l with Some _ => 2 | None => 3 end)
           [EvUpsertLead (email l)]
           (withLead (<[email l := upsertedRow env l id a (lead w) (tick w)]> (lead w)) w)).
Proof.
  unfold upsertLead, upsertedRow, bind, getWorld, coalesce. cbn.
  destruct (lead w !! email l); reflexivity.
Qed.

Lemma replyOnce_run env row a w :
  replyOnce env row a w =
  match replySentAt row with
  | Some _ => (Ok tt, w)
  | None =>
      let send := EvSend (leadEmail row) (agentName a) (bookingUrlOf a) in
      match failure env (tick w) with
      | Some err => (Throw err, advance 1 [send] w)
      | None =>
          (Ok tt,
           advance 2 [send; EvReplyMarked (leadId row)]
             (withLead (markReplySent (leadId row) (clock env (1 + tick w)) (lead w)) w))
      end
  end.
Proof.
  unfold replyOnce. destruct (replySentAt row); [reflexivity|].
  unfold bind. rewrite outside_run. cbv zeta.
  destruct (failure env (tick w)); [reflexivity|].
  unfold advance, withLead, logEvent, markReplySent. cbn. now rewrite <- app_assoc.
Qed.

Lemma setStatus_run id s e w :
  setStatus id s e w =
  (Ok tt, mkWorld (tick w)
            (match processedMessage w !! id with
             | Some p => <[id := mkProcessed (attempts p) (lastAttemptAt p) s e]>
                           (processedMessage w)
             | None => processedMessage w
             end) (lead w) (agent w) (trace w)).
Proof. reflexivity. Qed.

Lemma onFailure_run env id e n w :
  lead (snd (onFailure env id e n w)) = lead w
  /\ trace (snd (onFailure env id e n w)) = trace w ++ [EvFailed id e; EvAlert id e n].
Proof.
  unfold onFailure, bind, swallow. rewrite setStatus_run. cbn [logEvent].
  rewrite outside_run. cbn. now rewrite <- app_assoc.
Qed.

Lemma sends_app (a b : list Event) : sends (a ++ b) = sends a + sends b.
Proof. unfold sends. now rewrite List.filter_app, List.length_app. Qed.

Lemma sends_cons (e : Event) (l : list Event) :
  sends (e :: l) = (if isSend e then 1 else 0) + sends l.
Proof. unfold sends. cbn [List.filter]. now destruct (isSend e). Qed.

Lemma finish_run env id row a w :
  let res := finish env id row a w in
  match replySentAt row with
  | Some _ =>
      lead (snd res) = lead w
      /\ trace (snd res) = trace w ++ [EvSuccess id; EvMarkRead id]
  | None =>
      let send := EvSend (leadEmail row) (agentName a) (bookingUrlOf a) in
      match failure env (tick w) with
      | Some err =>
          fst res = Throw err /\ lead (snd res) = lead w
          /\ trace (snd res) = trace w ++ [send]
      | None =>
          lead (snd res) = markReplySent (leadId row) (clock env (1 + tick w)) (lead w)
          /\ trace (snd res)
             = trace w ++ [send; EvReplyMarked (leadId row); EvSuccess id; EvMarkRead id]
      end
  end.
Proof.
  cbv zeta. unfold finish, bind. rewrite replyOnce_run.
  destruct (replySentAt row).
  - rewrite setStatus_run. cbn [logEvent]. rewrite outside_run.
    destruct (failure env _); cbn; now rewrite <- app_assoc.
  - cbv zeta. destruct (failure env (tick w)) as [err|]; [now cbn|].
    rewrite setStatus_run. cbn [logEvent]. rewrite outside_run.
    destruct (failure env _); cbn; now rewrite <- !app_assoc.
Qed.

(** [stepFiveAt] is the outcome of steps 2 to 4 of the code. *)
Lemma stepFiveAt_steps env id w1 :
  stepFiveAt env id w1 =
  match fst (untilUpsert env id w1) with
  | Ok x => Some x
  | Throw _ => None
  end.
Proof.
  unfold stepFiveAt, untilUpsert. unfold bind at 1. rewrite extractLeadData_run.
  destruct (failure env (tick w1)); [reflexivity|].
  destruct (parseOf env id) as [l|]; [|reflexivity].
  unfold bind at 1. rewrite pickAgent_run. cbn [agent advance].
  destruct (findFirstActive (agent w1)) as [a|]; [|reflexivity].
  unfold bind at 1. rewrite upsertLead_run. reflexivity.
Qed.

(** What the [try] does, by the way it reaches step 5. *)
Lemma tryBody_run env id w1 :
  let res := tryBody env id w1 in
  match stepFiveAt env id w1 with
  | None =>
      (exists e, fst res = Throw e) /\ lead (snd res) = lead w1
      /\ exists evs, trace (snd res) = trace w1 ++ evs /\ sends evs = 0
  | Some (l, a, row) =>
      let t := <[email l := row]> (lead w1) in
      match replySentAt row with
      | Some _ =>
          lead (snd res) = t
          /\ exists evs, trace (snd res) = trace w1 ++ evs /\ sends evs = 0
      | None =>
          match failure env (sendTick l w1) with
          | Some _ =>
              (exists e, fst res = Throw e) /\ lead (snd res) = t
              /\ exists evs, trace (snd res) = trace w1 ++ evs /\ sends evs = 1
          | None =>
              lead (snd res)
              = markReplySent (leadId row) (clock env (1 + sendTick l w1)) t
              /\ trace (snd res)
                 = trace w1 ++
                   [EvFetch id; EvAssign (agentId a); EvUpsertLead (email l);
                    EvSend (leadEmail row) (agentName a) (bookingUrlOf a);
                    EvReplyMarked (leadId row); EvSuccess id; EvMarkRead id]
          end
      end
  end.
Proof.
  intros res. unfold stepFiveAt.
  assert (Hres : res =
    bind (extractLeadData env id) (fun l =>
    bind (pickAgent env) (fun a =>
    bind (upsertLead env l id a) (fun row => finish env id row a))) w1)
    by reflexivity.
  clearbody res. unfold bind at 1 in Hres. rewrite extractLeadData_run in Hres.
  destruct (failure env (tick w1)) as [err|].
  { subst res. cbn [fst snd]. split; [now eexists|]. split; [reflexivity|].
    exists [EvFetch id]; split; reflexivity. }
  destruct (parseOf env id) as [l|err].
  2:{ subst res. cbn [fst snd]. split; [now eexists|]. split; [reflexivity|].
      exists [EvFetch id]; split; reflexivity. }
  unfold bind at 1 in Hres. rewrite pickAgent_run in Hres. cbn [agent advance] in Hres.
  destruct (findFirstActive (agent w1)) as [a|].
  2:{ subst res. cbn [fst snd]. split; [now eexists|]. split; [reflexivity|].
      exists [EvFetch id]; split; reflexivity. }
  unfold bind at 1 in Hres. rewrite upsertLead_run in Hres.
  set (row := upsertedRow env l id a _ _) in Hres.
  set (w4 := advance _ _ _) in Hres.
  assert (R4 : row = upsertedRow env l id a (lead w1) (2 + tick w1)) by reflexivity.
  assert (L4 : lead w4 = <[email l := row]> (lead w1)) by reflexivity.
  assert (T4 : tick w4 = sendTick l w1).
  { unfold sendTick, w4. cbn. now destruct (lead w1 !! email l). }
  assert (E4 : trace w4 = trace w1 ++ [EvFetch id; EvAssign (agentId a); EvUpsertLead (email l)]).
  { unfold w4. cbn. now rewrite <- !app_assoc. }
  clearbody w4 row. subst row res.
  pose proof (finish_run env id (upsertedRow env l id a (lead w1) (2 + tick w1)) a w4) as H.
  cbv zeta in H. rewrite T4, L4, E4 in H. cbv zeta.
  destruct (replySentAt _).
  - destruct H as [HL HT]. split; [assumption|].
    eexists. rewrite HT, <- app_assoc. split; reflexivity.
  - destruct (failure env (sendTick l w1)) as [err|].
    + destruct H as (HR & HL & HT). split; [now exists err|]. split; [assumption|].
      eexists. rewrite HT, <- app_assoc. split; reflexivity.
    + destruct H as [HL HT]. split; [assumption|].
      now rewrite HT, <- app_assoc.
Qed.

(** The run around the [try]. *)
Lemma processMessage_wrap env id w :
  let res := tryBody env id (snd (markProcessing env id w)) in
  let r := processMessage env id w in
  lead (snd r) = lead (snd res)
  /\ (exists evs, trace (snd r) = trace (snd res) ++ evs /\ sends evs = 0)
  /\ success (fst r) = match fst res with Ok _ => true | Throw _ => false end.
Proof.
  cbv zeta. unfold processMessage. cbv zeta.
  destruct (markProcessing env id w) as [n w1]. cbn [snd].
  destruct (tryBody env id w1) as [[[row a]|e] w2]; cbn [fst snd success].
  - split; [reflexivity|]. split; [|reflexivity]. exists []. now rewrite app_nil_r.
  - destruct (onFailure_run env id (errorMessageOf env (tick w2) e) n w2) as [HL HT].
    destruct (onFailure env id (errorMessageOf env (tick w2) e) n w2) as [u w3]. cbn [fst snd success] in *.
    split; [assumption|]. split; [|reflexivity]. eexists. split; [exact HT|reflexivity].
Qed.

Lemma markProcessing_run env id w :
  tick (snd (markProcessing env id w)) = 2 + tick w
  /\ lead (snd (markProcessing env id w)) = lead w
  /\ agent (snd (markProcessing env id w)) = agent w
  /\ exists p, trace (snd (markProcessing env id w)) = trace w ++ [EvProcessing id p].
Proof. unfold markProcessing. cbn. repeat split. now eexists. Qed.

(** What a run does, by the way it reaches step 5. *)
Lemma processMessage_run env id w :
  let r := fst (processMessage env id w) in
  let w' := snd (processMessage env id w) in
  match stepFive env id w with
  | None => success r = false /\ lead w' = lead w /\ sends (added w w') = 0
  | Some (l, a, row) =>
      let t := <[email l := row]> (lead w) in
      match replySentAt row with
      | Some _ => lead w' = t /\ sends (added w w') = 0
      | None =>
          match failure env (2 + sendTick l w) with
          | Some _ => success r = false /\ lead w' = t /\ sends (added w w') = 1
          | None =>
              lead w' = markReplySent (leadId row) (clock env (3 + sendTick l w)) t
              /\ sends (added w w') = 1
              /\ exists p post,
                   added w w' =
                   [EvProcessing id p; EvFetch id; EvAssign (agentId a);
                    EvUpsertLead (email l);
                    EvSend (leadEmail row) (agentName a) (bookingUrlOf a);
                    EvReplyMarked (leadId row)] ++ post
          end
      end
  end.
Proof.
  cbv zeta. unfold stepFive.
  destruct (processMessage_wrap env id w) as (WL & (evs2 & WT & WS) & WR).
  destruct (markProcessing_run env id w) as (T1 & L1 & A1 & p & E1).
  pose proof (tryBody_run env id (snd (markProcessing env id w))) as H. cbv zeta in H.
  assert (S1 : forall l, sendTick l (snd (markProcessing env id w)) = 2 + sendTick l w).
  { intros l. unfold sendTick. rewrite L1, T1. destruct (lead w !! email l); lia. }
  set (w1 := snd (markProcessing env id w)) in *.
  set (res := tryBody env id w1) in *.
  set (r := processMessage env id w) in *. clearbody r res w1.
  destruct (stepFiveAt env id w1) as [[[l a] row]|].
  - rewrite S1, L1 in H. destruct (replySentAt row).
    + destruct H as (HL & evs & HT & HS). split; [congruence|].
      erewrite added_app; [|rewrite WT, HT, E1, <- !app_assoc; reflexivity].
      cbn [app]. rewrite sends_cons, sends_app, HS, WS. reflexivity.
    + replace (3 + sendTick l w) with (1 + (2 + sendTick l w)) by lia.
      destruct (failure env (2 + sendTick l w)).
      * destruct H as ((e & HR) & HL & evs & HT & HS).
        split; [now rewrite WR, HR|]. split; [congruence|].
        erewrite added_app; [|rewrite WT, HT, E1, <- !app_assoc; reflexivity].
        cbn [app]. rewrite sends_cons, sends_app, HS, WS. reflexivity.
      * destruct H as (HL & HT). split; [congruence|].
        erewrite added_app; [|rewrite WT, HT, E1, <- !app_assoc; reflexivity].
        cbn [app]. split.
        -- rewrite !sends_cons, WS. reflexivity.
        -- now eexists _, _.
  - destruct H as ((e & HR) & HL & evs & HT & HS).
    split; [now rewrite WR, HR|]. split; [congruence|].
    erewrite added_app; [|rewrite WT, HT, E1, <- !app_assoc; reflexivity].
    cbn [app]. rewrite sends_cons, sends_app, HS, WS. reflexivity.
Qed.

(** *** Step 4 and step 5 on the lead table *)

Lemma markReplySent_lookup id now (t : gmap string Lead) e r :
  t !! e = Some r ->
  exists r', markReplySent id now t !! e = Some r' /\ sameLead r r'
    /\ (leadId r = id -> replySentAt r' = Some now)
    /\ (replySentAt r <> None -> replySentAt r' <> None).
Proof.
  intros H. unfold markReplySent. rewrite lookup_fmap, H. cbn [fmap option_fmap option_map].
  eexists. split; [reflexivity|].
  destruct (String.eqb (leadId r) id) eqn:E.
  - split; [repeat split|]. split; [reflexivity|]. discriminate.
  - split; [repeat split|]. split; [|auto].
    intros <-. now rewrite String.eqb_refl in E.
Qed.

Lemma sameLead_refl r : sameLead r r.
Proof. repeat split. Qed.

(** The row of the candidate's email after a run that reached step 5:
    the upserted row, up to its reply timestamp. *)
Lemma processMessage_row env id w l a row :
  stepFive env id w = Some (l, a, row) ->
  exists row', lead (snd (processMessage env id w)) !! email l = Some row'
    /\ sameLead row row'
    /\ dom (lead (snd (processMessage env id w))) = {[ email l ]} ∪ dom (lead w)
    /\ (replySentAt row <> None -> replySentAt row' <> None)
    /\ (replySentAt row = None -> failure env (2 + sendTick l w) = None ->
        replySentAt row' = Some (clock env (3 + sendTick l w))).
Proof.
  intros H5. pose proof (processMessage_run env id w) as H. cbv zeta in H.
  rewrite H5 in H.
  assert (Hins : (<[email l := row]> (lead w)) !! email l = Some row)
    by apply lookup_insert_eq.
  destruct (replySentAt row) as [t|] eqn:Er.
  - destruct H as [HL _]. rewrite HL. exists row.
    split; [assumption|]. split; [apply sameLead_refl|].
    split; [apply dom_insert_L|]. split; [now rewrite Er|discriminate].
  - destruct (failure env (2 + sendTick l w)) as [err|].
    + destruct H as (_ & HL & _). rewrite HL. exists row.
      split; [assumption|]. split; [apply sameLead_refl|].
      split; [apply dom_insert_L|]. split; [now rewrite Er|discriminate].
    + destruct H as (HL & _). rewrite HL.
      destruct (markReplySent_lookup (leadId row) (clock env (3 + sendTick l w))
                  _ _ _ Hins) as (row' & Hr' & Hsame & Hset & _).
      exists row'. split; [assumption|]. split; [assumption|].
      split; [unfold markReplySent; rewrite dom_fmap_L; apply dom_insert_L|].
      split; [congruence|]. intros _ _. now apply Hset.
Qed.

(** C2. When the email of the candidate already has a lead row, step 4
    writes, under that email, the row of the same id whose first name,
    last name and phone are the candidate's where the candidate has
    them and the former ones where it has not, with the newly picked
    agent and the time of the write; after the run the table has that
    row for the email and the same set of emails as before. *)
Theorem lead_merge (env : Env) (messageId : string) (w : World)
    (l : LeadData) (a : Agent) (row old : Lead) :
  stepFive env messageId w = Some (l, a, row) ->
  lead w !! email l = Some old ->
  let w' := snd (processMessage env messageId w) in
  (leadId row = leadId old
   /\ leadFirstName row
      = match firstName l with Some v => Some v | None => leadFirstName old end
   /\ leadLastName row
      = match lastName l with Some v => Some v | None => leadLastName old end
   /\ leadPhone row
      = match phone l with Some v => Some v | None => leadPhone old end
   /\ findFirstActive (agent w) = Some a
   /\ assignedAgentId row = agentId a
   /\ assignedAt row = clock env (4 + tick w))
  /\ (exists row', lead w' !! email l = Some row' /\ sameLead row row')
  /\ dom (lead w') = dom (lead w)
  /\ size (lead w') = size (lead w).
Proof.
  intros H5 Hold w'.
  destruct (processMessage_row env messageId w l a row H5)
    as (row' & Hrow' & Hsame & Hdom & _).
  assert (Hd : dom (lead w') = dom (lead w)).
  { subst w'. rewrite Hdom. apply elem_of_dom_2 in Hold.
    apply set_eq. intros x. rewrite elem_of_union, elem_of_singleton.
    split; [intros [->|]; assumption|auto]. }
  split; [|split; [now exists row'|split; [assumption|]]].
  - unfold stepFive, stepFiveAt in H5.
    destruct (markProcessing_run env messageId w) as (T1 & L1 & A1 & _).
    rewrite T1, L1, A1 in H5.
    destruct (failure env (2 + tick w)); [discriminate|].
    destruct (parseOf env messageId) as [l0|]; [|discriminate].
    destruct (findFirstActive (agent w)) as [a0|]; [|discriminate].
    injection H5 as -> -> <-. unfold upsertedRow. rewrite Hold. cbn.
    repeat split.
  - rewrite <- !size_dom. now rewrite Hd.
Qed.

Lemma lead_merge_witness :
  let w' := snd (processMessage sampleEnv "m1" answeredWorld) in
  exists row',
    lead w' !! "ann.lee@example.org" = Some row'
    /\ leadFirstName row' = Some "Ann" /\ leadLastName row' = Some "Lee"
    /\ leadPhone row' = Some "5551234567"
    /\ assignedAgentId row' = "a2"
    /\ size (lead w') = 1.
Proof.
  destruct (stepFive sampleEnv "m1" answeredWorld) as [[[l a] row]|] eqn:H5;
    [|vm_compute in H5; discriminate].
  assert (E : Some (l, a, row) = stepFive sampleEnv "m1" answeredWorld) by now symmetry.
  vm_compute in E. injection E as -> -> ->.
  destruct (lead_merge sampleEnv "m1" answeredWorld _ _ _
              (mkLead "lead-0" "ann.lee@example.org" (Some "Ann") None
                      (Some "5551234567") generic "m0" "a1" 40 (Some 41%Z))
              H5 eq_refl)
    as (_ & (row' & Hrow' & Hsame) & _ & Hsize).
  cbv zeta. exists row'.
  destruct Hsame as (_ & _ & F & L & P & _ & _ & A & _).
  split; [exact Hrow'|]. cbn in F, L, P, A.
  repeat split; assumption.
Defined.

(** *** Replies over one run and over two *)

Lemma extends_processMessage env id w : extends w (snd (processMessage env id w)).
Proof.
  eapply extends_trans; [|apply extends_afterMark].
  destruct (markProcessing_run env id w) as (_ & _ & _ & p & E). now eexists.
Qed.

Lemma added_split w1 w2 w3 :
  extends w1 w2 -> extends w2 w3 -> added w1 w3 = added w1 w2 ++ added w2 w3.
Proof.
  intros [e1 H1] [e2 H2].
  rewrite (added_app w1 w2 e1 H1), (added_app w2 w3 e2 H2).
  apply added_app. now rewrite H2, H1, app_assoc.
Qed.

Lemma stepFive_inv env id w l a row :
  stepFive env id w = Some (l, a, row) ->
  failure env (2 + tick w) = None /\ parseOf env id = Ok l
  /\ findFirstActive (agent w) = Some a
  /\ row = upsertedRow env l id a (lead w) (4 + tick w).
Proof.
  unfold stepFive, stepFiveAt.
  destruct (markProcessing_run env id w) as (T1 & L1 & A1 & _).
  rewrite T1, L1, A1.
  destruct (failure env (2 + tick w)); [discriminate|].
  destruct (parseOf env id) as [l0|]; [|discriminate].
  destruct (findFirstActive (agent w)) as [a0|]; [|discriminate].
  intros H. injection H as -> -> <-. repeat split.
Qed.

Lemma upsertedRow_replySentAt env l id a (leads : gmap string Lead) t :
  replySentAt (upsertedRow env l id a leads t)
  = match leads !! email l with Some old => replySentAt old | None => None end.
Proof. unfold upsertedRow. now destruct (leads !! email l). Qed.

(** A run sends nothing when the lead of its candidate was answered. *)
Lemma no_send_when_replied env id w l :
  parseOf env id = Ok l -> replied w (email l) = true ->
  sends (added w (snd (processMessage env id w))) = 0.
Proof.
  intros Hp Hr. pose proof (processMessage_run env id w) as H. cbv zeta in H.
  destruct (stepFive env id w) as [[[l2 a2] row2]|] eqn:H5; [|apply H].
  destruct (stepFive_inv _ _ _ _ _ _ H5) as (_ & Hp2 & _ & ->).
  rewrite Hp in Hp2. injection Hp2 as <-.
  rewrite upsertedRow_replySentAt in H.
  unfold replied in Hr. destruct (lead w !! email l) as [old|]; [|discriminate].
  destruct (replySentAt old); [apply H|discriminate].
Qed.

(** C1, as the code has it. A run that reaches step 5 calls the
    outbound transport once when the upserted lead has no reply
    timestamp and not at all when it has one; a reply that went out is
    followed at once by the write of the timestamp.  After a successful
    run, a second run on the same message sends nothing; the two runs
    together send one reply when the lead had no reply timestamp before
    the first, and none when it had. *)
Theorem reply_idempotent (env : Env) (messageId : string) (w : World) :
  let r1 := processMessage env messageId w in
  let r2 := processMessage env messageId (snd r1) in
  let marked := snd (markProcessing env messageId w) in
  match stepFive env messageId w with
  | Some (l, a, row) =>
      sends (added w (snd r1))
      = match replySentAt row with None => 1 | Some _ => 0 end
      /\ (replySentAt row = None -> failure env (sendTick l marked) = None ->
          (exists before after,
             added w (snd r1) =
             before ++ EvSend (leadEmail row) (agentName a) (bookingUrlOf a)
                    :: EvReplyMarked (leadId row) :: after)
          /\ exists row', lead (snd r1) !! email l = Some row'
               /\ replySentAt row' = Some (clock env (1 + sendTick l marked)))
      /\ (success (fst r1) = true ->
          sends (added (snd r1) (snd r2)) = 0
          /\ sends (added w (snd r2)) = if replied w (email l) then 0 else 1)
  | None => sends (added w (snd r1)) = 0 /\ success (fst r1) = false
  end.
Proof.
  cbv zeta.
  pose proof (processMessage_run env messageId w) as H. cbv zeta in H.
  destruct (stepFive env messageId w) as [[[l a] row]|] eqn:H5; [|split; apply H].
  destruct (processMessage_row env messageId w l a row H5)
    as (row' & Hrow' & _ & _ & Hkeep & Hset).
  destruct (stepFive_inv _ _ _ _ _ _ H5) as (_ & Hp & _ & Erow).
  assert (S1 : sendTick l (snd (markProcessing env messageId w)) = 2 + sendTick l w).
  { destruct (markProcessing_run env messageId w) as (T1 & L1 & _).
    unfold sendTick. rewrite L1, T1. destruct (lead w !! email l); lia. }
  rewrite S1. change (1 + (2 + sendTick l w)) with (3 + sendTick l w).
  assert (Hrep : replied w (email l)
                 = match replySentAt row with Some _ => true | None => false end).
  { rewrite Erow, upsertedRow_replySentAt. unfold replied.
    now destruct (lead w !! email l). }
  split; [|split].
  - destruct (replySentAt row); [apply H|].
    destruct (failure env (2 + sendTick l w)); apply H.
  - intros Er Hf. rewrite Er, Hf in H. destruct H as (_ & _ & p & post & Hadd).
    split.
    + exists [EvProcessing messageId p; EvFetch messageId; EvAssign (agentId a);
              EvUpsertLead (email l)], post. exact Hadd.
    + exists row'. split; [assumption|]. now apply Hset.
  - intros Hok.
    assert (Hdone : replySentAt row' <> None).
    { destruct (replySentAt row) eqn:Er; [now apply Hkeep|].
      destruct (failure env (2 + sendTick l w)) eqn:Hf.
      - destruct H as (Hno & _). congruence.
      - rewrite Hset by auto. discriminate. }
    assert (H2 : sends (added (snd (processMessage env messageId w))
                   (snd (processMessage env messageId
                           (snd (processMessage env messageId w))))) = 0).
    { apply (no_send_when_replied env messageId _ l Hp).
      unfold replied. rewrite Hrow'. now destruct (replySentAt row'). }
    split; [exact H2|].
    rewrite (added_split w (snd (processMessage env messageId w)))
      by apply extends_processMessage.
    rewrite sends_app, H2, Hrep, Nat.add_0_r.
    destruct (replySentAt row); [apply H|].
    destruct (failure env (2 + sendTick l w)); apply H.
Qed.

Lemma reply_idempotent_witness :
  let r1 := processMessage sampleEnv "m1" sampleWorld in
  let r2 := processMessage sampleEnv "m1" (snd r1) in
  success (fst r1) = true
  /\ sends (added sampleWorld (snd r1)) = 1
  /\ sends (added (snd r1) (snd r2)) = 0
  /\ sends (added sampleWorld (snd r2)) = 1.
Proof.
  pose proof (reply_idempotent sampleEnv "m1" sampleWorld) as H. cbv zeta in H.
  destruct (stepFive sampleEnv "m1" sampleWorld) as [[[l a] row]|] eqn:H5;
    [|vm_compute in H5; discriminate].
  assert (E : Some (l, a, row) = stepFive sampleEnv "m1" sampleWorld) by now symmetry.
  vm_compute in E. injection E as -> -> ->.
  destruct H as (H1 & _ & H2).
  assert (Hok : success (fst (processMessage sampleEnv "m1" sampleWorld)) = true)
    by (vm_compute; reflexivity).
  destruct (H2 Hok) as [H3 H4].
  cbv zeta. split; [exact Hok|]. split; [exact H1|]. split; [exact H3|exact H4].
Defined.

(** Two runs need not send one reply: when the lead was answered before,
    the first run succeeds and the two runs together send none. *)
Lemma reply_count_counterexample :
  let r1 := processMessage sampleEnv "m1" answeredWorld in
  let r2 := processMessage sampleEnv "m1" (snd r1) in
  success (fst r1) = true
  /\ sends (added answeredWorld (snd r2)) = 0
  /\ ~ sends (added answeredWorld (snd r2)) = 1.
Proof. vm_compute. repeat split. discriminate. Qed.

(** ** The outcome of a run *)

Lemma finish_effects env id row a w :
  let res := finish env id row a w in
  exists evs,
    trace (snd res) = trace w ++ evs
    /\ forallb (fun e => negb (isReport e)) evs = true
    /\ match fst res with
       | Ok _ =>
           processedMessage (snd res) = withStatus id SUCCESS None (processedMessage w)
           /\ exists pre, evs = pre ++ [EvSuccess id; EvMarkRead id]
       | Throw _ =>
           processedMessage (snd res) = processedMessage w
           \/ processedMessage (snd res)
              = withStatus id SUCCESS None (processedMessage w)
       end.
Proof.
  cbv zeta. unfold finish, bind. rewrite replyOnce_run.
  destruct (replySentAt row).
  - rewrite setStatus_run. cbn [logEvent]. rewrite outside_run.
    exists [EvSuccess id; EvMarkRead id].
    destruct (failure env _); cbn; rewrite <- app_assoc; repeat split; auto.
    now exists [].
  - cbv zeta. destruct (failure env (tick w)) as [err|].
    { eexists [_]. cbn. repeat split; auto. }
    rewrite setStatus_run. cbn [logEvent]. rewrite outside_run.
    eexists [_; _; _; _].
    destruct (failure env _); cbn; rewrite <- !app_assoc; repeat split; auto.
    now eexists [_; _].
Qed.

Lemma tryBody_effects env id w1 :
  let res := tryBody env id w1 in
  exists evs,
    trace (snd res) = trace w1 ++ evs
    /\ forallb (fun e => negb (isReport e)) evs = true
    /\ match fst res with
       | Ok _ =>
           processedMessage (snd res) = withStatus id SUCCESS None (processedMessage w1)
           /\ exists pre, evs = pre ++ [EvSuccess id; EvMarkRead id]
       | Throw _ =>
           processedMessage (snd res) = processedMessage w1
           \/ processedMessage (snd res)
              = withStatus id SUCCESS None (processedMessage w1)
       end.
Proof.
  intros res.
  assert (Hres : res =
    bind (extractLeadData env id) (fun l =>
    bind (pickAgent env) (fun a =>
    bind (upsertLead env l id a) (fun row => finish env id row a))) w1)
    by reflexivity.
  clearbody res. unfold bind at 1 in Hres. rewrite extractLeadData_run in Hres.
  destruct (failure env (tick w1)) as [err|].
  { subst res. exists [EvFetch id]. cbn. auto. }
  destruct (parseOf env id) as [l|err].
  2:{ subst res. exists [EvFetch id]. cbn. auto. }
  unfold bind at 1 in Hres. rewrite pickAgent_run in Hres. cbn [agent advance] in Hres.
  destruct (findFirstActive (agent w1)) as [a|].
  2:{ subst res. exists [EvFetch id]. cbn. auto. }
  unfold bind at 1 in Hres. rewrite upsertLead_run in Hres.
  set (row := upsertedRow env l id a _ _) in Hres.
  set (w4 := advance _ _ _) in Hres.
  assert (P4 : processedMessage w4 = processedMessage w1) by reflexivity.
  assert (E4 : trace w4 = trace w1 ++ [EvFetch id; EvAssign (agentId a); EvUpsertLead (email l)]).
  { unfold w4. cbn. now rewrite <- !app_assoc. }
  clearbody w4 row. subst res.
  destruct (finish_effects env id row a w4) as (evs & HT & HR & H).
  exists ([EvFetch id; EvAssign (agentId a); EvUpsertLead (email l)] ++ evs).
  rewrite HT, E4, <- app_assoc. split; [reflexivity|]. split.
  { rewrite forallb_app, HR. reflexivity. }
  rewrite P4 in H. destruct (fst (finish env id row a w4)); [|exact H].
  destruct H as [HP (pre & ->)]. split; [exact HP|].
  eexists. now rewrite app_assoc.
Qed.

Lemma withStatus_twice id s e s' e' (t : gmap string ProcessedMessage) :
  withStatus id s' e' (withStatus id s e t) = withStatus id s' e' t.
Proof.
  unfold withStatus. destruct (t !! id) as [p|] eqn:E; [|now rewrite E].
  rewrite lookup_insert_eq. cbn [attempts lastAttemptAt]. apply insert_insert_eq.
Qed.

Lemma withStatus_insert id s e row (t : gmap string ProcessedMessage) :
  withStatus id s e (<[id := row]> t)
  = <[id := mkProcessed (attempts row) (lastAttemptAt row) s e]> t.
Proof. unfold withStatus. rewrite lookup_insert_eq. apply insert_insert_eq. Qed.

Lemma onFailure_effects env id e n w :
  processedMessage (snd (onFailure env id e n w))
  = withStatus id FAILED (Some e) (processedMessage w)
  /\ trace (snd (onFailure env id e n w)) = trace w ++ [EvFailed id e; EvAlert id e n].
Proof.
  unfold onFailure, bind, swallow. rewrite setStatus_run. cbn [logEvent].
  rewrite outside_run. cbn. rewrite <- app_assoc. now split.
Qed.

Lemma markProcessing_effects env id w :
  fst (markProcessing env id w) = (attemptsOf id w + 1)%Z
  /\ processedMessage (snd (markProcessing env id w))
     = <[id := mkProcessed (attemptsOf id w + 1) (markedAt env id w) PROCESSING None]>
         (processedMessage w)
  /\ exists row, trace (snd (markProcessing env id w)) = trace w ++ [EvProcessing id row].
Proof.
  unfold markProcessing, attemptsOf, markedAt. cbn [fst snd processedMessage trace].
  destruct (processedMessage w !! id); repeat split; now eexists.
Qed.

Lemma processMessage_table env id w :
  processedMessage (snd (processMessage env id w))
  = <[id :=
        mkProcessed (attemptsOf id w + 1) (markedAt env id w)
                    (if success (fst (processMessage env id w)) then SUCCESS else FAILED)
                    (error (fst (processMessage env id w)))]>
      (processedMessage w).
Proof.
  unfold processMessage. cbv zeta.
  destruct (markProcessing_effects env id w) as (HA & HP & _).
  destruct (markProcessing env id w) as [n w1]. cbn [fst snd] in HA, HP.
  pose proof (tryBody_effects env id w1) as (evs & _ & _ & H).
  destruct (tryBody env id w1) as [[[row a]|e] w2]; cbn [fst snd] in *.
  - destruct H as [H _]. rewrite H, HP, withStatus_insert. reflexivity.
  - destruct (onFailure_effects env id (errorMessageOf env (tick w2) e) n w2) as [HF _].
    destruct (onFailure env id (errorMessageOf env (tick w2) e) n w2) as [u w3]. cbn [fst snd] in *.
    rewrite HF.
    destruct H as [-> | ->]; rewrite ?withStatus_twice, HP, withStatus_insert;
      reflexivity.
Qed.

Lemma processMessage_result env id w :
  resMessageId (fst (processMessage env id w)) = id
  /\ (success (fst (processMessage env id w)) = true
      <-> error (fst (processMessage env id w)) = None).
Proof.
  unfold processMessage. cbv zeta. destruct (markProcessing env id w) as [n w1].
  destruct (tryBody env id w1) as [[[row a]|e] w2]; cbn [fst snd].
  - cbn. split; [reflexivity|]. split; reflexivity.
  - destruct (onFailure env id (errorMessageOf env (tick w2) e) n w2). cbn. split; [reflexivity|].
    split; discriminate.
Qed.

(** X20. A run of [processMessage] changes the processing table at the
    key of its message and nowhere else: the record left there counts
    one attempt more, carries the time of step 1, status [SUCCESS] and
    no error detail when the result reports success, and status
    [FAILED] with the error of the result otherwise. *)
Theorem processMessage_record (env : Env) (messageId : string) (w : World) :
  let r := fst (processMessage env messageId w) in
  let w' := snd (processMessage env messageId w) in
  processedMessage w'
  = <[messageId :=
        mkProcessed (attemptsOf messageId w + 1) (markedAt env messageId w)
                    (if success r then SUCCESS else FAILED) (error r)]>
      (processedMessage w)
  /\ (success r = true <-> error r = None)
  /\ resMessageId r = messageId.
Proof.
  cbv zeta. split; [apply processMessage_table|].
  destruct (processMessage_result env messageId w) as [H1 H2]. now split.
Qed.

(** X21. The events of a run begin with the write of the processing
    record.  A successful run ends with marking the message as read,
    right after the success was recorded, and reports no failure; a
    failed run ends with the record of the failure and one alert, which
    carries the error of the result and the new attempt count. *)
Theorem processMessage_outcome (env : Env) (messageId : string) (w : World) :
  let r := fst (processMessage env messageId w) in
  let w' := snd (processMessage env messageId w) in
  exists row pre,
    forallb (fun e => negb (isReport e)) pre = true
    /\ if success r then
         added w w' = EvProcessing messageId row :: pre
                      ++ [EvSuccess messageId; EvMarkRead messageId]
       else
         exists e, error r = Some e
           /\ added w w' = EvProcessing messageId row :: pre
                ++ [EvFailed messageId e;
                    EvAlert messageId e (attemptsOf messageId w + 1)].
Proof.
  cbv zeta. unfold processMessage. cbv zeta.
  destruct (markProcessing_effects env messageId w) as (HA & _ & row & HM).
  destruct (markProcessing env messageId w) as [n w1]. cbn [fst snd] in HA, HM.
  pose proof (tryBody_effects env messageId w1) as (evs & HT & HR & H).
  destruct (tryBody env messageId w1) as [[[lrow a]|e] w2]; cbn [fst snd] in *.
  - destruct H as [_ (pre & ->)]. exists row, pre.
    rewrite forallb_app in HR. apply andb_true_iff in HR as [HR _].
    split; [exact HR|]. apply added_app. rewrite HT, HM, <- app_assoc. reflexivity.
  - destruct (onFailure_effects env messageId (errorMessageOf env (tick w2) e) n w2) as [_ HF].
    destruct (onFailure env messageId (errorMessageOf env (tick w2) e) n w2) as [u w3]. cbn [fst snd] in *.
    exists row, evs. split; [exact HR|].
    exists (errorMessageOf env (tick w2) e). split; [reflexivity|].
    apply added_app. rewrite HF, HT, HM, HA, <- !app_assoc. reflexivity.
Qed.

(** *** Early and late failures *)





(** *** The lead table stays keyed by valid emails *)

Lemma parseOf_email env id l :
  parseOf env id = Ok l ->
  isValidEmail (email l) = true /\ toLowerCase (email l) = email l.
Proof.
  unfold parseOf. destruct (falsy (gmailRaw env id)); [discriminate|].
  set (raw := orEmpty (gmailRaw env id)). cbv zeta.
  destruct (_ && _)%bool; [discriminate|]. unfold parseLeadFromText. intros H.
  apply tryParsers_Ok in H as (b & p & a & E & Hp & Hv & _). split; [exact Hv|].
  pose proof (parsers_lower
                (if String.eqb (orEmpty (mailText (simpleParser env (base64UrlToBuffer raw))))
                               EmptyString
                 then stripHtmlTags (orEmpty (mailHtml (simpleParser env (base64UrlToBuffer raw))))
                 else orEmpty (mailText (simpleParser env (base64UrlToBuffer raw))))
                (orEmpty (mailSubject (simpleParser env (base64UrlToBuffer raw))))) as F.
  rewrite E in F. apply Forall_app in F as [_ F].
  apply List.Forall_cons_iff in F as [F _]. now apply F.
Qed.

Lemma keyedByEmail_insert (t : gmap string Lead) k row :
  keyedByEmail t -> leadEmail row = k -> isValidEmail k = true ->
  toLowerCase k = k -> keyedByEmail (<[k := row]> t).
Proof.
  intros K E V L k' r H. destruct (decide (k = k')) as [<-|Hne].
  - rewrite lookup_insert_eq in H. injection H as <-. auto.
  - rewrite lookup_insert_ne in H by exact Hne. now apply K.
Qed.

Lemma keyedByEmail_markReplySent (t : gmap string Lead) id now :
  keyedByEmail t -> keyedByEmail (markReplySent id now t).
Proof.
  intros K k r H. unfold markReplySent in H. rewrite lookup_fmap in H.
  destruct (t !! k) as [r0|] eqn:E; [|discriminate]. cbn in H. injection H as <-.
  destruct (K k r0 E) as (E1 & V & L). split; [|now split].
  now destruct (String.eqb (leadId r0) id).
Qed.

Lemma upsertedRow_email env l id a (leads : gmap string Lead) t :
  keyedByEmail leads -> leadEmail (upsertedRow env l id a leads t) = email l.
Proof.
  intros K. unfold upsertedRow. destruct (leads !! email l) as [old|] eqn:E;
    [|reflexivity]. cbn [leadEmail]. now apply K in E.
Qed.

Lemma finish_sendsTo env id row a w :
  exists evs,
    trace (snd (finish env id row a w)) = trace w ++ evs
    /\ forall to name url, In (EvSend to name url) evs ->
         to = leadEmail row /\ name = agentName a /\ url = bookingUrlOf a.
Proof.
  unfold finish, bind. rewrite replyOnce_run.
  destruct (replySentAt row).
  - rewrite setStatus_run. cbn [logEvent]. rewrite outside_run.
    exists [EvSuccess id; EvMarkRead id].
    destruct (failure env _); cbn; rewrite <- app_assoc; (split; [reflexivity|]);
      intros to name url [H|[H|[]]]; discriminate H.
  - cbv zeta. destruct (failure env (tick w)) as [err|].
    { eexists [_]. cbn. split; [reflexivity|].
      intros to name url [H|[]]. now inversion H. }
    rewrite setStatus_run. cbn [logEvent]. rewrite outside_run.
    eexists [_; _; _; _].
    destruct (failure env _); cbn; rewrite <- !app_assoc; (split; [reflexivity|]);
      intros to name url [H|[H|[H|[H|[]]]]]; try discriminate H; now inversion H.
Qed.

Lemma tryBody_sendsTo env id w1 :
  exists evs,
    trace (snd (tryBody env id w1)) = trace w1 ++ evs
    /\ forall to name url, In (EvSend to name url) evs ->
         exists l a row,
           stepFiveAt env id w1 = Some (l, a, row)
           /\ to = leadEmail row /\ name = agentName a /\ url = bookingUrlOf a.
Proof.
  unfold stepFiveAt.
  assert (Hres : tryBody env id w1 =
    bind (extractLeadData env id) (fun l =>
    bind (pickAgent env) (fun a =>
    bind (upsertLead env l id a) (fun row => finish env id row a))) w1)
    by reflexivity.
  rewrite Hres. clear Hres. unfold bind at 1. rewrite extractLeadData_run.
  destruct (failure env (tick w1)) as [err|].
  { exists [EvFetch id]. cbn. split; [reflexivity|].
    intros to name url [H|[]]. discriminate H. }
  destruct (parseOf env id) as [l|err].
  2:{ exists [EvFetch id]. cbn. split; [reflexivity|].
      intros to name url [H|[]]. discriminate H. }
  unfold bind at 1. rewrite pickAgent_run. cbn [agent advance].
  destruct (findFirstActive (agent w1)) as [a|].
  2:{ exists [EvFetch id]. cbn. split; [reflexivity|].
      intros to name url [H|[]]. discriminate H. }
  unfold bind at 1. rewrite upsertLead_run.
  set (row := upsertedRow env l id a _ _).
  set (w4 := advance _ _ _).
  assert (R4 : row = upsertedRow env l id a (lead w1) (2 + tick w1)) by reflexivity.
  assert (E4 : trace w4 = trace w1 ++ [EvFetch id; EvAssign (agentId a); EvUpsertLead (email l)]).
  { unfold w4. cbn. now rewrite <- !app_assoc. }
  clearbody w4 row.
  destruct (finish_sendsTo env id row a w4) as (evs & HT & HS).
  exists ([EvFetch id; EvAssign (agentId a); EvUpsertLead (email l)] ++ evs).
  rewrite HT, E4, <- app_assoc. split; [reflexivity|].
  intros to name url H. apply in_app_or in H as [H|H].
  - destruct H as [H|[H|[H|[]]]]; discriminate H.
  - exists l, a, row. split; [now rewrite R4|]. now apply HS.
Qed.

Lemma bookingUrlOf_nonempty a : bookingUrlOf a <> EmptyString.
Proof.
  unfold bookingUrlOf. destruct (bookingUrl a) as [u|]; [|discriminate].
  destruct (String.eqb u EmptyString) eqn:E; [discriminate|].
  now apply String.eqb_neq in E.
Qed.

Lemma processMessage_keyed env id w :
  keyedByEmail (lead w) -> keyedByEmail (lead (snd (processMessage env id w))).
Proof.
  intros K. pose proof (processMessage_run env id w) as H. cbv zeta in H.
  destruct (stepFive env id w) as [[[l a] row]|] eqn:E5.
  - pose proof (stepFive_inv _ _ _ _ _ _ E5) as (_ & HP & _ & HR).
    apply parseOf_email in HP as [V L].
    assert (KT : keyedByEmail (<[email l := row]> (lead w))).
    { apply keyedByEmail_insert; auto. rewrite HR. now apply upsertedRow_email. }
    destruct (replySentAt row).
    + destruct H as [-> _]. exact KT.
    + destruct (failure env (2 + sendTick l w)).
      * destruct H as (_ & -> & _). exact KT.
      * destruct H as (-> & _). now apply keyedByEmail_markReplySent.
  - destruct H as (_ & -> & _). exact K.
Qed.

(** X28. If every row of the lead table is stored under its own email,
    valid and in lower case, the same holds after a run of
    [processMessage], and after any number of runs.  A reply sent by
    the run goes to the email of the lead parsed from the message, which
    is valid and in lower case, with the name of the agent picked and a
    booking URL that is not empty. *)
Theorem lead_table_keyed (env : Env) (messageId : string) (w : World) :
  keyedByEmail (lead w) ->
  let w' := snd (processMessage env messageId w) in
  keyedByEmail (lead w')
  /\ (forall ids, keyedByEmail (lead (snd (processAll env ids w))))
  /\ (forall to name url,
        In (EvSend to name url) (added w w') ->
        isValidEmail to = true /\ toLowerCase to = to /\ url <> EmptyString
        /\ exists l a row,
             stepFive env messageId w = Some (l, a, row)
             /\ to = email l /\ name = agentName a /\ url = bookingUrlOf a).
Proof.
  intros K. cbv zeta. split; [now apply processMessage_keyed|]. split.
  - intros ids. revert w K. induction ids as [|i ids IH]; intros w K; [exact K|].
    cbn [processAll]. pose proof (processMessage_keyed env i w K) as K1.
    destruct (processMessage env i w) as [r w1]. cbn [snd] in K1.
    specialize (IH w1 K1). now destruct (processAll env ids w1).
  - intros to name url Hin.
    destruct (markProcessing_run env messageId w) as (HT & HL & HA & row0 & HM).
    destruct (tryBody_sendsTo env messageId (snd (markProcessing env messageId w)))
      as (evs & HE & HS).
    assert (Hadd : exists post, added w (snd (processMessage env messageId w))
                                = EvProcessing messageId row0 :: evs ++ post
                                /\ forall t n u, ~ In (EvSend t n u) post).
    { unfold processMessage. cbv zeta.
      destruct (markProcessing env messageId w) as [n w1]. cbn [snd] in *.
      destruct (tryBody env messageId w1) as [[[lrow a']|e] w2]; cbn [fst snd] in *.
      - exists []. split; [|intros t n0 u []].
        apply added_app. rewrite HE, HM, <- app_assoc, app_nil_r. reflexivity.
      - destruct (onFailure_run env messageId (errorMessageOf env (tick w2) e) n w2) as [_ HF].
        destruct (onFailure env messageId (errorMessageOf env (tick w2) e) n w2) as [u w3]. cbn [snd] in *.
        exists [EvFailed messageId (errorMessageOf env (tick w2) e);
                EvAlert messageId (errorMessageOf env (tick w2) e) n]. split.
        + apply added_app. rewrite HF, HE, HM, <- !app_assoc. reflexivity.
        + intros t n0 u0 [H|[H|[]]]; discriminate H. }
    destruct Hadd as (post & Ha & Hp). rewrite Ha in Hin.
    destruct Hin as [H|Hin]; [discriminate H|].
    apply in_app_or in Hin as [Hin|Hin]; [|now apply Hp in Hin].
    apply HS in Hin as (l & a & row & E5 & -> & -> & ->).
    fold (stepFive env messageId w) in E5.
    pose proof (stepFive_inv _ _ _ _ _ _ E5) as (_ & HP & _ & HR).
    apply parseOf_email in HP as [V L].
    assert (Erow : leadEmail row = email l).
    { rewrite HR. now apply upsertedRow_email. }
    rewrite Erow. split; [exact V|]. split; [exact L|].
    split; [apply bookingUrlOf_nonempty|]. exists l, a, row. auto.
Qed.

Lemma lead_table_keyed_witness :
  keyedByEmail (lead answeredWorld)
  /\ keyedByEmail (lead (snd (processMessage sampleEnv "m1" answeredWorld))).
Proof.
  assert (K : keyedByEmail (lead answeredWorld)).
  { intros k r H. cbn [lead answeredWorld] in H.
    apply lookup_singleton_Some in H as [<- <-]. repeat split; vm_compute; reflexivity. }
  split; [exact K|].
  exact (proj1 (lead_table_keyed sampleEnv "m1" answeredWorld K)).
Defined.

(** ** worker/poller.ts, the retries and cli/run-cron.ts *)

Lemma existsb_eqb_In (id : string) (ids : list string) :
  existsb (String.eqb id) ids = true <-> In id ids.
Proof.
  rewrite existsb_exists. split.
  - intros (x & Hx & E). apply String.eqb_eq in E. now subst.
  - intros H. exists id. split; [assumption|apply String.eqb_refl].
Qed.

Lemma processedIds_spec (ids : list string) (table : gmap string ProcessedMessage) id :
  In id ids ->
  (id ∈ (list_to_set
           (map fst
              (List.filter (fun row => existsb (String.eqb (fst row)) ids
                                       && isSuccess (snd row))%bool
                           (map_to_list table))) : gset string))
  <-> hasSucceeded table id = true.
Proof.
  intros Hin. rewrite elem_of_list_to_set, list_elem_of_In, in_map_iff.
  unfold hasSucceeded. split.
  - intros ([k p] & <- & H). apply filter_In in H as [H Hq].
    apply list_elem_of_In, elem_of_map_to_list in H. cbn [fst snd] in *.
    rewrite H. now apply andb_true_iff in Hq.
  - destruct (table !! id) as [p|] eqn:E; [|discriminate]. intros Hs.
    exists (id, p). split; [reflexivity|]. apply filter_In. split.
    + now apply list_elem_of_In, elem_of_map_to_list.
    + cbn [fst snd]. rewrite Hs, andb_true_r. now apply existsb_eqb_In.
Qed.

Lemma pollUnreadMessages_filter messages (table : gmap string ProcessedMessage) :
  pollUnreadMessages messages table
  = List.filter (fun m => negb (hasSucceeded table (unreadId m))) messages.
Proof.
  unfold pollUnreadMessages. destruct messages as [|m0 ms]; [reflexivity|].
  apply filter_ext_in. intros m Hm. f_equal.
  assert (Hin : In (unreadId m) (map unreadId (m0 :: ms))) by now apply in_map.
  pose proof (processedIds_spec _ table _ Hin) as H.
  destruct (hasSucceeded table (unreadId m)).
  - apply bool_decide_eq_true. now apply H.
  - apply bool_decide_eq_false. intros C. apply H in C. discriminate.
Qed.

(** X23. [pollUnreadMessages] returns, in the order of the mailbox,
    the listed messages that have no processing record with status
    [SUCCESS]. *)
Theorem pollUnreadMessages_skips_success
    (messages : list UnreadMessage) (table : gmap string ProcessedMessage) :
  pollUnreadMessages messages table
  = List.filter
      (fun m => match table !! unreadId m with
                | Some p => match status p with SUCCESS => false | _ => true end
                | None => true
                end)
      messages.
Proof.
  rewrite pollUnreadMessages_filter. apply filter_ext. intros m.
  unfold hasSucceeded, isSuccess. destruct (table !! unreadId m) as [p|]; [|reflexivity].
  now destruct (status p).
Qed.

(** X24. After a run of [processMessage] on a message, the next poll
    offers that message again exactly when the run failed (and the
    mailbox still lists it); for the other messages the poll answers as
    before the run. *)
Theorem poll_after_run (env : Env) (messageId : string) (w : World)
    (messages : list UnreadMessage) (m : UnreadMessage) :
  let r := fst (processMessage env messageId w) in
  let w' := snd (processMessage env messageId w) in
  In m (pollUnreadMessages messages (processedMessage w')) <->
  In m messages
  /\ if String.eqb (unreadId m) messageId then success r = false
     else hasSucceeded (processedMessage w) (unreadId m) = false.
Proof.
  cbv zeta. rewrite pollUnreadMessages_filter, filter_In, processMessage_table.
  unfold hasSucceeded.
  destruct (String.eqb (unreadId m) messageId) eqn:E.
  - apply String.eqb_eq in E. rewrite E, lookup_insert_eq. unfold isSuccess.
    cbn [status]. destruct (success _); cbn; intuition congruence.
  - apply String.eqb_neq in E. rewrite lookup_insert_ne by congruence.
    destruct (match processedMessage w !! unreadId m with
              | Some p => isSuccess p | None => false end); cbn; intuition congruence.
Qed.

(** *** Retries *)

Lemma insertByAttempt_perm x l : Permutation (x :: l) (insertByAttempt x l).
Proof.
  induction l as [|y l IH]; cbn [insertByAttempt]; [reflexivity|].
  destruct (Z.leb _ _); [reflexivity|].
  rewrite perm_swap. now apply perm_skip.
Qed.

Lemma sortByAttempt_perm l : Permutation l (sortByAttempt l).
Proof.
  induction l as [|x l IH]; cbn [sortByAttempt fold_right]; [reflexivity|].
  rewrite <- insertByAttempt_perm. now apply perm_skip.
Qed.

Lemma insertByAttempt_sorted x l :
  StronglySorted attemptedBefore l ->
  StronglySorted attemptedBefore (insertByAttempt x l).
Proof.
  induction l as [|y l IH]; cbn [insertByAttempt]; intros S.
  - repeat constructor.
  - destruct (Z.leb _ _) eqn:E.
    + apply Z.leb_le in E. constructor; [assumption|].
      apply StronglySorted_inv in S as [_ F]. constructor; [exact E|].
      eapply List.Forall_impl; [|exact F]. unfold attemptedBefore. intros; lia.
    + apply Z.leb_gt in E. apply StronglySorted_inv in S as [S F].
      constructor; [now apply IH|].
      apply List.Forall_forall. intros z Hz.
      apply (Permutation_in _ (Permutation_sym (insertByAttempt_perm x l))) in Hz.
      destruct Hz as [<-|Hz]; [unfold attemptedBefore; lia|].
      eapply List.Forall_forall in F; eauto.
Qed.

Lemma sortByAttempt_sorted l : StronglySorted attemptedBefore (sortByAttempt l).
Proof.
  induction l as [|x l IH]; cbn [sortByAttempt fold_right]; [constructor|].
  now apply insertByAttempt_sorted.
Qed.

Lemma In_firstn {A} n (l : list A) x : In x (firstn n l) -> In x l.
Proof.
  intros H. rewrite <- (firstn_skipn n l). apply in_or_app. now left.
Qed.

Lemma failedMessages_In maxAttempts (table : gmap string ProcessedMessage) id p :
  In (id, p) (failedMessages maxAttempts table) ->
  table !! id = Some p /\ status p = FAILED /\ (attempts p < maxAttempts)%Z.
Proof.
  unfold failedMessages. intros H. apply In_firstn in H.
  apply (Permutation_in _ (Permutation_sym (sortByAttempt_perm _))) in H.
  apply filter_In in H as [H Q]. cbn [snd] in Q.
  apply list_elem_of_In, elem_of_map_to_list in H.
  apply andb_true_iff in Q as [Q1 Q2]. apply Z.ltb_lt in Q2.
  unfold isFailed in Q1. repeat split; auto. now destruct (status p).
Qed.

Lemma NoDup_firstn {A} n (l : list A) : List.NoDup l -> List.NoDup (firstn n l).
Proof.
  intros H. rewrite <- (firstn_skipn n l) in H. now apply List.NoDup_app_remove_r in H.
Qed.

Lemma NoDup_fst_filter {A B} (q : A * B -> bool) (l : list (A * B)) :
  List.NoDup (map fst l) -> List.NoDup (map fst (List.filter q l)).
Proof.
  induction l as [|x l IH]; cbn [map List.filter]; [auto|]. intros H.
  apply List.NoDup_cons_iff in H as [Hx H]. destruct (q x); [|now apply IH].
  cbn [map]. constructor; [|now apply IH].
  intros C. apply Hx. apply in_map_iff in C as (y & E & Hy).
  apply in_map_iff. exists y. split; [assumption|]. now apply filter_In in Hy.
Qed.

Lemma failedMessages_NoDup maxAttempts (table : gmap string ProcessedMessage) :
  List.NoDup (map fst (failedMessages maxAttempts table)).
Proof.
  unfold failedMessages. rewrite <- firstn_map. apply NoDup_firstn.
  eapply Permutation_NoDup; [apply Permutation_map, sortByAttempt_perm|].
  apply NoDup_fst_filter. apply NoDup_ListNoDup, (NoDup_fst_map_to_list table).
Qed.

Lemma StronglySorted_firstn {A} (R : A -> A -> Prop) n (l : list A) :
  StronglySorted R l -> StronglySorted R (firstn n l).
Proof.
  revert l. induction n as [|n IH]; intros l S; [constructor|].
  destruct l as [|x l]; [constructor|]. cbn [firstn].
  apply StronglySorted_inv in S as [S F]. constructor; [now apply IH|].
  apply List.Forall_forall. intros y Hy. apply In_firstn in Hy.
  eapply List.Forall_forall in F; eauto.
Qed.

Lemma failedMessages_sorted maxAttempts (table : gmap string ProcessedMessage) :
  StronglySorted attemptedBefore (failedMessages maxAttempts table).
Proof. apply StronglySorted_firstn, sortByAttempt_sorted. Qed.

Lemma processAll_ids env ids : forall w,
  map resMessageId (fst (processAll env ids w)) = ids.
Proof.
  induction ids as [|id ids IH]; intros w; cbn [processAll]; [reflexivity|].
  destruct (processMessage_result env id w) as [E _].
  destruct (processMessage env id w) as [r w1]. cbn [fst] in E.
  specialize (IH w1). destruct (processAll env ids w1) as [rs w2].
  cbn [fst map] in *. now rewrite E, IH.
Qed.

Lemma processAll_frame env ids : forall w id,
  ~ In id ids ->
  processedMessage (snd (processAll env ids w)) !! id = processedMessage w !! id.
Proof.
  induction ids as [|i ids IH]; intros w id H; cbn [processAll]; [reflexivity|].
  pose proof (processMessage_table env i w) as T.
  destruct (processMessage env i w) as [r w1]. cbn [fst snd] in T.
  specialize (IH w1 id). destruct (processAll env ids w1) as [rs w2].
  cbn [snd] in *. rewrite IH by (intros C; apply H; now right).
  rewrite T. apply lookup_insert_ne. intros ->. apply H. now left.
Qed.

Lemma processAll_attempts env ids : forall w id,
  List.NoDup ids ->
  attemptsOf id (snd (processAll env ids w))
  = (attemptsOf id w + if existsb (String.eqb id) ids then 1 else 0)%Z.
Proof.
  induction ids as [|i ids IH]; intros w id N; cbn [processAll existsb].
  - cbn [snd]. lia.
  - apply List.NoDup_cons_iff in N as [Ni N].
    pose proof (processMessage_table env i w) as T.
    destruct (processMessage env i w) as [r w1]. cbn [fst snd] in T.
    specialize (IH w1 id N). destruct (processAll env ids w1) as [rs w2].
    cbn [snd] in *. rewrite IH. unfold attemptsOf at 1. rewrite T.
    destruct (String.eqb id i) eqn:E.
    + apply String.eqb_eq in E. subst i. rewrite lookup_insert_eq. cbn [attempts orb].
      destruct (existsb (String.eqb id) ids) eqn:Ex; [|lia].
      apply existsb_eqb_In in Ex. contradiction.
    + apply String.eqb_neq in E. rewrite lookup_insert_ne by congruence.
      cbn [orb]. reflexivity.
Qed.

Lemma StronglySorted_split {A} (R : A -> A -> Prop) n (l : list A) x y :
  StronglySorted R l -> In x (firstn n l) -> In y (skipn n l) -> R x y.
Proof.
  revert l. induction n as [|n IH]; intros l S Hx Hy; [destruct Hx|].
  destruct l as [|z l]; [destruct Hx|]. cbn [firstn skipn] in *.
  apply StronglySorted_inv in S as [S F]. destruct Hx as [<-|Hx].
  - eapply List.Forall_forall in F; [exact F|].
    rewrite <- (firstn_skipn n l). apply in_or_app. now right.
  - now apply (IH l).
Qed.

Lemma failedMessages_oldest maxAttempts (table : gmap string ProcessedMessage)
    id p id' p' :
  In (id, p) (failedMessages maxAttempts table) ->
  table !! id' = Some p' -> status p' = FAILED -> (attempts p' < maxAttempts)%Z ->
  ~ In id' (map fst (failedMessages maxAttempts table)) ->
  (lastAttemptAt p <= lastAttemptAt p')%Z.
Proof.
  unfold failedMessages. intros Hx Hl Hs Ha Hn.
  set (eligible := List.filter _ (map_to_list table)) in *.
  assert (Hy : In (id', p') (sortByAttempt eligible)).
  { apply (Permutation_in _ (sortByAttempt_perm _)). apply filter_In. split.
    - now apply list_elem_of_In, elem_of_map_to_list.
    - cbn [snd]. unfold isFailed. rewrite Hs. cbn. now apply Z.ltb_lt. }
  rewrite <- (firstn_skipn 10 (sortByAttempt eligible)) in Hy.
  apply in_app_or in Hy as [Hy|Hy].
  - exfalso. apply Hn. apply in_map_iff. now exists (id', p').
  - apply (StronglySorted_split attemptedBefore 10 _ (id, p) (id', p')
             (sortByAttempt_sorted eligible) Hx Hy).
Qed.

(** X25. [retryFailedMessages] runs at most ten messages, each once,
    all of them failed with fewer than [maxAttempts] attempts, and no
    eligible message left out was last attempted before one that is
    run.  The counters of the messages run grow by one and every other
    record is unchanged, so that no counter is pushed beyond
    [maxAttempts]. *)
Theorem retryFailedMessages_ceiling (env : Env) (maxAttempts : Z) (w : World) :
  let rs := fst (retryFailedMessages env maxAttempts w) in
  let w' := snd (retryFailedMessages env maxAttempts w) in
  let ids := map resMessageId rs in
  List.length rs <= 10
  /\ List.NoDup ids
  /\ Forall (fun id => exists p, processedMessage w !! id = Some p
                         /\ status p = FAILED /\ (attempts p < maxAttempts)%Z) ids
  /\ (forall id, attemptsOf id w'
                 = (attemptsOf id w + if existsb (String.eqb id) ids then 1 else 0)%Z)
  /\ (forall id, ~ In id ids -> processedMessage w' !! id = processedMessage w !! id)
  /\ (forall id, (attemptsOf id w <= maxAttempts)%Z -> (attemptsOf id w' <= maxAttempts)%Z)
  /\ (forall id p id' p',
        In id ids -> processedMessage w !! id = Some p ->
        processedMessage w !! id' = Some p' -> status p' = FAILED ->
        (attempts p' < maxAttempts)%Z -> ~ In id' ids ->
        (lastAttemptAt p <= lastAttemptAt p')%Z).
Proof.
  cbv zeta. unfold retryFailedMessages.
  set (batch := failedMessages maxAttempts (processedMessage w)).
  rewrite processAll_ids.
  assert (HN : List.NoDup (map fst batch)) by apply failedMessages_NoDup.
  assert (HF : Forall (fun id => exists p, processedMessage w !! id = Some p
                          /\ status p = FAILED /\ (attempts p < maxAttempts)%Z)
                      (map fst batch)).
  { apply List.Forall_forall. intros id H. apply in_map_iff in H as ([k p] & <- & H).
    exists p. now apply failedMessages_In in H. }
  repeat split.
  - rewrite <- (length_map resMessageId), processAll_ids, length_map.
    unfold batch, failedMessages. apply firstn_le_length.
  - exact HN.
  - exact HF.
  - intros id. now apply processAll_attempts.
  - intros id H. now apply processAll_frame.
  - intros id H. rewrite processAll_attempts by exact HN.
    destruct (existsb (String.eqb id) (map fst batch)) eqn:E; [|lia].
    apply existsb_eqb_In in E. eapply List.Forall_forall in HF; [|exact E].
    destruct HF as (p & Hp & _ & Ha). unfold attemptsOf. rewrite Hp. lia.
  - intros id p id' p' Hin Hp Hp' Hs Ha Hn.
    apply in_map_iff in Hin as ([k q] & E & Hin). cbn [fst] in E. subst k.
    pose proof (failedMessages_In _ _ _ _ Hin) as (Hq & _).
    assert (q = p) by congruence. subst q.
    now apply (failedMessages_oldest maxAttempts (processedMessage w) id p id' p').
Qed.


Lemma poll_not_succeeded messages (table : gmap string ProcessedMessage) id p :
  table !! id = Some p -> status p = SUCCESS ->
  ~ In id (map unreadId (pollUnreadMessages messages table)).
Proof.
  intros Hp Hs C. apply in_map_iff in C as (m & <- & C).
  rewrite pollUnreadMessages_filter in C. apply filter_In in C as [_ C].
  unfold hasSucceeded, isSuccess in C. now rewrite Hp, Hs in C.
Qed.

Lemma retry_not_succeeded env w id p :
  processedMessage w !! id = Some p -> status p = SUCCESS ->
  processedMessage (snd (retryFailedMessages env 3 w)) !! id = Some p.
Proof.
  intros Hp Hs. unfold retryFailedMessages. rewrite processAll_frame; [exact Hp|].
  intros C. apply in_map_iff in C as ([k q] & E & C). cbn [fst] in E. subst k.
  apply failedMessages_In in C as (Hq & Hf & _). congruence.
Qed.

(** *** The scheduled run *)

Lemma main_cases env now workerId listed (locks : gmap string SystemLock) w :
  (heldAt now LOCK_NAME locks
   /\ main env now workerId listed locks w = (Exited, locks, w))
  \/ (~ heldAt now LOCK_NAME locks
      /\ main env now workerId listed locks w
         = match listed with
           | Throw e => (Fatal e, <[LOCK_NAME := mkLock None 0]> locks, w)
           | Ok answer =>
               (Completed (fst (afterPoll env answer w)),
                <[LOCK_NAME := mkLock None 0]> locks,
                snd (afterPoll env answer w))
           end).
Proof.
  assert (R : forall row, releaseLock LOCK_NAME (<[LOCK_NAME := row]> locks)
                          = <[LOCK_NAME := mkLock None 0]> locks).
  { intros row. unfold releaseLock. rewrite lookup_insert_eq. apply insert_insert_eq. }
  assert (A : forall locks1 : gmap string SystemLock,
    match listed with
    | Throw e => (Fatal e, locks1, w)
    | Ok answer =>
        let messages := pollUnreadMessages answer (processedMessage w) in
        let '(results, w1) := processAll env (map unreadId messages) w in
        let '(retryResults, w2) := retryFailedMessages env 3 w1 in
        (Completed (results ++ retryResults), locks1, w2)
    end
    = match listed with
      | Throw e => (Fatal e, locks1, w)
      | Ok answer =>
          (Completed (fst (afterPoll env answer w)), locks1,
           snd (afterPoll env answer w))
      end).
  { intros locks1. destruct listed as [answer|e]; [|reflexivity].
    unfold afterPoll. cbv zeta.
    destruct (processAll env _ w) as [results w1].
    now destruct (retryFailedMessages env 3 w1) as [retryResults w2]. }
  unfold main, acquireLock, heldAt.
  destruct (locks !! LOCK_NAME) as [l|] eqn:El.
  - destruct (Z.ltb now (expiresAt l)) eqn:Eh.
    + left. apply Z.ltb_lt in Eh. split; [now exists l|reflexivity].
    + right. apply Z.ltb_ge in Eh. split.
      * intros (l' & E & H). assert (l' = l) by congruence. subst. lia.
      * rewrite R. apply A.
  - right. split; [now intros (l' & E & _)|]. rewrite R. apply A.
Qed.

Lemma afterPoll_keeps_success env answer w id p :
  processedMessage w !! id = Some p -> status p = SUCCESS ->
  processedMessage (snd (afterPoll env answer w)) !! id = Some p.
Proof.
  intros Hp Hs. unfold afterPoll. cbv zeta.
  pose proof (processAll_frame env
                (map unreadId (pollUnreadMessages answer (processedMessage w))) w id
                (poll_not_succeeded _ _ _ _ Hp Hs)) as F.
  destruct (processAll env _ w) as [results w1]. cbn [snd] in F.
  pose proof (retry_not_succeeded env w1 id p) as G.
  destruct (retryFailedMessages env 3 w1) as [retryResults w2]. cbn [snd] in *.
  apply G; [now rewrite F|exact Hs].
Qed.

(** X26. [main] exits without touching anything exactly when the lock
    is held by an unexpired row.  Otherwise it ends with the lock
    released, whether the run completes or the mailbox throws, so that
    the next run can take the lock at once; an error of the mailbox
    ends the run before any message is processed.  In no case does it
    change the record of a message that already has status
    [SUCCESS]. *)
Theorem main_run (env : Env) (now : Z) (workerId : string)
    (listed : result (list UnreadMessage))
    (locks : gmap string SystemLock) (w : World) :
  let '(outcome, locks', w') := main env now workerId listed locks w in
  (heldAt now LOCK_NAME locks <-> outcome = Exited)
  /\ (outcome = Exited -> locks' = locks /\ w' = w)
  /\ (outcome <> Exited ->
      locks' = <[LOCK_NAME := mkLock None 0]> locks
      /\ forall t other, (0 <= t)%Z ->
           isLocked t LOCK_NAME locks' = false
           /\ fst (acquireLock t LOCK_NAME other locks') = true)
  /\ (forall e, listed = Throw e -> outcome = Exited \/ (outcome = Fatal e /\ w' = w))
  /\ (forall id p, processedMessage w !! id = Some p -> status p = SUCCESS ->
        processedMessage w' !! id = Some p).
Proof.
  assert (F : forall t other, (0 <= t)%Z ->
    isLocked t LOCK_NAME (<[LOCK_NAME := mkLock None 0]> locks) = false
    /\ fst (acquireLock t LOCK_NAME other (<[LOCK_NAME := mkLock None 0]> locks)) = true).
  { intros t other Ht. unfold isLocked, acquireLock. rewrite lookup_insert_eq.
    cbn [expiresAt]. assert (E : Z.ltb t 0 = false) by (apply Z.ltb_ge; lia).
    now rewrite E. }
  destruct (main_cases env now workerId listed locks w) as [[H ->]|[H ->]].
  - repeat split; auto; congruence.
  - destruct listed as [answer|e].
    + split; [split; [contradiction|discriminate]|].
      split; [discriminate|]. split; [now split|].
      split; [discriminate|]. intros id p. apply afterPoll_keeps_success.
    + split; [split; [contradiction|discriminate]|].
      split; [discriminate|]. split; [now split|].
      split; [|auto]. intros e' E. injection E as <-. now right.
Qed.
